(** * plex-playlist-sync: the track-reconciliation engine of [utils/plex.py]

    A shallow embedding of [createPlexServer], [saveSearch], [_write_csv],
    [_delete_csv], [_get_available_plex_tracks], [_update_plex_playlist] and
    [update_or_create_plex_playlist], together with the parts of Python's
    [str] and [difflib] the engine calls.

    The Plex server and the file system are the outside world of the program.
    They are modelled by a [World]: a clock that advances at every remote or
    file-system call, a fault oracle saying which calls raise, the search
    index, the remote playlist store and the files under the data folder.
    A computation maps a world to a result (a value or a raised exception),
    the next world, and the events it produced (calls and log lines, oldest
    first). The two recursive retries take the recursion depth that is left
    and raise [RecursionError] when it is used up, as Python does. *)

From Stdlib Require Import String Ascii List ZArith QArith Lia Bool.
From stdpp Require Import base option list gmap strings.

Local Open Scope nat_scope.
Local Open Scope stdpp_scope.

(** ** Python strings *)

Module Str.

(** [str.split(sep)] for a one-character separator: the pieces between the
    occurrences of [sep]; never the empty list. *)
Fixpoint split (sep : ascii) (s : string) : list string :=
  match s with
  | EmptyString => [EmptyString]
  | String c rest =>
      if Ascii.eqb c sep then EmptyString :: split sep rest
      else match split sep rest with
           | [] => [String c EmptyString]
           | piece :: pieces => String c piece :: pieces
           end
  end.

(** [xs[0]] on a list of strings; the default is never used on the result
    of [split]. *)
Definition item0 (xs : list string) : string := hd EmptyString xs.

(** [c in s] *)
Fixpoint contains (c : ascii) (s : string) : bool :=
  match s with
  | EmptyString => false
  | String c' rest => Ascii.eqb c' c || contains c rest
  end.

(** The characters of [s] before the first occurrence of [c] (all of [s]
    when there is none). *)
Fixpoint before (c : ascii) (s : string) : string :=
  match s with
  | EmptyString => EmptyString
  | String c' rest => if Ascii.eqb c' c then EmptyString else String c' (before c rest)
  end.

(** [str.lower()] on ASCII text: the letters A..Z are mapped to a..z, every
    other byte is kept. *)
Definition lower_char (c : ascii) : ascii :=
  let n := nat_of_ascii c in
  if (65 <=? n) && (n <=? 90) then ascii_of_nat (n + 32) else c.

Fixpoint lower (s : string) : string :=
  match s with
  | EmptyString => EmptyString
  | String c rest => String (lower_char c) (lower rest)
  end.

Definition chars (s : string) : list ascii := list_ascii_of_string s.

End Str.

(** ** difflib.SequenceMatcher.quick_ratio *)

Module Difflib.

(** [fullbcount]: how often each element occurs in [b]. *)
Definition fullbcount (b : list ascii) : gmap ascii Z :=
  foldl (fun m elt => <[elt := (default 0 (m !! elt) + 1)%Z]> m) ∅ b.

(** The loop over [a]: [avail] holds what is left of each element's count
    in [b] (it may go below zero), [matches] counts the elements of [a] that
    still found one. *)
Fixpoint count_matches (full avail : gmap ascii Z) (a : list ascii)
    (matches : nat) : nat :=
  match a with
  | [] => matches
  | elt :: a' =>
      let numb := match avail !! elt with
                  | Some n => n
                  | None => default 0%Z (full !! elt)
                  end in
      count_matches full (<[elt := (numb - 1)%Z]> avail) a'
        (if (0 <? numb)%Z then S matches else matches)
  end.

(** [_calculate_ratio]: [2.0 * matches / length], and [1.0] for length 0.
    The quotient is kept exact; the engine only compares it with 0.9, and
    for strings of fewer than 2^49 characters the rounded quotient is at
    least the rounded 0.9 exactly when the exact one is at least 9/10. *)
Definition _calculate_ratio (matches length : nat) : Q :=
  match length with
  | O => 1%Q
  | S _ => Qmake (2 * Z.of_nat matches) (Pos.of_nat length)
  end.

Definition quick_ratio (a b : string) : Q :=
  let a := Str.chars a in
  let b := Str.chars b in
  _calculate_ratio (count_matches (fullbcount b) ∅ a 0)
                   (List.length a + List.length b).

End Difflib.

(** ** Exceptions *)

(** The exception classes the engine distinguishes. [Unauthorized] is
    plexapi's subclass of [BadRequest]; [RecursionError] is what Python raises
    when a call finds no recursion depth left; [OtherException] stands for
    every other class derived from [Exception], by name; [NonException] for
    the classes that are not derived from it ([KeyboardInterrupt],
    [SystemExit], [GeneratorExit]), by name. *)
Inductive exn : Type :=
  | BadRequest
  | Unauthorized
  | NotFound
  | IndexError
  | RecursionError
  | OtherException (cls : string)
  | NonException (cls : string).

(** [except Exception]; a bare [except:] catches every class. *)
Definition is_Exception (e : exn) : bool :=
  match e with NonException _ => false | _ => true end.

(** [except BadRequest] *)
Definition is_BadRequest (e : exn) : bool :=
  match e with BadRequest | Unauthorized => true | _ => false end.

(** [except NotFound] *)
Definition is_NotFound (e : exn) : bool :=
  match e with NotFound => true | _ => false end.

(** [except IndexError] *)
Definition is_IndexError (e : exn) : bool :=
  match e with IndexError => true | _ => false end.

(** ** Data *)

(** Modelled from the spec: [helperClasses.Track] is not among the sources;
    the fields are the ones [plex.py] reads, in the column order the spec
    gives for the missing-tracks record. *)
Record Track : Type := {
  title : string;
  artist : string;
  album : string;
  url : string
}.

(** [Track.__annotations__.keys()], the header row of the record. *)
Definition Track_annotations : list string := ["title"; "artist"; "album"; "url"].

(** Modelled from the spec: [helperClasses.Playlist] is not among the
    sources; description and poster are optional. *)
Record Playlist : Type := {
  name : string;
  description : option string;
  poster : option string
}.

(** Modelled from the spec: [helperClasses.UserInputs] is not among the
    sources; the fields are the ones [plex.py] reads. *)
Record UserInputs : Type := {
  plex_url : string;
  plex_token : string;
  append_instead_of_sync : bool;
  add_playlist_description : bool;
  add_playlist_poster : bool;
  write_missing_as_csv : bool
}.

(** A track object returned by a search. [track_artist] is the outcome of
    [s.artist().title] and [track_album] that of [s.album().title]: the text,
    or the exception the access raises. *)
Record PlexTrack : Type := {
  ratingKey : N;
  track_artist : exn + string;
  track_album : exn + string
}.

(** A connection object; every successful [PlexServer(...)] is a new one. *)
Record PlexServer : Type := { srv_id : nat }.

(** A playlist object: the connection it was fetched through and its title. *)
Record PlexPlaylist : Type := {
  pp_server : PlexServer;
  pp_title : string
}.

(** A playlist as the server stores it. *)
Record RemotePlaylist : Type := {
  pl_items : list PlexTrack;
  pl_summary : option string;
  pl_poster : option string
}.

(** ** The outside world *)

Record World : Type := {
  w_clock : nat;
  (** the exception, if any, that the call made at a given tick raises *)
  w_fault : nat → option exn;
  (** what a search answers at a given tick: query, media type, limit *)
  w_index : nat → string → string → nat → list PlexTrack;
  w_playlists : gmap string RemotePlaylist;
  (** the csv files, by path, as rows of fields *)
  w_files : gmap string (list (list string))
}.

Definition advance (w : World) : World :=
  {| w_clock := S (w_clock w); w_fault := w_fault w; w_index := w_index w;
     w_playlists := w_playlists w; w_files := w_files w |}.

Definition set_playlists (ps : gmap string RemotePlaylist) (w : World) : World :=
  {| w_clock := w_clock w; w_fault := w_fault w; w_index := w_index w;
     w_playlists := ps; w_files := w_files w |}.

Definition set_files (fs : gmap string (list (list string))) (w : World) : World :=
  {| w_clock := w_clock w; w_fault := w_fault w; w_index := w_index w;
     w_playlists := w_playlists w; w_files := fs |}.

Inductive event : Type :=
  | EvLog (fmt : string) (args : list string)
  | EvSleep (secs : nat)
  | EvConnect (baseurl token : string) (timeout : nat) (r : exn + PlexServer)
  | EvSearch (plex : PlexServer) (query mediatype : string) (limit : nat)
             (r : exn + list PlexTrack)
  | EvPlaylist (plex : PlexServer) (title : string)
  | EvItems (pp : PlexPlaylist)
  | EvRemoveItems (pp : PlexPlaylist) (items : list PlexTrack)
  | EvAddItems (pp : PlexPlaylist) (items : list PlexTrack)
  | EvCreatePlaylist (plex : PlexServer) (title : string) (items : list PlexTrack)
  | EvEdit (pp : PlexPlaylist) (summary : string)
  | EvUploadPoster (pp : PlexPlaylist) (url : string)
  | EvMkdir (path : string)
  | EvOpenW (path : string)
  | EvWriteRow (path : string) (row : list string)
  | EvClose (path : string)
  | EvUnlink (path : string).

(** ** Computations *)

(** How a run ends. [Diverge] is a run that does not end; the retries of the
    engine are bounded by the recursion depth, so the engine itself never
    ends that way. *)
Inductive res (A : Type) : Type :=
  | Ret (a : A)
  | Raise (e : exn)
  | Diverge.
Arguments Ret {A} a.
Arguments Raise {A} e.
Arguments Diverge {A}.

Definition M (A : Type) : Type := World → res A * World * list event.

Definition ret {A} (a : A) : M A := fun w => (Ret a, w, []).

Definition bind {A B} (m : M A) (k : A → M B) : M B := fun w =>
  match m w with
  | (Ret a, w1, evs1) =>
      match k a w1 with (r, w2, evs2) => (r, w2, evs1 ++ evs2) end
  | (Raise e, w1, evs1) => (Raise e, w1, evs1)
  | (Diverge, w1, evs1) => (Diverge, w1, evs1)
  end.

Definition raise {A} (e : exn) : M A := fun w => (Raise e, w, []).

(** [try: m  except ...: handler e] where the handler decides by the class
    of [e] (and re-raises what no clause catches). *)
Definition try_except {A} (m : M A) (handler : exn → M A) : M A := fun w =>
  match m w with
  | (Raise e, w1, evs1) =>
      match handler e w1 with (r, w2, evs2) => (r, w2, evs1 ++ evs2) end
  | other => other
  end.

Definition emit (ev : event) : M unit := fun w => (Ret tt, w, [ev]).

(** [logging.info(fmt, *args)] *)
Definition log (fmt : string) (args : list string) : M unit := emit (EvLog fmt args).

(** [time.sleep(secs)] *)
Definition sleep (secs : nat) : M unit := emit (EvSleep secs).

#[global] Instance M_ret : MRet M := @ret.
#[global] Instance M_bind : MBind M := fun A B k m => bind m k.

(** A remote or file-system call: it takes one tick, raises what the fault
    oracle says for that tick, and otherwise runs [body]. *)
Definition call {A} (ev : event) (body : World → res A * World) : M A := fun w =>
  match w_fault w (w_clock w) with
  | Some e => (Raise e, advance w, [ev])
  | None => match body (advance w) with (r, w') => (r, w', [ev]) end
  end.

(** ** The plexapi calls the engine makes *)

(** [PlexServer(baseurl, token, timeout=...)] *)
Definition PlexServer_new (baseurl token : string) (timeout : nat) : M PlexServer :=
  fun w =>
    match w_fault w (w_clock w) with
    | Some e => (Raise e, advance w, [EvConnect baseurl token timeout (inl e)])
    | None =>
        let plex := {| srv_id := w_clock w |} in
        (Ret plex, advance w, [EvConnect baseurl token timeout (inr plex)])
    end.

(** [plex.search(query, mediatype=..., limit=...)] *)
Definition PlexServer_search (plex : PlexServer) (query mediatype : string)
    (limit : nat) : M (list PlexTrack) :=
  fun w =>
    match w_fault w (w_clock w) with
    | Some e => (Raise e, advance w, [EvSearch plex query mediatype limit (inl e)])
    | None =>
        let found := w_index w (w_clock w) query mediatype limit in
        (Ret found, advance w, [EvSearch plex query mediatype limit (inr found)])
    end.

(** [plex.playlist(title)]: [NotFound] when the server has none of that title. *)
Definition PlexServer_playlist (plex : PlexServer) (title : string) : M PlexPlaylist :=
  call (EvPlaylist plex title) (fun w =>
    match w_playlists w !! title with
    | Some _ => (Ret {| pp_server := plex; pp_title := title |}, w)
    | None => (Raise NotFound, w)
    end).

(** [plex.createPlaylist(title=..., items=...)] *)
Definition PlexServer_createPlaylist (plex : PlexServer) (title : string)
    (items : list PlexTrack) : M unit :=
  call (EvCreatePlaylist plex title items) (fun w =>
    (Ret tt,
     set_playlists
       (<[title := {| pl_items := items; pl_summary := None; pl_poster := None |}]>
          (w_playlists w)) w)).

(** A call on a playlist object reads or rewrites the stored playlist. *)
Definition on_playlist {A} (pp : PlexPlaylist)
    (f : RemotePlaylist → A * RemotePlaylist) (w : World) : res A * World :=
  match w_playlists w !! pp_title pp with
  | Some pl =>
      match f pl with
      | (a, pl') => (Ret a, set_playlists (<[pp_title pp := pl']> (w_playlists w)) w)
      end
  | None => (Raise NotFound, w)
  end.

(** [plex_playlist.items()] *)
Definition Playlist_items (pp : PlexPlaylist) : M (list PlexTrack) :=
  call (EvItems pp) (on_playlist pp (fun pl => (pl_items pl, pl))).

(** Whether an entry with rating key [k] is among [entries]. *)
Definition has_key (k : N) (entries : list PlexTrack) : bool :=
  existsb (fun t => N.eqb (ratingKey t) k) entries.

(** [entries] without the first entry whose rating key is [k]. *)
Fixpoint remove_first (k : N) (entries : list PlexTrack) : list PlexTrack :=
  match entries with
  | [] => []
  | t :: entries' =>
      if N.eqb (ratingKey t) k then entries' else t :: remove_first k entries'
  end.

(** The loop of [removeItems]: for each listed item the entry to delete is
    the first one with the item's rating key among the entries that [items()]
    read and cached before the first deletion; [NotFound] when there is none.
    For a key met for the first time that is the first such entry of what is
    left. An item whose key was handled before ([seen]) finds the entry that
    is deleted already, and deleting it again changes nothing, so later
    entries with that key stay. *)
Fixpoint remove_each (items : list PlexTrack) (seen : list N)
    (entries : list PlexTrack) : res unit * list PlexTrack :=
  match items with
  | [] => (Ret tt, entries)
  | item :: items' =>
      let k := ratingKey item in
      if existsb (N.eqb k) seen then remove_each items' seen entries
      else if has_key k entries
           then remove_each items' (k :: seen) (remove_first k entries)
           else (Raise NotFound, entries)
  end.

(** [plex_playlist.removeItems(items)] *)
Definition Playlist_removeItems (pp : PlexPlaylist) (items : list PlexTrack) : M unit :=
  call (EvRemoveItems pp items) (fun w =>
    match w_playlists w !! pp_title pp with
    | Some pl =>
        match remove_each items [] (pl_items pl) with
        | (r, entries) =>
            (r, set_playlists
                  (<[pp_title pp := {| pl_items := entries;
                                       pl_summary := pl_summary pl;
                                       pl_poster := pl_poster pl |}]>
                     (w_playlists w)) w)
        end
    | None => (Raise NotFound, w)
    end).

(** [plex_playlist.addItems(items)]: the tracks are added at the end. *)
Definition Playlist_addItems (pp : PlexPlaylist) (items : list PlexTrack) : M unit :=
  call (EvAddItems pp items) (on_playlist pp (fun pl =>
    (tt, {| pl_items := pl_items pl ++ items;
            pl_summary := pl_summary pl; pl_poster := pl_poster pl |}))).

(** [plex_playlist.edit(summary=...)] *)
Definition Playlist_edit (pp : PlexPlaylist) (summary : string) : M unit :=
  call (EvEdit pp summary) (on_playlist pp (fun pl =>
    (tt, {| pl_items := pl_items pl;
            pl_summary := Some summary; pl_poster := pl_poster pl |}))).

(** [plex_playlist.uploadPoster(url=...)] *)
Definition Playlist_uploadPoster (pp : PlexPlaylist) (url : string) : M unit :=
  call (EvUploadPoster pp url) (on_playlist pp (fun pl =>
    (tt, {| pl_items := pl_items pl;
            pl_summary := pl_summary pl; pl_poster := Some url |}))).

(** Iterating a plexapi object yields the object itself, once: this is what
    [plex_tracks.extend(s)] adds. *)
Definition PlexTrack_iter (s : PlexTrack) : list PlexTrack := [s].

(** Reading [s.artist().title] or [s.album().title]. *)
Definition read_meta (m : exn + string) : M string :=
  match m with
  | inl e => raise e
  | inr text => ret text
  end.

(** ** The file system calls *)

(** The parts of a POSIX path as [pathlib] keeps them: the pieces between
    the slashes, without the empty ones and the "." ones. *)
Definition path_parts (s : string) : list string :=
  List.filter (fun part => negb (String.eqb part "" || String.eqb part "."))
    (Str.split "/" s).

(** The root of a POSIX path: "/" for an absolute path, "//" when it begins
    with exactly two slashes, nothing for a relative one. *)
Definition path_root (s : string) : string :=
  match s with
  | String "/" (String "/" (String "/" _)) => "/"
  | String "/" (String "/" _) => "//"
  | String "/" _ => "/"
  | _ => ""
  end.

(** [sep.join(parts)] *)
Fixpoint join (sep : string) (parts : list string) : string :=
  match parts with
  | [] => ""
  | [part] => part
  | part :: parts' => part +:+ sep +:+ join sep parts'
  end.

(** [str(pathlib.Path(path) / f"{name}.csv")]: an absolute right operand
    replaces the folder; empty and "." parts are dropped. *)
Definition csv_path (path name : string) : string :=
  let file := name +:+ ".csv" in
  match path_root file with
  | "" => path_root path +:+ join "/" (path_parts path ++ path_parts file)
  | root => root +:+ join "/" (path_parts file)
  end.

(** [data_folder.mkdir(parents=True, exist_ok=True)] *)
Definition mkdir (path : string) : M unit :=
  call (EvMkdir path) (fun w => (Ret tt, w)).

(** [open(file, "w", encoding="utf-8")]: the file is created or emptied. *)
Definition open_w (file : string) : M unit :=
  call (EvOpenW file) (fun w => (Ret tt, set_files (<[file := []]> (w_files w)) w)).

(** [writer.writerow(row)] on the open file: the row comes after what the
    file holds. *)
Definition writerow (file : string) (row : list string) : M unit :=
  call (EvWriteRow file row) (fun w =>
    (Ret tt,
     set_files (<[file := default [] (w_files w !! file) ++ [row]]> (w_files w)) w)).

(** Closing the file when the [with] block is left. *)
Definition close (file : string) : M unit :=
  call (EvClose file) (fun w => (Ret tt, w)).

(** [with ...: body], once the file is open: the file is closed however the
    body ends, and an exception of the closing takes the place of the body's
    outcome. *)
Definition closing {A} (file : string) (body : M A) : M A := fun w =>
  match body w with
  | (Diverge, w1, evs1) => (Diverge, w1, evs1)
  | (r, w1, evs1) =>
      match close file w1 with
      | (Ret _, w2, evs2) => (r, w2, evs1 ++ evs2)
      | (Raise e, w2, evs2) => (Raise e, w2, evs1 ++ evs2)
      | (Diverge, w2, evs2) => (Diverge, w2, evs1 ++ evs2)
      end
  end.

(** [file.unlink()]: [FileNotFoundError] when there is no such file. *)
Definition unlink (file : string) : M unit :=
  call (EvUnlink file) (fun w =>
    match w_files w !! file with
    | Some _ => (Ret tt, set_files (delete file (w_files w)) w)
    | None => (Raise (OtherException "FileNotFoundError"), w)
    end).

(** ** The engine *)

(** [for x in xs: body x], for a body without [break]. *)
Fixpoint for_each {A} (xs : list A) (body : A → M unit) : M unit :=
  match xs with
  | [] => mret tt
  | x :: xs' => body x;; for_each xs' body
  end.

(** [createPlexServer]. [fuel] is the recursion depth left when the function
    is called: every nested call has one less, and a call that finds none
    raises [RecursionError]. The recursive call sits in the handler, outside
    the [try], so that exception goes to the caller. *)
Fixpoint createPlexServer (fuel : nat) (userInputs : UserInputs) : M PlexServer :=
  match fuel with
  | O => raise RecursionError
  | S fuel' =>
      try_except
        (log "Try to create a new plex server object" [];;
         PlexServer_new (plex_url userInputs) (plex_token userInputs) 90)
        (fun _ =>
           log "Error while creating. waiting for 5sek and try again" [];;
           sleep 5;;
           createPlexServer fuel' userInputs)
  end.

(** [saveSearch]: the connection in use afterwards, and the results or
    [None]. [fuel] is the recursion depth left, as for [createPlexServer];
    the reconnection and the retry sit in the handler, outside the [try]. *)
Fixpoint saveSearch (fuel : nat) (userInputs : UserInputs) (plexServer : PlexServer)
    (searchString mediatype : string) (limit : nat)
    : M (PlexServer * option (list PlexTrack)) :=
  match fuel with
  | O => raise RecursionError
  | S fuel' =>
      try_except
        (found ← PlexServer_search plexServer searchString mediatype limit;
         mret (plexServer, Some found))
        (fun e =>
           if is_BadRequest e then
             log "failed to search %s on plex" [searchString];;
             mret (plexServer, None)
           else if is_Exception e then
             log "exception while searching for %s " [searchString];;
             plexServer' ← createPlexServer fuel' userInputs;
             saveSearch fuel' userInputs plexServer' searchString mediatype limit
           else raise e)
  end.

(** [_write_csv] *)
Definition _write_csv (tracks : list Track) (name : string) (path : string) : M unit :=
  let data_folder := path in
  mkdir data_folder;;
  let file := csv_path data_folder name in
  open_w file;;
  closing file
    (writerow file Track_annotations;;
     for_each tracks (fun track =>
       writerow file [title track; artist track; album track; url track])).

(** [_delete_csv] *)
Definition _delete_csv (name : string) (path : string) : M unit :=
  let data_folder := path in
  let file := csv_path data_folder name in
  unlink file.

(** [SequenceMatcher(None, a.lower(), b.lower()).quick_ratio() >= 0.9] *)
Definition similar (a b : string) : bool :=
  Qle_bool (9 # 10) (Difflib.quick_ratio (Str.lower a) (Str.lower b)).

(** The body of the [try] for one search result [s] (lines 100-116): the
    resolved tracks afterwards, and whether the loop is left by [break]. *)
Definition try_candidate (track : Track) (s : PlexTrack) (plex_tracks : list PlexTrack)
    : M (list PlexTrack * bool) :=
  artist_title ← read_meta (track_artist s);
  if similar artist_title (artist track) then
    mret (plex_tracks ++ PlexTrack_iter s, true)
  else
    album_title ← read_meta (track_album s);
    if similar album_title (album track) then
      mret (plex_tracks ++ PlexTrack_iter s, true)
    else
      mret (plex_tracks, false).

(** [for s in search: try: ... except IndexError: ...] (lines 98-123): the
    resolved tracks afterwards and the value of [found]. *)
Fixpoint match_candidates (track : Track) (search : list PlexTrack)
    (plex_tracks : list PlexTrack) : M (list PlexTrack * bool) :=
  match search with
  | [] => mret (plex_tracks, false)
  | s :: search' =>
      '(plex_tracks', found) ←
        try_except (try_candidate track s plex_tracks)
          (fun e =>
             if is_IndexError e then
               log ("Looks like plex mismatched the search for %s,"
                    +:+ " retrying with next result") [title track];;
               mret (plex_tracks, false)
             else raise e);
      if (found : bool) then mret (plex_tracks', true)
      else match_candidates track search' plex_tracks'
  end.

(** [search != None and ((not search) or len(title.split("(")) > 1)] *)
Definition wants_retry (search : option (list PlexTrack)) (title : string) : bool :=
  match search with
  | None => false
  | Some found =>
      match found with [] => true | _ :: _ => false end
      || (1 <? length (Str.split "(" title))
  end.

(** The two searches for one track (lines 86-94): the connection in use
    afterwards and the value of [search]. *)
Definition search_track (fuel : nat) (userInputs : UserInputs) (plex : PlexServer)
    (track : Track) : M (PlexServer * option (list PlexTrack)) :=
  '(plex, search) ← saveSearch fuel userInputs plex (title track) "track" 5;
  if wants_retry search (title track) then
    log "retrying search for %s" [title track];;
    '(plex, searchNew) ←
      saveSearch fuel userInputs plex (Str.item0 (Str.split "(" (title track))) "track" 5;
    match searchNew with
    | Some more => mret (plex, Some (default [] search ++ more))
    | None => mret (plex, search)
    end
  else mret (plex, search).

(** One round of [for track in tracks] (lines 86-125). *)
Definition resolve_track (fuel : nat) (userInputs : UserInputs) (track : Track)
    (st : PlexServer * list PlexTrack * list Track)
    : M (PlexServer * list PlexTrack * list Track) :=
  let '(plex, plex_tracks, missing_tracks) := st in
  '(plex, search) ← search_track fuel userInputs plex track;
  '(plex_tracks, found) ←
    match search with
    | Some (s :: search') => match_candidates track (s :: search') plex_tracks
    | _ => mret (plex_tracks, false)
    end;
  if (found : bool) then mret (plex, plex_tracks, missing_tracks)
  else mret (plex, plex_tracks, missing_tracks ++ [track]).

Fixpoint resolve_tracks (fuel : nat) (userInputs : UserInputs) (tracks : list Track)
    (st : PlexServer * list PlexTrack * list Track)
    : M (PlexServer * list PlexTrack * list Track) :=
  match tracks with
  | [] => mret st
  | track :: tracks' =>
      st' ← resolve_track fuel userInputs track st;
      resolve_tracks fuel userInputs tracks' st'
  end.

(** [_get_available_plex_tracks]: the connection the loop ends with is
    dropped, the function returns [plex_tracks, missing_tracks]. *)
Definition _get_available_plex_tracks (fuel : nat) (plex : PlexServer)
    (tracks : list Track) (userInputs : UserInputs)
    : M (list PlexTrack * list Track) :=
  '(_, plex_tracks, missing_tracks) ← resolve_tracks fuel userInputs tracks (plex, [], []);
  mret (plex_tracks, missing_tracks).

(** [_update_plex_playlist] *)
Definition _update_plex_playlist (plex : PlexServer) (available_tracks : list PlexTrack)
    (playlist : Playlist) (append : bool) : M PlexPlaylist :=
  plex_playlist ← PlexServer_playlist plex (name playlist);
  (if negb append then
     items ← Playlist_items plex_playlist;
     Playlist_removeItems plex_playlist items
   else mret tt);;
  Playlist_addItems plex_playlist available_tracks;;
  mret plex_playlist.

(** Truth value of an optional string: [None] and the empty string are false. *)
Definition truthy (s : option string) : bool :=
  match s with
  | Some (String _ _) => true
  | _ => false
  end.

(** The branch [if available_tracks: ... else: ...] (lines 168-206). *)
Definition apply_playlist (plex : PlexServer) (playlist : Playlist)
    (userInputs : UserInputs) (available_tracks : list PlexTrack) : M unit :=
  match available_tracks with
  | _ :: _ =>
      plex_playlist ←
        try_except
          (plex_playlist ← _update_plex_playlist plex available_tracks playlist
                             (append_instead_of_sync userInputs);
           log "Updated playlist %s" [name playlist];;
           mret plex_playlist)
          (fun e =>
             if is_NotFound e then
               PlexServer_createPlaylist plex (name playlist) available_tracks;;
               log "Created playlist %s" [name playlist];;
               PlexServer_playlist plex (name playlist)
             else raise e);
      (if truthy (description playlist) && add_playlist_description userInputs then
         try_except
           (Playlist_edit plex_playlist (default "" (description playlist)))
           (fun _ => log "Failed to update description for playlist %s" [name playlist])
       else mret tt);;
      (if truthy (poster playlist) && add_playlist_poster userInputs then
         try_except
           (Playlist_uploadPoster plex_playlist (default "" (poster playlist)))
           (fun _ => log "Failed to update poster for playlist %s" [name playlist])
       else mret tt);;
      log "Updated playlist %s with summary and poster" [name playlist]
  | [] =>
      log ("No songs for playlist %s were found on plex, skipping the"
           +:+ " playlist creation") [name playlist]
  end.

(** The two [if ... and userInputs.write_missing_as_csv] blocks (lines
    207-226). *)
Definition record_missing (playlist : Playlist) (userInputs : UserInputs)
    (missing_tracks : list Track) : M unit :=
  (if match missing_tracks with [] => false | _ :: _ => true end
      && write_missing_as_csv userInputs then
     try_except
       (_write_csv missing_tracks (name playlist) "/data";;
        log "Missing tracks written to %s.csv" [name playlist])
       (fun _ =>
          log ("Failed to write missing tracks for %s, likely permission"
               +:+ " issue") [name playlist])
   else mret tt);;
  (if match missing_tracks with [] => true | _ :: _ => false end
      && write_missing_as_csv userInputs then
     try_except
       (_delete_csv (name playlist) "/data";;
        log "Deleted old %s.csv" [name playlist])
       (fun _ =>
          log "Failed to delete %s.csv, likely permission issue" [name playlist])
   else mret tt).

(** [update_or_create_plex_playlist] *)
Definition update_or_create_plex_playlist (fuel : nat) (plex : PlexServer)
    (playlist : Playlist) (tracks : list Track) (userInputs : UserInputs) : M unit :=
  '(available_tracks, missing_tracks) ←
    _get_available_plex_tracks fuel plex tracks userInputs;
  apply_playlist plex playlist userInputs available_tracks;;
  record_missing playlist userInputs missing_tracks.

(** ** Reading the events of a run *)

(** The search calls, oldest first: connection, query, media type, limit and
    what the call gave. *)
Definition search_calls (evs : list event)
    : list (PlexServer * string * string * nat * (exn + list PlexTrack)) :=
  omap (fun ev => match ev with
                  | EvSearch plex q mt lim r => Some (plex, q, mt, lim, r)
                  | _ => None
                  end) evs.

(** The connections opened, oldest first. *)
Definition connected (evs : list event) : list PlexServer :=
  omap (fun ev => match ev with
                  | EvConnect _ _ _ (inr plex) => Some plex
                  | _ => None
                  end) evs.

(** The searches that were answered, that is, that did not end in a
    reconnection: query, media type, limit, and the results or [None] for a
    bad request. *)
Definition answered (evs : list event)
    : list (string * string * nat * option (list PlexTrack)) :=
  omap (fun ev => match ev with
                  | EvSearch _ q mt lim (inr found) => Some (q, mt, lim, Some found)
                  | EvSearch _ q mt lim (inl e) =>
                      if is_BadRequest e then Some (q, mt, lim, None) else None
                  | _ => None
                  end) evs.

(** Calls that read or change the remote playlists. *)
Definition is_playlist_call (ev : event) : bool :=
  match ev with
  | EvPlaylist _ _ | EvItems _ | EvRemoveItems _ _ | EvAddItems _ _
  | EvCreatePlaylist _ _ _ | EvEdit _ _ | EvUploadPoster _ _ => true
  | _ => false
  end.

(** Calls on the file system. *)
Definition is_file_call (ev : event) : bool :=
  match ev with
  | EvMkdir _ | EvOpenW _ | EvWriteRow _ _ | EvClose _ | EvUnlink _ => true
  | _ => false
  end.

(** The connection a remote call goes through. *)
Definition connection_of (ev : event) : option PlexServer :=
  match ev with
  | EvSearch plex _ _ _ _ | EvPlaylist plex _ | EvCreatePlaylist plex _ _ => Some plex
  | EvItems pp | EvRemoveItems pp _ | EvAddItems pp _ | EvEdit pp _
  | EvUploadPoster pp _ => Some (pp_server pp)
  | _ => None
  end.

(** The connection [saveSearch] handed back last: the one of the last search
    call. *)
Definition last_search_connection (evs : list event) : option PlexServer :=
  (fun c => c.1.1.1.1) <$> last (search_calls evs).

(** The world apart from its clock. *)
Definition same_store (w w' : World) : Prop :=
  w_fault w' = w_fault w ∧ w_index w' = w_index w ∧
  w_playlists w' = w_playlists w ∧ w_files w' = w_files w.

(** No call raises from the current tick on unless the state makes it. *)
Definition calm_from (T : nat) (w : World) : Prop :=
  ∀ t, T ≤ t → w_fault w t = None.

(** Every exception the outside raises is of a class derived from
    [Exception]. *)
Definition ordinary_faults (w : World) : Prop :=
  ∀ t e, w_fault w t = Some e → is_Exception e = true.

(** The exceptions the guarded search lets through: the recursion depth is
    used up, or a search call raised a class not derived from [Exception]. *)
Definition search_escape (evs : list event) (e : exn) : Prop :=
  e = RecursionError ∨
  is_Exception e = false ∧ ∃ c, c ∈ search_calls evs ∧ c.2 = inl e.

(** The row [_write_csv] writes for a track. *)
Definition csv_row (track : Track) : list string :=
  [title track; artist track; album track; url track].

(** One classified input track: the descriptor and the track it resolved to,
    if any. *)
Definition resolved_of (cls : list (Track * option PlexTrack)) : list PlexTrack :=
  omap snd cls.

Definition missing_of (cls : list (Track * option PlexTrack)) : list Track :=
  omap (fun c => match c.2 with None => Some c.1 | Some _ => None end) cls.

(** Whether a search result is accepted for a track, when its artist and
    album can be read. *)
Definition accepts (track : Track) (s : PlexTrack) : bool :=
  match track_artist s with
  | inr a =>
      similar a (artist track)
      || match track_album s with
         | inr al => similar al (album track)
         | inl _ => false
         end
  | inl _ => false
  end.

(** Metadata whose reads raise nothing but [IndexError]. *)
Definition meta_ok (m : exn + string) : bool :=
  match m with
  | inl e => is_IndexError e
  | inr _ => true
  end.

(** Events that are neither playlist calls nor file-system calls. *)
Definition quiet (evs : list event) : Prop :=
  Forall (fun ev => is_playlist_call ev = false ∧ is_file_call ev = false) evs.

(** A search call made with the given query, media type and limit. *)
Definition asks (q mt : string) (lim : nat)
    (c : PlexServer * string * string * nat * (exn + list PlexTrack)) : Prop :=
  c.1.1.1.2 = q ∧ c.1.1.2 = mt ∧ c.1.2 = lim.

(** Events that are all log lines. *)
Definition only_logs (evs : list event) : Prop :=
  Forall (fun ev => match ev with EvLog _ _ => True | _ => False end) evs.

(** The log line of the [except IndexError] clause. *)
Definition mismatch_log (track : Track) : event :=
  EvLog ("Looks like plex mismatched the search for %s,"
         +:+ " retrying with next result") [title track].

(** Every playlist call among the events goes through [plex]. *)
Definition playlist_calls_via (plex : PlexServer) (evs : list event) : Prop :=
  Forall (fun ev => is_playlist_call ev = true → connection_of ev = Some plex) evs.

(** Whatever the world, the playlist calls of [m] go through [plex] and a
    value it returns satisfies [Q]. *)
Definition run_via {A} (plex : PlexServer) (m : M A) (Q : A → Prop) : Prop :=
  ∀ w, match m w with
       | (r, _, evs) => playlist_calls_via plex evs ∧ ∀ a, r = Ret a → Q a
       end.

(** Every answer of the search index has metadata whose reads raise nothing
    but [IndexError]. *)
Definition index_readable (w : World) : Prop :=
  ∀ t q mt lim,
    Forall (fun c => meta_ok (track_artist c) = true ∧ meta_ok (track_album c) = true)
      (w_index w t q mt lim).

(** The retry condition as the specification words it: the first query
    yielded zero candidates, a bad request counting as zero candidates, or the
    title contains a parenthesis. *)
Definition spec_retry (first : option (list PlexTrack)) (title : string) : bool :=
  match first with
  | None | Some [] => true
  | Some (_ :: _) => false
  end
  || Str.contains "(" title.

(** ** Reference notions for the further properties *)

(** How often [c] occurs in [b]. *)
Fixpoint occ (c : ascii) (b : list ascii) : nat :=
  match b with
  | [] => 0
  | x :: b' => (if Ascii.eqb x c then 1 else 0) + occ c b'
  end.

(** [b] without its first occurrence of [c]. *)
Fixpoint remove_one (c : ascii) (b : list ascii) : list ascii :=
  match b with
  | [] => []
  | x :: b' => if Ascii.eqb x c then b' else x :: remove_one c b'
  end.

(** The number of characters [a] and [b] share, counted with multiplicity:
    each character of [a] is paired with an occurrence in [b] not yet used. *)
Fixpoint common (a b : list ascii) : nat :=
  match a with
  | [] => 0
  | x :: a' =>
      match occ x b with
      | O => common a' b
      | S _ => S (common a' (remove_one x b))
      end
  end.

(** What [quick_ratio] has left of a character: the entry of [avail], or
    the count in [b] when the character was not met yet. *)
Definition left_of (full avail : gmap ascii Z) (c : ascii) : Z :=
  match avail !! c with
  | Some n => n
  | None => default 0%Z (full !! c)
  end.

(** The search string of the relaxed query (line 92). *)
Definition relaxed (title : string) : string := Str.item0 (Str.split "(" title).



(** In whatever world [m] runs, every event it produces satisfies [P] and a
    value it returns satisfies [Q]. *)
Definition run_all {A} (P : event → Prop) (m : M A) (Q : A → Prop) : Prop :=
  ∀ w, match m w with
       | (r, _, evs) => Forall P evs ∧ ∀ a, r = Ret a → Q a
       end.

(** What a playlist call of a pass over [playlist] may be, when the resolved
    tracks are [available]: it is about the playlist of that name; items are
    removed under the sync policy only; the items added or created with are
    the resolved tracks; the summary is set to the description, and only when
    [add_playlist_description] is on; the poster likewise. *)
Definition playlist_call_ok (playlist : Playlist) (userInputs : UserInputs)
    (available : list PlexTrack) (ev : event) : Prop :=
  match ev with
  | EvPlaylist _ t => t = name playlist
  | EvItems pp => pp_title pp = name playlist ∧ append_instead_of_sync userInputs = false
  | EvRemoveItems pp _ =>
      pp_title pp = name playlist ∧ append_instead_of_sync userInputs = false
  | EvAddItems pp items => pp_title pp = name playlist ∧ items = available
  | EvCreatePlaylist _ t items => t = name playlist ∧ items = available
  | EvEdit pp summary =>
      pp_title pp = name playlist ∧ description playlist = Some summary ∧
      add_playlist_description userInputs = true
  | EvUploadPoster pp url =>
      pp_title pp = name playlist ∧ poster playlist = Some url ∧
      add_playlist_poster userInputs = true
  | _ => True
  end.

(** [m] leaves the part [f] of the world as it is, in whatever world it
    runs and however it ends. *)
Definition keeps {A X} (f : World → X) (m : M A) : Prop :=
  ∀ w, f (m w).1.2 = f w.

(** A part of the world that does not depend on the clock. *)
Definition timeless {X} (f : World → X) : Prop := ∀ w, f (advance w) = f w.

(** The entries whose rating key an earlier entry has too; [seen] holds the
    keys met so far. These are the entries that removing the items of a
    playlist from the playlist itself leaves. *)
Fixpoint repeats (seen : list N) (entries : list PlexTrack) : list PlexTrack :=
  match entries with
  | [] => []
  | t :: entries' =>
      if existsb (N.eqb (ratingKey t)) seen then t :: repeats seen entries'
      else repeats (ratingKey t :: seen) entries'
  end.

Definition is_edit (ev : event) : bool :=
  match ev with EvEdit _ _ => true | _ => false end.

Definition is_upload (ev : event) : bool :=
  match ev with EvUploadPoster _ _ => true | _ => false end.

(** The search index answers a query the same way at every tick. *)
Definition stable_index (w : World) : Prop :=
  ∀ t t' q mt lim, w_index w t q mt lim = w_index w t' q mt lim.

(** The world [n] ticks later, with nothing else changed. *)
Definition later (n : nat) (w : World) : World := Nat.iter n advance w.

(** The candidates the answered searches of a run gave, in order. *)
Definition candidates_of (evs : list event) : list PlexTrack :=
  concat (map (fun a : string * string * nat * option (list PlexTrack) =>
                 default [] a.2) (answered evs)).

(** A search call for one of the two queries of [track], with media type
    "track" and limit 5. *)
Definition asks_for (track : Track)
    (c : PlexServer * string * string * nat * (exn + list PlexTrack)) : Prop :=
  (c.1.1.1.2 = title track ∨ c.1.1.1.2 = relaxed (title track)) ∧
  c.1.1.2 = "track" ∧ c.1.2 = 5.

(** ** Concrete inputs *)

Module Demo.

Definition ui : UserInputs :=
  {| plex_url := "http://plex:32400"; plex_token := "token";
     append_instead_of_sync := false;
     add_playlist_description := true; add_playlist_poster := true;
     write_missing_as_csv := true |}.

Definition ui_append : UserInputs :=
  {| plex_url := "http://plex:32400"; plex_token := "token";
     append_instead_of_sync := true;
     add_playlist_description := true; add_playlist_poster := true;
     write_missing_as_csv := true |}.

Definition plex0 : PlexServer := {| srv_id := 100 |}.

Definition t_song : Track :=
  {| title := "Song (feat. X)"; artist := "Queen"; album := "Jazz";
     url := "https://music.example/1" |}.

Definition t_plain : Track :=
  {| title := "Plain"; artist := "Abba"; album := "Arrival";
     url := "https://music.example/2" |}.

Definition t_intro : Track :=
  {| title := "(Intro) Song"; artist := "Queen"; album := "Jazz";
     url := "https://music.example/3" |}.

Definition c_queen : PlexTrack :=
  {| ratingKey := 1; track_artist := inr "queen"; track_album := inr "Live" |}.

Definition c_jazz : PlexTrack :=
  {| ratingKey := 2; track_artist := inr "Various"; track_album := inr "JAZZ" |}.

Definition c_other : PlexTrack :=
  {| ratingKey := 3; track_artist := inr "Nobody"; track_album := inr "Nothing" |}.

Definition c_broken : PlexTrack :=
  {| ratingKey := 4; track_artist := inl IndexError; track_album := inr "Jazz" |}.

Definition c_gone : PlexTrack :=
  {| ratingKey := 5; track_artist := inl NotFound; track_album := inr "Jazz" |}.

Definition c_old : PlexTrack :=
  {| ratingKey := 9; track_artist := inr "Old"; track_album := inr "Older" |}.

Definition p_mix : Playlist :=
  {| name := "Mix"; description := Some "My mix"; poster := None |}.

(** Answers [results] to the query [q] and nothing to any other. *)
Definition index_for (q : string) (results : list PlexTrack)
    : nat → string → string → nat → list PlexTrack :=
  fun _ query _ limit => if String.eqb query q then take limit results else [].

Definition stored : gmap string RemotePlaylist :=
  {[ "Mix" := {| pl_items := [c_old]; pl_summary := None; pl_poster := None |} ]}.

(** The server is up and holds the playlist "Mix". *)
Definition w_up (results : list PlexTrack) : World :=
  {| w_clock := 0; w_fault := fun _ => None;
     w_index := index_for "Song " results;
     w_playlists := stored; w_files := ∅ |}.

(** The call at tick 0 raises [e]; afterwards the server is up. *)
Definition w_fail (e : exn) (results : list PlexTrack) : World :=
  {| w_clock := 0; w_fault := fun t => if t =? 0 then Some e else None;
     w_index := index_for "Song " results;
     w_playlists := stored; w_files := ∅ |}.

(** A world whose data folder holds an older record for "Mix". *)
Definition w_recorded (results : list PlexTrack) : World :=
  {| w_clock := 0; w_fault := fun _ => None;
     w_index := index_for "Song " results;
     w_playlists := stored;
     w_files := {[ "/data/Mix.csv" := [Track_annotations; csv_row t_plain] ]} |}.

End Demo.



(** The server is up throughout and its search index does not change. *)
Definition steady (w : World) : Prop := calm_from 0 w ∧ stable_index w.

(** What the two searches for a title give on a steady server whose index
    answers [idx]. *)
Definition steady_search (idx : string → list PlexTrack) (title : string)
    : option (list PlexTrack) :=
  if wants_retry (Some (idx title)) title
  then Some (idx title ++ idx (relaxed title))
  else Some (idx title).

(** ** Further concrete inputs *)

Module Probe.

(** The policy of [Demo.ui] with the missing-tracks record switched off. *)
Definition ui_off : UserInputs :=
  {| plex_url := "http://plex:32400"; plex_token := "token";
     append_instead_of_sync := false;
     add_playlist_description := true; add_playlist_poster := true;
     write_missing_as_csv := false |}.

Definition p_new : Playlist :=
  {| name := "Fresh"; description := Some "Just made";
     poster := Some "https://img.example/p.png" |}.


(** The server is up, except that the call at tick [t0] raises [e]. *)
Definition w_fail_at (t0 : nat) (e : exn) (results : list PlexTrack) : World :=
  {| w_clock := 0; w_fault := fun t => if t =? t0 then Some e else None;
     w_index := Demo.index_for "Song " results;
     w_playlists := Demo.stored; w_files := ∅ |}.

End Probe.

(** * Properties *)

(** ** Strings *)

Example split_feat : Str.split "(" "Song (feat. X)" = ["Song "; "feat. X)"].
Proof. reflexivity. Qed.

Example split_plain : Str.split "(" "Song" = ["Song"].
Proof. reflexivity. Qed.

Example split_leading : Str.split "(" "(Intro) Song" = [""; "Intro) Song"].
Proof. reflexivity. Qed.

Example ratio_same : Difflib.quick_ratio "abba" "abba" = (8 # 8)%Q.
Proof. vm_compute. reflexivity. Qed.

Example ratio_close :
  Qle_bool (9 # 10) (Difflib.quick_ratio "the beatles" "the beetles") = true.
Proof. vm_compute. reflexivity. Qed.

Example ratio_far :
  Qle_bool (9 # 10) (Difflib.quick_ratio "queen" "abba") = false.
Proof. vm_compute. reflexivity. Qed.

Example lower_mixed : Str.lower "The BEATLES (Live)" = "the beatles (live)".
Proof. reflexivity. Qed.


Lemma split_cons sep s : ∃ piece pieces, Str.split sep s = piece :: pieces.
Proof.
  destruct s as [|c rest]; simpl; [eauto|].
  destruct (Ascii.eqb c sep); [eauto|].
  destruct (Str.split sep rest); eauto.
Qed.

Lemma split_item0 sep s : Str.item0 (Str.split sep s) = Str.before sep s.
Proof.
  induction s as [|c rest IH]; simpl; [done|].
  destruct (Ascii.eqb c sep); [done|].
  destruct (split_cons sep rest) as (piece & pieces & Hs).
  rewrite Hs in IH |- *. simpl in *. by rewrite IH.
Qed.

Lemma split_length sep s :
  (1 <? length (Str.split sep s)) = Str.contains sep s.
Proof.
  induction s as [|c rest IH]; simpl; [done|].
  destruct (split_cons sep rest) as (piece & pieces & Hs).
  destruct (Ascii.eqb c sep); simpl.
  - by rewrite Hs.
  - rewrite Hs in IH |- *. exact IH.
Qed.

Lemma before_leading sep rest : Str.before sep (String sep rest) = "".
Proof. simpl. by rewrite Ascii.eqb_refl. Qed.

Lemma contains_leading sep rest : Str.contains sep (String sep rest) = true.
Proof. simpl. by rewrite Ascii.eqb_refl. Qed.

Lemma similar_ge a b :
  similar a b = true ↔ (9 # 10 <= Difflib.quick_ratio (Str.lower a) (Str.lower b))%Q.
Proof. unfold similar. apply Qle_bool_iff. Qed.

Lemma similar_lt a b :
  similar a b = false ↔ (Difflib.quick_ratio (Str.lower a) (Str.lower b) < 9 # 10)%Q.
Proof.
  split.
  - intros H. apply Qnot_le_lt. intros Hle. apply similar_ge in Hle. congruence.
  - intros H. destruct (similar a b) eqn:Hs; [|done].
    apply similar_ge in Hs. by apply Qle_not_lt in Hs.
Qed.

(** ** Running computations *)

Lemma run_bind {A B} (m : M A) (k : A → M B) w :
  (m ≫= k) w =
  match m w with
  | (Ret a, w1, evs1) => match k a w1 with (r, w2, evs2) => (r, w2, evs1 ++ evs2) end
  | (Raise e, w1, evs1) => (Raise e, w1, evs1)
  | (Diverge, w1, evs1) => (Diverge, w1, evs1)
  end.
Proof. reflexivity. Qed.

Lemma run_ret {A} (a : A) w : (mret a : M A) w = (Ret a, w, []).
Proof. reflexivity. Qed.

Lemma run_try {A} (m : M A) (h : exn → M A) w :
  try_except m h w =
  match m w with
  | (Raise e, w1, evs1) => match h e w1 with (r, w2, evs2) => (r, w2, evs1 ++ evs2) end
  | other => other
  end.
Proof. reflexivity. Qed.

Lemma run_log {B} fmt args (k : unit → M B) w :
  (log fmt args ≫= k) w = match k tt w with (r, w2, evs2) => (r, w2, EvLog fmt args :: evs2) end.
Proof. reflexivity. Qed.

Lemma same_store_refl w : same_store w w.
Proof. by repeat split. Qed.

Lemma same_store_trans w1 w2 w3 : same_store w1 w2 → same_store w2 w3 → same_store w1 w3.
Proof. unfold same_store. intros (?&?&?&?) (?&?&?&?). repeat split; congruence. Qed.

Lemma same_store_advance w : same_store w (advance w).
Proof. by repeat split. Qed.

Lemma search_calls_app evs1 evs2 :
  search_calls (evs1 ++ evs2) = search_calls evs1 ++ search_calls evs2.
Proof. apply omap_app. Qed.

Lemma connected_app evs1 evs2 : connected (evs1 ++ evs2) = connected evs1 ++ connected evs2.
Proof. apply omap_app. Qed.

Lemma answered_app evs1 evs2 : answered (evs1 ++ evs2) = answered evs1 ++ answered evs2.
Proof. apply omap_app. Qed.

(** ** The connection loop and the guarded search *)

Lemma createPlexServer_S fuel userInputs w :
  createPlexServer (S fuel) userInputs w =
  match w_fault w (w_clock w) with
  | None =>
      let plex := {| srv_id := w_clock w |} in
      (Ret plex, advance w,
       [EvLog "Try to create a new plex server object" [];
        EvConnect (plex_url userInputs) (plex_token userInputs) 90 (inr plex)])
  | Some e =>
      match createPlexServer fuel userInputs (advance w) with
      | (r, w2, evs2) =>
          (r, w2,
           [EvLog "Try to create a new plex server object" [];
            EvConnect (plex_url userInputs) (plex_token userInputs) 90 (inl e);
            EvLog "Error while creating. waiting for 5sek and try again" [];
            EvSleep 5] ++ evs2)
      end
  end.
Proof.
  cbn [createPlexServer]. rewrite run_try, run_log.
  unfold PlexServer_new.
  destruct (w_fault w (w_clock w)) as [e|]; [|done].
  rewrite run_log. unfold sleep at 1. rewrite run_bind. cbn [emit].
  destruct (createPlexServer fuel userInputs (advance w)) as [[r w2] evs2].
  reflexivity.
Qed.

Lemma saveSearch_S fuel userInputs plex q mt lim w :
  saveSearch (S fuel) userInputs plex q mt lim w =
  match w_fault w (w_clock w) with
  | None =>
      let found := w_index w (w_clock w) q mt lim in
      (Ret (plex, Some found), advance w, [EvSearch plex q mt lim (inr found)])
  | Some e =>
      if is_BadRequest e then
        (Ret (plex, None), advance w,
         [EvSearch plex q mt lim (inl e); EvLog "failed to search %s on plex" [q]])
      else if is_Exception e then
        match createPlexServer fuel userInputs (advance w) with
        | (Ret plex', w1, evs1) =>
            match saveSearch fuel userInputs plex' q mt lim w1 with
            | (r, w2, evs2) =>
                (r, w2,
                 [EvSearch plex q mt lim (inl e);
                  EvLog "exception while searching for %s " [q]] ++ evs1 ++ evs2)
            end
        | (Raise e', w1, evs1) =>
            (Raise e', w1,
             [EvSearch plex q mt lim (inl e);
              EvLog "exception while searching for %s " [q]] ++ evs1)
        | (Diverge, w1, evs1) =>
            (Diverge, w1,
             [EvSearch plex q mt lim (inl e);
              EvLog "exception while searching for %s " [q]] ++ evs1)
        end
      else (Raise e, advance w, [EvSearch plex q mt lim (inl e)])
  end.
Proof.
  cbn [saveSearch]. rewrite run_try, run_bind.
  unfold PlexServer_search.
  destruct (w_fault w (w_clock w)) as [e|]; [|done].
  destruct (is_BadRequest e); [done|].
  destruct (is_Exception e); [|done].
  rewrite run_log, run_bind.
  destruct (createPlexServer fuel userInputs (advance w)) as [[[plex'|e'|] w1] evs1];
    [|done..].
  destruct (saveSearch fuel userInputs plex' q mt lim w1) as [[r w2] evs2].
  reflexivity.
Qed.

Lemma quiet_app evs1 evs2 : quiet evs1 → quiet evs2 → quiet (evs1 ++ evs2).
Proof. unfold quiet. intros. by apply Forall_app. Qed.

Lemma search_escape_app_l evs1 evs2 e :
  search_escape evs1 e → search_escape (evs1 ++ evs2) e.
Proof.
  intros [->|(Hne & c & Hin & Hc)]; [by left|right].
  split; [done|]. exists c. rewrite search_calls_app. set_solver.
Qed.

Lemma search_escape_app_r evs1 evs2 e :
  search_escape evs2 e → search_escape (evs1 ++ evs2) e.
Proof.
  intros [->|(Hne & c & Hin & Hc)]; [by left|right].
  split; [done|]. exists c. rewrite search_calls_app. set_solver.
Qed.

Lemma createPlexServer_spec fuel userInputs w :
  match createPlexServer fuel userInputs w with
  | (r, w', evs) =>
      same_store w w' ∧ w_clock w ≤ w_clock w' ∧ search_calls evs = [] ∧ quiet evs ∧
      match r with
      | Ret plex => connected evs = [plex] ∧ w_clock w < w_clock w'
      | Raise e => e = RecursionError
      | Diverge => False
      end
  end.
Proof.
  revert w. induction fuel as [|fuel IH]; intros w.
  - cbn. repeat split; auto using same_store_refl. constructor.
  - rewrite createPlexServer_S.
    destruct (w_fault w (w_clock w)) as [e|].
    + specialize (IH (advance w)).
      destruct (createPlexServer fuel userInputs (advance w)) as [[r w2] evs2].
      destruct IH as (Hs & Hc & Hq & Hquiet & Hr).
      split; [eauto using same_store_trans, same_store_advance|].
      split; [cbn in Hc; lia|].
      split; [by rewrite search_calls_app, Hq|].
      split; [apply quiet_app; [repeat constructor|done]|].
      destruct r as [plex|e'|]; [|done..].
      destruct Hr as [Hconn Hlt]. rewrite connected_app, Hconn.
      split; [done|]. cbn in Hlt. lia.
    + cbn. repeat split; auto; try lia. repeat constructor.
Qed.

Lemma saveSearch_spec fuel userInputs plex q mt lim w :
  match saveSearch fuel userInputs plex q mt lim w with
  | (r, w', evs) =>
      same_store w w' ∧ w_clock w ≤ w_clock w' ∧ quiet evs ∧
      Forall (asks q mt lim) (search_calls evs) ∧
      match r with
      | Ret (plex', found) =>
          w_clock w < w_clock w' ∧
          answered evs = [(q, mt, lim, found)] ∧
          ∃ failed final,
            search_calls evs =
              map (fun pe => (pe.1, q, mt, lim, inl pe.2)) failed
              ++ [(plex', q, mt, lim, final)] ∧
            Forall (fun pe : PlexServer * exn => is_BadRequest pe.2 = false) failed ∧
            map fst failed ++ [plex'] = plex :: connected evs ∧
            match found with
            | Some results => final = inr results
            | None => ∃ e, final = inl e ∧ is_BadRequest e = true
            end
      | Raise e => search_escape evs e
      | Diverge => False
      end
  end.
Proof.
  revert plex w. induction fuel as [|fuel IH]; intros plex w.
  - cbn. split; [apply same_store_refl|]. split; [done|].
    split; [constructor|]. split; [constructor|]. by left.
  - rewrite saveSearch_S.
    destruct (w_fault w (w_clock w)) as [e|].
    + destruct (is_BadRequest e) eqn:Hbad.
      * split; [apply same_store_advance|]. split; [cbn; lia|].
        split; [repeat constructor|]. split; [by repeat constructor|].
        split; [cbn; lia|]. split; [cbn; by rewrite Hbad|].
        exists [], (inl e). cbn. repeat split; eauto.
      * destruct (is_Exception e) eqn:Hexc; cycle 1.
        { split; [apply same_store_advance|]. split; [cbn; lia|].
          split; [repeat constructor|]. split; [by repeat constructor|].
          right. split; [done|]. exists (plex, q, mt, lim, inl e). cbn. set_solver. }
        pose proof (createPlexServer_spec fuel userInputs (advance w)) as Hc.
        destruct (createPlexServer fuel userInputs (advance w)) as [[[plex'|e'|] w1] evs1].
        -- destruct Hc as (Hs1 & Hc1 & Hq1 & Hquiet1 & Hconn & Hlt).
           specialize (IH plex' w1).
           destruct (saveSearch fuel userInputs plex' q mt lim w1) as [[r w2] evs2].
           destruct IH as (Hs2 & Hc2 & Hquiet2 & Hasks & Hr).
           split; [eauto using same_store_trans, same_store_advance|].
           split; [cbn in Hc1; lia|].
           split; [apply quiet_app; [repeat constructor|by apply quiet_app]|].
           split.
           { rewrite !search_calls_app, Hq1. cbn. by constructor. }
           destruct r as [[plex'' found]|e''|]; [| |done].
           2:{ apply (search_escape_app_r [_; _]), search_escape_app_r, Hr. }
           destruct Hr as (Hlt2 & Hans & failed & final & Hcalls & Hfailed & Hchain & Hfinal).
           split; [cbn in Hc1; lia|].
           split.
           { rewrite !answered_app, Hans. cbn. rewrite Hbad.
             assert (answered evs1 = []) as ->; [|done].
             clear -Hq1. induction evs1 as [|ev evs1 IH']; [done|].
             destruct ev; cbn in *; try done; auto. }
           exists ((plex, e) :: failed), final.
           split; [rewrite !search_calls_app, Hq1, Hcalls; done|].
           split; [by constructor|].
           split; [|done].
           rewrite !connected_app, Hconn. cbn. f_equal. exact Hchain.
        -- destruct Hc as (Hs1 & Hc1 & Hq1 & Hquiet1 & ->).
           split; [eauto using same_store_trans, same_store_advance|].
           split; [cbn in Hc1; lia|].
           split; [apply quiet_app; [repeat constructor|done]|].
           split; [|by left].
           rewrite search_calls_app, Hq1. cbn. by repeat constructor.
        -- by destruct Hc as (_ & _ & _ & _ & []).
    + split; [apply same_store_advance|]. split; [cbn; lia|].
      split; [repeat constructor|]. split; [by repeat constructor|].
      split; [cbn; lia|]. split; [done|].
      exists [], (inr (w_index w (w_clock w) q mt lim)). cbn. repeat split; eauto.
Qed.

Lemma calm_from_store T w w' : same_store w w' → calm_from T w → calm_from T w'.
Proof. intros (Hf & _) Hcalm t Ht. rewrite Hf. by apply Hcalm. Qed.

Lemma createPlexServer_returns T fuel userInputs w :
  calm_from T w → T < fuel + w_clock w → 0 < fuel →
  ∃ plex w' evs, createPlexServer fuel userInputs w = (Ret plex, w', evs).
Proof.
  revert w. induction fuel as [|fuel IH]; intros w Hcalm HT Hfuel; [lia|].
  rewrite createPlexServer_S.
  destruct (w_fault w (w_clock w)) as [e|] eqn:Hfault; [|eauto].
  assert (w_clock w < T) as Hlt.
  { destruct (decide (T ≤ w_clock w)) as [Hle|]; [|lia].
    rewrite (Hcalm _ Hle) in Hfault. done. }
  destruct (IH (advance w)) as (plex & w' & evs & Hrun).
  - eapply calm_from_store; [apply same_store_advance|done].
  - cbn. lia.
  - lia.
  - rewrite Hrun. eauto.
Qed.

Lemma ordinary_faults_store w w' : same_store w w' → ordinary_faults w → ordinary_faults w'.
Proof. intros (Hf & _) Hord t e. rewrite Hf. apply Hord. Qed.

Lemma saveSearch_returns T fuel userInputs plex q mt lim w :
  calm_from T w → ordinary_faults w → T < fuel + w_clock w → 0 < fuel →
  ∃ plex' found w' evs,
    saveSearch fuel userInputs plex q mt lim w = (Ret (plex', found), w', evs).
Proof.
  revert plex w. induction fuel as [|fuel IH]; intros plex w Hcalm Hord HT Hfuel; [lia|].
  rewrite saveSearch_S.
  destruct (w_fault w (w_clock w)) as [e|] eqn:Hfault; [|eauto].
  destruct (is_BadRequest e); [eauto|].
  rewrite (Hord _ _ Hfault).
  assert (w_clock w < T) as Hlt.
  { destruct (decide (T ≤ w_clock w)) as [Hle|]; [|lia].
    rewrite (Hcalm _ Hle) in Hfault. done. }
  destruct (createPlexServer_returns T fuel userInputs (advance w))
    as (plex' & w1 & evs1 & Hrun).
  - eapply calm_from_store; [apply same_store_advance|done].
  - cbn. lia.
  - lia.
  - pose proof (createPlexServer_spec fuel userInputs (advance w)) as Hspec.
    rewrite Hrun in Hspec |- *. destruct Hspec as (Hs & _ & _ & _ & _ & Hclock).
    cbn in Hclock.
    destruct (IH plex' w1) as (plex'' & found & w2 & evs2 & Hrun2).
    + eapply calm_from_store; [|done].
      eapply same_store_trans; [apply same_store_advance|done].
    + eapply ordinary_faults_store; [|done].
      eapply same_store_trans; [apply same_store_advance|done].
    + lia.
    + lia.
    + rewrite Hrun2. eauto.
Qed.




Lemma saveSearch_first_call fuel userInputs plex q mt lim w :
  ∃ r rest, (saveSearch (S fuel) userInputs plex q mt lim w).2
            = EvSearch plex q mt lim r :: rest.
Proof.
  rewrite saveSearch_S.
  destruct (w_fault w (w_clock w)) as [e|]; [|by eexists _, _].
  destruct (is_BadRequest e); [by eexists _, _|].
  destruct (is_Exception e); [|by eexists _, _].
  destruct (createPlexServer fuel userInputs (advance w)) as [[[plex'|e'|] w1] evs1];
    [|by eexists _, _..].
  destruct (saveSearch fuel userInputs plex' q mt lim w1) as [[r w2] evs2].
  by eexists _, _.
Qed.

(** ** Matching the candidates of one track *)

Lemma only_logs_quiet evs : only_logs evs → quiet evs.
Proof. intros H. eapply Forall_impl; [exact H|]. by intros []. Qed.

Lemma match_candidates_cons track s rest plex_tracks w :
  match_candidates track (s :: rest) plex_tracks w =
  let skip :=
    match match_candidates track rest plex_tracks w with
    | (r, w', evs) => (r, w', mismatch_log track :: evs)
    end in
  match track_artist s with
  | inl e => if is_IndexError e then skip else (Raise e, w, [])
  | inr a =>
      if similar a (artist track) then (Ret (plex_tracks ++ [s], true), w, [])
      else
        match track_album s with
        | inl e => if is_IndexError e then skip else (Raise e, w, [])
        | inr al =>
            if similar al (album track) then (Ret (plex_tracks ++ [s], true), w, [])
            else match_candidates track rest plex_tracks w
        end
  end.
Proof.
  cbn [match_candidates]. rewrite run_bind, run_try. unfold try_candidate.
  rewrite run_bind. unfold read_meta at 1. fold (mismatch_log track).
  destruct (track_artist s) as [e|a]; cbn -[match_candidates mismatch_log].
  - destruct (is_IndexError e); [|done]. unfold mismatch_log at 1. rewrite run_log.
    cbn -[match_candidates mismatch_log String.app]. fold (mismatch_log track).
    by destruct (match_candidates track rest plex_tracks w) as [[r w'] evs].
  - destruct (similar a (artist track)); [done|].
    rewrite run_bind. unfold read_meta.
    destruct (track_album s) as [e|al]; cbn -[match_candidates mismatch_log].
    + destruct (is_IndexError e); [|done]. unfold mismatch_log at 1. rewrite run_log.
      cbn -[match_candidates mismatch_log String.app]. fold (mismatch_log track).
      by destruct (match_candidates track rest plex_tracks w) as [[r w'] evs].
    + destruct (similar al (album track)); [done|].
      cbn -[match_candidates mismatch_log].
      by destruct (match_candidates track rest plex_tracks w) as [[r w'] evs].
Qed.

Lemma match_candidates_spec track search plex_tracks w :
  match match_candidates track search plex_tracks w with
  | (r, w', evs) =>
      w' = w ∧ only_logs evs ∧
      match r with
      | Ret (plex_tracks', found) =>
          if found : bool then ∃ s, s ∈ search ∧ plex_tracks' = plex_tracks ++ [s]
          else plex_tracks' = plex_tracks
      | Raise e =>
          is_IndexError e = false ∧
          ∃ s, s ∈ search ∧ (track_artist s = inl e ∨ track_album s = inl e)
      | Diverge => False
      end
  end.
Proof.
  induction search as [|s rest IH].
  - cbn. repeat split; constructor.
  - rewrite match_candidates_cons. cbn zeta.
    destruct (match_candidates track rest plex_tracks w) as [[r w'] evs].
    destruct IH as (-> & Hlogs & Hr).
    assert (match r with
            | Ret (plex_tracks', found) =>
                if found : bool
                then ∃ s0, s0 ∈ s :: rest ∧ plex_tracks' = plex_tracks ++ [s0]
                else plex_tracks' = plex_tracks
            | Raise e =>
                is_IndexError e = false ∧
                ∃ s0, s0 ∈ s :: rest ∧ (track_artist s0 = inl e ∨ track_album s0 = inl e)
            | Diverge => False
            end) as Hr'.
    { destruct r as [[pt' [|]]|e|]; [| |destruct Hr as (? & s0 & ? & ?)|];
        [destruct Hr as (s0 & ? & ?)|..]; try done;
        repeat split; eauto using list_elem_of_further. }
    assert (only_logs (mismatch_log track :: evs)) as Hlogs' by by constructor.
    assert (s ∈ s :: rest) as Hin by apply list_elem_of_here.
    destruct (track_artist s) as [e|a] eqn:Ha.
    + destruct (is_IndexError e) eqn:He; [done|].
      repeat split; eauto. constructor.
    + destruct (similar a (artist track)).
      { repeat split; eauto. constructor. }
      destruct (track_album s) as [e|al] eqn:Hal.
      * destruct (is_IndexError e) eqn:He; [done|].
        repeat split; eauto. constructor.
      * destruct (similar al (album track)); [|done].
        repeat split; eauto. constructor.
Qed.

(** ** The searches for one track *)

Lemma search_track_eq fuel userInputs plex track w :
  search_track fuel userInputs plex track w =
  match saveSearch fuel userInputs plex (title track) "track" 5 w with
  | (Ret (plex1, search), w1, evs1) =>
      if wants_retry search (title track) then
        let retrying := EvLog "retrying search for %s" [title track] in
        match saveSearch fuel userInputs plex1
                (Str.item0 (Str.split "(" (title track))) "track" 5 w1 with
        | (Ret (plex2, searchNew), w2, evs2) =>
            (Ret (plex2, match searchNew with
                         | Some more => Some (default [] search ++ more)
                         | None => search
                         end), w2, evs1 ++ retrying :: evs2)
        | (Raise e, w2, evs2) => (Raise e, w2, evs1 ++ retrying :: evs2)
        | (Diverge, w2, evs2) => (Diverge, w2, evs1 ++ retrying :: evs2)
        end
      else (Ret (plex1, search), w1, evs1)
  | (Raise e, w1, evs1) => (Raise e, w1, evs1)
  | (Diverge, w1, evs1) => (Diverge, w1, evs1)
  end.
Proof.
  unfold search_track. rewrite run_bind.
  destruct (saveSearch fuel userInputs plex (title track) "track" 5 w)
    as [[[[plex1 search]|e|] w1] evs1]; [|done..].
  destruct (wants_retry search (title track)); [|by rewrite run_ret, app_nil_r].
  rewrite run_log, run_bind. cbn zeta.
  destruct (saveSearch fuel userInputs plex1 _ "track" 5 w1)
    as [[[[plex2 searchNew]|e|] w2] evs2]; [|done..].
  destruct searchNew; rewrite run_ret; by rewrite app_nil_r.
Qed.

Lemma search_track_spec fuel userInputs plex track w :
  match search_track fuel userInputs plex track w with
  | (r, w', evs) =>
      same_store w w' ∧ w_clock w ≤ w_clock w' ∧ quiet evs ∧
      match r with
      | Ret _ => True
      | Raise e => search_escape evs e
      | Diverge => False
      end
  end.
Proof.
  rewrite search_track_eq.
  pose proof (saveSearch_spec fuel userInputs plex (title track) "track" 5 w) as H1.
  destruct (saveSearch fuel userInputs plex (title track) "track" 5 w)
    as [[[[plex1 search]|e|] w1] evs1];
    destruct H1 as (Hs1 & Hc1 & Hq1 & _ & Hr1); [|done..].
  destruct (wants_retry search (title track)); [|done]. cbn zeta.
  pose proof (saveSearch_spec fuel userInputs plex1
                (Str.item0 (Str.split "(" (title track))) "track" 5 w1) as H2.
  destruct (saveSearch fuel userInputs plex1 _ "track" 5 w1)
    as [[[[plex2 searchNew]|e|] w2] evs2];
    destruct H2 as (Hs2 & Hc2 & Hq2 & _ & Hr2); [| |done];
    (split; [eauto using same_store_trans|]); (split; [lia|]);
    (split; [apply quiet_app; [done|]; by constructor|]); [done|].
  apply search_escape_app_r, (search_escape_app_r [_]), Hr2.
Qed.

Lemma search_track_queries fuel userInputs plex track w plex' search w' evs :
  search_track fuel userInputs plex track w = (Ret (plex', search), w', evs) →
  ∃ first,
    (answered evs = [(title track, "track", 5, first)] ∧ search = first ∧
     (first = None ∨
      ∃ results, first = Some results ∧ results ≠ [] ∧
                 Str.contains "(" (title track) = false))
    ∨
    (∃ results second,
       first = Some results ∧
       (results = [] ∨ Str.contains "(" (title track) = true) ∧
       answered evs = [(title track, "track", 5, Some results);
                       (Str.before "(" (title track), "track", 5, second)] ∧
       search = Some (results ++ default [] second)).
Proof.
  intros Hrun. rewrite search_track_eq in Hrun.
  pose proof (saveSearch_spec fuel userInputs plex (title track) "track" 5 w) as H1.
  destruct (saveSearch fuel userInputs plex (title track) "track" 5 w)
    as [[[[plex1 first]|e|] w1] evs1]; [|done..].
  destruct H1 as (_ & _ & _ & _ & _ & Hans1 & _).
  exists first.
  destruct (wants_retry first (title track)) eqn:Hretry.
  - cbn zeta in Hrun. rewrite split_item0 in Hrun.
    pose proof (saveSearch_spec fuel userInputs plex1
                  (Str.before "(" (title track)) "track" 5 w1) as H2.
    destruct (saveSearch fuel userInputs plex1 _ "track" 5 w1)
      as [[[[plex2 second]|e|] w2] evs2]; [|done..].
    destruct H2 as (_ & _ & _ & _ & _ & Hans2 & _).
    injection Hrun as <- <- <- <-. right.
    unfold wants_retry in Hretry. destruct first as [results|]; [|done].
    rewrite split_length in Hretry.
    exists results, second. split; [done|]. split.
    { destruct results; [by left|]. right. exact Hretry. }
    split.
    { rewrite answered_app, Hans1.
      change (answered (EvLog ?f ?a :: evs2)) with (answered evs2).
      by rewrite Hans2. }
    destruct second; cbn; [done|]. by rewrite app_nil_r.
  - injection Hrun as <- <- <- <-. left. split; [done|]. split; [done|].
    unfold wants_retry in Hretry. destruct first as [results|]; [|by left].
    rewrite split_length in Hretry. right. exists results.
    apply orb_false_elim in Hretry as [Hne Hc].
    split; [done|]. split; [|done]. by destruct results.
Qed.

(** ** The resolution loop *)

Lemma classified_length cls :
  length (resolved_of cls) + length (missing_of cls) = length cls.
Proof.
  unfold resolved_of, missing_of, omap.
  induction cls as [|[track [s|]] cls IH]; simpl in *; lia.
Qed.

Lemma resolved_of_app cls1 cls2 :
  resolved_of (cls1 ++ cls2) = resolved_of cls1 ++ resolved_of cls2.
Proof. apply omap_app. Qed.

Lemma missing_of_app cls1 cls2 :
  missing_of (cls1 ++ cls2) = missing_of cls1 ++ missing_of cls2.
Proof. apply omap_app. Qed.

Lemma resolve_track_spec fuel userInputs track plex plex_tracks missing_tracks w :
  match resolve_track fuel userInputs track (plex, plex_tracks, missing_tracks) w with
  | (r, w', evs) =>
      same_store w w' ∧ w_clock w ≤ w_clock w' ∧ quiet evs ∧
      match r with
      | Ret (plex', plex_tracks', missing_tracks') =>
          ∃ o : option PlexTrack,
            plex_tracks' = plex_tracks ++ resolved_of [(track, o)] ∧
            missing_tracks' = missing_tracks ++ missing_of [(track, o)]
      | _ => True
      end
  end.
Proof.
  unfold resolve_track. rewrite run_bind.
  pose proof (search_track_spec fuel userInputs plex track w) as H1.
  destruct (search_track fuel userInputs plex track w)
    as [[[[plex1 search]|e|] w1] evs1];
    destruct H1 as (Hs1 & Hc1 & Hq1 & Hr1); [|done..].
  rewrite run_bind.
  assert (∀ rest, match match_candidates track rest plex_tracks w1 with
          | (r, w', evs) =>
              w' = w1 ∧ quiet evs ∧
              match r with
              | Ret (plex_tracks', found) =>
                  ∃ o : option PlexTrack,
                    plex_tracks' = plex_tracks ++ resolved_of [(track, o)] ∧
                    (if found : bool then missing_tracks else missing_tracks ++ [track])
                    = missing_tracks ++ missing_of [(track, o)]
              | _ => True
              end
          end) as Hmatch.
  { intros rest.
    pose proof (match_candidates_spec track rest plex_tracks w1) as H2.
    destruct (match_candidates track rest plex_tracks w1) as [[r w2] evs2].
    destruct H2 as (-> & Hlogs & Hr2).
    split; [done|]. split; [by apply only_logs_quiet|].
    destruct r as [[plex_tracks' [|]]|e|]; [| |done..].
    - destruct Hr2 as (s & _ & ->). exists (Some s). by rewrite app_nil_r.
    - subst. exists None. by rewrite app_nil_r. }
  destruct search as [[|s rest]|].
  - rewrite run_ret, run_ret.
    split; [done|]. split; [done|]. split; [by rewrite !app_nil_r|].
    exists None. by rewrite app_nil_r.
  - specialize (Hmatch (s :: rest)).
    destruct (match_candidates track (s :: rest) plex_tracks w1)
      as [[[[plex_tracks' found]|e|] w2] evs2];
      destruct Hmatch as (-> & Hq2 & Hr2); [|by auto using quiet_app..].
    destruct Hr2 as (o & -> & Hmiss).
    destruct found; rewrite run_ret;
      (split; [done|]); (split; [done|]);
      (split; [rewrite app_nil_r; by apply quiet_app|]);
      exists o; by rewrite <- Hmiss.
  - rewrite run_ret, run_ret.
    split; [done|]. split; [done|]. split; [by rewrite !app_nil_r|].
    exists None. by rewrite app_nil_r.
Qed.

Lemma resolve_tracks_spec fuel userInputs tracks plex plex_tracks missing_tracks w :
  match resolve_tracks fuel userInputs tracks (plex, plex_tracks, missing_tracks) w with
  | (r, w', evs) =>
      same_store w w' ∧ w_clock w ≤ w_clock w' ∧ quiet evs ∧
      match r with
      | Ret (plex', plex_tracks', missing_tracks') =>
          ∃ cls : list (Track * option PlexTrack),
            cls.*1 = tracks ∧
            plex_tracks' = plex_tracks ++ resolved_of cls ∧
            missing_tracks' = missing_tracks ++ missing_of cls
      | _ => True
      end
  end.
Proof.
  revert plex plex_tracks missing_tracks w.
  induction tracks as [|track tracks IH]; intros plex plex_tracks missing_tracks w.
  - cbn. split; [apply same_store_refl|]. split; [done|]. split; [constructor|].
    exists []. by rewrite !app_nil_r.
  - cbn [resolve_tracks]. rewrite run_bind.
    pose proof (resolve_track_spec fuel userInputs track plex plex_tracks
                  missing_tracks w) as H1.
    destruct (resolve_track fuel userInputs track (plex, plex_tracks, missing_tracks) w)
      as [[[[[plex1 plex_tracks1] missing1]|e|] w1] evs1];
      destruct H1 as (Hs1 & Hc1 & Hq1 & Hr1); [|done..].
    destruct Hr1 as (o & -> & ->).
    specialize (IH plex1 (plex_tracks ++ resolved_of [(track, o)])
                  (missing_tracks ++ missing_of [(track, o)]) w1).
    destruct (resolve_tracks fuel userInputs tracks _ w1) as [[r w2] evs2].
    destruct IH as (Hs2 & Hc2 & Hq2 & Hr2).
    split; [eauto using same_store_trans|]. split; [lia|].
    split; [by apply quiet_app|].
    destruct r as [[[plex2 plex_tracks2] missing2]|e|]; [|done..].
    destruct Hr2 as (cls & <- & -> & ->).
    exists ((track, o) :: cls). split; [done|].
    change ((track, o) :: cls) with ([(track, o)] ++ cls).
    by rewrite resolved_of_app, missing_of_app, !app_assoc.
Qed.

Lemma get_available_spec fuel plex tracks userInputs w :
  match _get_available_plex_tracks fuel plex tracks userInputs w with
  | (r, w', evs) =>
      same_store w w' ∧ w_clock w ≤ w_clock w' ∧ quiet evs ∧
      match r with
      | Ret (plex_tracks, missing_tracks) =>
          ∃ cls : list (Track * option PlexTrack),
            cls.*1 = tracks ∧
            plex_tracks = resolved_of cls ∧
            missing_tracks = missing_of cls
      | _ => True
      end
  end.
Proof.
  unfold _get_available_plex_tracks. rewrite run_bind.
  pose proof (resolve_tracks_spec fuel userInputs tracks plex [] [] w) as H.
  destruct (resolve_tracks fuel userInputs tracks (plex, [], []) w)
    as [[[[[plex' plex_tracks] missing_tracks]|e|] w'] evs];
    destruct H as (Hs & Hc & Hq & Hr); [|done..].
  rewrite run_ret, app_nil_r. done.
Qed.

(** ** The missing-tracks record *)

Lemma run_call_fault {A} ev (body : World → res A * World) w e :
  w_fault w (w_clock w) = Some e → call ev body w = (Raise e, advance w, [ev]).
Proof. unfold call. by intros ->. Qed.

Lemma run_call_ok {A} ev (body : World → res A * World) w :
  w_fault w (w_clock w) = None →
  call ev body w = match body (advance w) with (r, w') => (r, w', [ev]) end.
Proof. unfold call. by intros ->. Qed.

Lemma set_files_id w : set_files (w_files w) w = w.
Proof. by destruct w. Qed.

Lemma later_advance n w : later n (advance w) = later (S n) w.
Proof. unfold later. by rewrite <- Nat.iter_succ_r. Qed.

Lemma later_fault n w : w_fault (later n w) = w_fault w.
Proof. induction n as [|n IH]; [done|]. exact IH. Qed.

Lemma later_clock n w : w_clock (later n w) = w_clock w + n.
Proof.
  induction n as [|n IH]; [cbn; lia|].
  change (later (S n) w) with (advance (later n w)). cbn [w_clock advance]. lia.
Qed.

Lemma later_set_files n fs w : later n (set_files fs w) = set_files fs (later n w).
Proof.
  induction n as [|n IH]; [done|].
  change (later (S n) ?x) with (advance (later n x)). by rewrite IH.
Qed.

Lemma set_files_twice fs1 fs2 w : set_files fs2 (set_files fs1 w) = set_files fs2 w.
Proof. done. Qed.

Lemma run_closing {A} file (body : M A) w :
  closing file body w =
  match body w with
  | (Diverge, w1, evs1) => (Diverge, w1, evs1)
  | (r, w1, evs1) =>
      match w_fault w1 (w_clock w1) with
      | Some e => (Raise e, advance w1, evs1 ++ [EvClose file])
      | None => (r, advance w1, evs1 ++ [EvClose file])
      end
  end.
Proof.
  unfold closing, close, call.
  destruct (body w) as [[[a|e|] w1] evs1]; [| |done];
    by destruct (w_fault w1 (w_clock w1)).
Qed.

(** The rows loop of [_write_csv], from a world in which the file holds
    [content]. *)
Lemma write_rows_spec file tracks w content :
  w_files w !! file = Some content →
  match for_each tracks (fun track =>
          writerow file [title track; artist track; album track; url track]) w with
  | (r, w', evs) =>
      w_fault w' = w_fault w ∧ w_index w' = w_index w ∧
      w_playlists w' = w_playlists w ∧
      (∀ other, other ≠ file → w_files w' !! other = w_files w !! other) ∧
      w_clock w ≤ w_clock w' ≤ w_clock w + length tracks ∧
      Forall (fun ev => is_playlist_call ev = false ∧ is_file_call ev = true) evs ∧
      match r with
      | Ret _ =>
          (∀ t, w_clock w ≤ t < w_clock w + length tracks → w_fault w t = None) ∧
          w' = set_files (<[file := content ++ map csv_row tracks]> (w_files w))
                 (later (length tracks) w) ∧
          evs = map (fun track => EvWriteRow file (csv_row track)) tracks
      | Raise e => ∃ t, w_clock w ≤ t < w_clock w + length tracks ∧ w_fault w t = Some e
      | Diverge => False
      end
  end.
Proof.
  revert w content. induction tracks as [|track tracks IH]; intros w content Hfile.
  - cbn. repeat split; try done; try lia.
    by rewrite app_nil_r, insert_id, set_files_id.
  - cbn [for_each]. rewrite run_bind. unfold writerow at 1.
    destruct (w_fault w (w_clock w)) as [e|] eqn:Hf0.
    { rewrite (run_call_fault _ _ _ e) by done. cbn [length].
      repeat split; try done; cbn; try lia; [by repeat constructor|].
      exists (w_clock w). split; [lia|done]. }
    rewrite run_call_ok by done. cbn [w_files advance]. rewrite Hfile.
    cbn [default from_option].
    set (w1 := set_files _ (advance w)).
    assert (w_files w1 !! file = Some (content ++ [csv_row track])) as Hfile1
      by apply lookup_insert_eq.
    specialize (IH w1 _ Hfile1).
    destruct (for_each tracks _ w1) as [[r w'] evs].
    destruct IH as (Hfault & Hindex & Hpl & Hother & Hclock & Hevs & Hr).
    split; [done|]. split; [done|]. split; [done|].
    split. { intros other Hne. rewrite Hother by done. by apply lookup_insert_ne. }
    split. { cbn in Hclock |- *. lia. }
    split. { by constructor. }
    destruct r as [[]|e|]; [| |done].
    + destruct Hr as (Hfree & -> & ->). split; [|split].
      * intros t Ht. destruct (decide (t = w_clock w)) as [->|]; [done|].
        apply (Hfree t). cbn in Ht |- *. lia.
      * unfold w1. cbn [w_files set_files]. rewrite insert_insert_eq, <- app_assoc.
        rewrite later_set_files, later_advance. done.
      * done.
    + destruct Hr as (t & Ht & Hft). exists t. split; [cbn in Ht |- *; lia|done].
Qed.

Lemma write_csv_spec tracks name w :
  let file := csv_path "/data" name in
  let n := length tracks in
  match _write_csv tracks name "/data" w with
  | (r, w', evs) =>
      w_fault w' = w_fault w ∧ w_index w' = w_index w ∧
      w_playlists w' = w_playlists w ∧
      (∀ other, other ≠ file → w_files w' !! other = w_files w !! other) ∧
      w_clock w ≤ w_clock w' ≤ w_clock w + (n + 4) ∧
      Forall (fun ev => is_playlist_call ev = false ∧ is_file_call ev = true) evs ∧
      match r with
      | Ret _ =>
          (∀ t, w_clock w ≤ t < w_clock w + (n + 4) → w_fault w t = None) ∧
          w' = set_files (<[file := Track_annotations :: map csv_row tracks]> (w_files w))
                 (later (n + 4) w) ∧
          evs = EvMkdir "/data" :: EvOpenW file :: EvWriteRow file Track_annotations
                :: map (fun track => EvWriteRow file (csv_row track)) tracks
                ++ [EvClose file]
      | Raise e =>
          (∃ t, w_clock w ≤ t < w_clock w + (n + 4) ∧ w_fault w t = Some e) ∧
          (w_fault w (w_clock w) ≠ None ∨ w_fault w (S (w_clock w)) ≠ None →
           w_files w' = w_files w)
      | Diverge => False
      end
  end.
Proof.
  intros file n. unfold _write_csv. cbn zeta. fold file. rewrite run_bind.
  unfold mkdir at 1.
  destruct (w_fault w (w_clock w)) as [e|] eqn:Hf0.
  { rewrite (run_call_fault _ _ _ e) by done.
    repeat split; try done; cbn; try lia; [by repeat constructor|].
    exists (w_clock w). split; [lia|done]. }
  rewrite run_call_ok by done. rewrite run_bind. unfold open_w at 1.
  destruct (w_fault w (S (w_clock w))) as [e|] eqn:Hf1.
  { rewrite (run_call_fault _ _ _ e) by done.
    repeat split; try done; cbn; try lia; [by repeat constructor|].
    exists (S (w_clock w)). split; [lia|done]. }
  rewrite run_call_ok by done. cbn [w_files advance].
  set (w2 := set_files _ (advance (advance w))).
  rewrite run_closing, run_bind. unfold writerow at 1.
  destruct (w_fault w (S (S (w_clock w)))) as [e|] eqn:Hf2.
  { rewrite (run_call_fault _ _ _ e) by done.
    cbn [w_fault w_clock advance w2 set_files].
    destruct (w_fault w (S (S (S (w_clock w))))) as [e'|] eqn:Hf3.
    - repeat split; try done; cbn; try lia.
      + intros other Hne. by apply lookup_insert_ne.
      + by repeat constructor.
      + exists (S (S (S (w_clock w)))). split; [lia|done].
      + by intros [|].
    - repeat split; try done; cbn; try lia.
      + intros other Hne. by apply lookup_insert_ne.
      + by repeat constructor.
      + exists (S (S (w_clock w))). split; [lia|done].
      + by intros [|]. }
  rewrite run_call_ok by done. cbn [w_files advance w2 set_files].
  rewrite lookup_insert_eq. cbn [default from_option app]. rewrite insert_insert_eq.
  set (w3 := set_files _ (advance w2)).
  assert (w_files w3 !! file = Some [Track_annotations]) as Hfile3
    by apply lookup_insert_eq.
  pose proof (write_rows_spec file tracks w3 _ Hfile3) as Hrows.
  destruct (for_each tracks _ w3) as [[r w4] evs4].
  destruct Hrows as (Hfault & Hindex & Hpl & Hother & Hclock & Hevs & Hr).
  cbn [w_clock w_fault w_index w_playlists w3 w2 set_files advance] in *. fold n in Hclock, Hr.
  assert (∀ other, other ≠ file → w_files w4 !! other = w_files w !! other) as Hother'.
  { intros other Hne. rewrite Hother by done. unfold w3. cbn [w_files set_files].
    by rewrite lookup_insert_ne. }
  destruct r as [[]|e|]; [| |done].
  - destruct Hr as (Hfree & Hw4 & ->).
    assert (w_clock w4 = S (S (S (w_clock w))) + n) as Hc4.
    { rewrite Hw4. cbn [w_clock set_files]. rewrite later_clock. done. }
    assert (Forall (fun ev => is_playlist_call ev = false ∧ is_file_call ev = true)
              (EvMkdir "/data" :: EvOpenW file :: EvWriteRow file Track_annotations
               :: map (fun track => EvWriteRow file (csv_row track)) tracks
               ++ [EvClose file])) as Hall.
    { repeat (constructor; [done|]). apply Forall_app. split; [done|by repeat constructor]. }
    destruct (w_fault w4 (w_clock w4)) as [e|] eqn:Hf4; rewrite Hfault, Hc4 in Hf4.
    + cbn [w_clock w_fault w_index w_playlists w_files advance].
      split; [done|]. split; [done|]. split; [done|]. split; [done|].
      split; [lia|]. split; [done|]. split; [|by intros [|]].
      exists (S (S (S (w_clock w))) + n). split; [lia|done].
    + cbn [w_clock w_fault w_index w_playlists w_files advance].
      split; [done|]. split; [done|]. split; [done|]. split; [done|].
      split; [lia|]. split; [done|]. split; [|split; [|done]].
      * intros t Ht.
        destruct (decide (t = w_clock w)) as [->|]; [done|].
        destruct (decide (t = S (w_clock w))) as [->|]; [done|].
        destruct (decide (t = S (S (w_clock w)))) as [->|]; [done|].
        destruct (decide (t = S (S (S (w_clock w))) + n)) as [->|]; [done|].
        apply Hfree. lia.
      * rewrite Hw4. unfold w3, w2. cbn [w_files set_files].
        rewrite insert_insert_eq.
        replace (n + 4) with (S (S (S (S n)))) by lia.
        change (later (S (S (S (S n)))) w) with (advance (later (S (S (S n))) w)).
        repeat (rewrite later_set_files || rewrite later_advance). reflexivity.
  - destruct Hr as (t & Ht & Hft).
    assert (Forall (fun ev => is_playlist_call ev = false ∧ is_file_call ev = true)
              (EvMkdir "/data" :: EvOpenW file :: EvWriteRow file Track_annotations
               :: evs4 ++ [EvClose file])) as Hall.
    { repeat (constructor; [done|]). apply Forall_app. split; [done|by repeat constructor]. }
    destruct (w_fault w4 (w_clock w4)) as [e'|] eqn:Hf4; rewrite Hfault in Hf4;
      cbn [w_clock w_fault w_index w_playlists w_files advance];
      (split; [done|]); (split; [done|]); (split; [done|]); (split; [done|]);
      (split; [lia|]); (split; [done|]); (split; [|by intros [|]]).
    + exists (w_clock w4). split; [lia|done].
    + exists t. split; [lia|done].
Qed.

Lemma delete_csv_run name w :
  let file := csv_path "/data" name in
  _delete_csv name "/data" w =
  match w_fault w (w_clock w) with
  | Some e => (Raise e, advance w, [EvUnlink file])
  | None =>
      match w_files w !! file with
      | Some _ =>
          (Ret tt, set_files (delete file (w_files w)) (advance w), [EvUnlink file])
      | None => (Raise (OtherException "FileNotFoundError"), advance w, [EvUnlink file])
      end
  end.
Proof.
  intros file. unfold _delete_csv, unlink. cbn zeta. fold file.
  destruct (w_fault w (w_clock w)) as [e|] eqn:Hf0.
  { by rewrite (run_call_fault _ _ _ e). }
  rewrite run_call_ok by done. cbn [w_files advance].
  by destruct (w_files w !! file).
Qed.

Lemma record_missing_write playlist userInputs missing_tracks w :
  write_missing_as_csv userInputs = true → missing_tracks ≠ [] →
  record_missing playlist userInputs missing_tracks w =
  match _write_csv missing_tracks (name playlist) "/data" w with
  | (Ret _, w', evs) =>
      (Ret tt, w', evs ++ [EvLog "Missing tracks written to %s.csv" [name playlist]])
  | (Raise _, w', evs) =>
      (Ret tt, w',
       evs ++ [EvLog "Failed to write missing tracks for %s, likely permission issue"
                 [name playlist]])
  | (Diverge, w', evs) => (Diverge, w', evs)
  end.
Proof.
  intros Hon Hne. unfold record_missing. rewrite Hon.
  destruct missing_tracks as [|track rest]; [done|]. cbn [andb].
  rewrite run_bind, run_try, run_bind.
  destruct (_write_csv (track :: rest) (name playlist) "/data" w) as [[[[]|e|] w'] evs];
    cbn; by rewrite ?app_nil_r.
Qed.

Lemma record_missing_delete playlist userInputs w :
  write_missing_as_csv userInputs = true →
  record_missing playlist userInputs [] w =
  match _delete_csv (name playlist) "/data" w with
  | (Ret _, w', evs) => (Ret tt, w', evs ++ [EvLog "Deleted old %s.csv" [name playlist]])
  | (Raise _, w', evs) =>
      (Ret tt, w',
       evs ++ [EvLog "Failed to delete %s.csv, likely permission issue" [name playlist]])
  | (Diverge, w', evs) => (Diverge, w', evs)
  end.
Proof.
  intros Hon. unfold record_missing. rewrite Hon. cbn [andb].
  rewrite run_bind, run_ret, run_try, run_bind.
  destruct (_delete_csv (name playlist) "/data" w) as [[[[]|e|] w'] evs]; cbn; done.
Qed.

Lemma record_missing_off playlist userInputs missing_tracks w :
  write_missing_as_csv userInputs = false →
  record_missing playlist userInputs missing_tracks w = (Ret tt, w, []).
Proof.
  intros Hoff. unfold record_missing. rewrite Hoff, !andb_false_r. done.
Qed.

(** The bookkeeping step ends normally, and touches nothing but the record
    of the playlist's name. *)
Lemma record_missing_frame playlist userInputs missing_tracks w :
  match record_missing playlist userInputs missing_tracks w with
  | (r, w', evs) =>
      r = Ret tt ∧ w_fault w' = w_fault w ∧ w_index w' = w_index w ∧
      w_playlists w' = w_playlists w ∧
      (∀ other, other ≠ csv_path "/data" (name playlist) →
                w_files w' !! other = w_files w !! other) ∧
      Forall (fun ev => is_playlist_call ev = false) evs
  end.
Proof.
  destruct (write_missing_as_csv userInputs) eqn:Hon;
    [|rewrite record_missing_off by done; by repeat split].
  destruct missing_tracks as [|track rest].
  - rewrite record_missing_delete by done.
    pose proof (delete_csv_run (name playlist) w) as Hrun. cbn zeta in Hrun.
    rewrite Hrun.
    destruct (w_fault w (w_clock w)); [by repeat constructor|].
    destruct (w_files w !! _); [|by repeat constructor].
    split; [done|]. split; [done|]. split; [done|]. split; [done|].
    split; [|by repeat constructor].
    intros other Hne. cbn [w_files set_files]. by rewrite lookup_delete_ne.
  - rewrite record_missing_write by done.
    pose proof (write_csv_spec (track :: rest) (name playlist) w) as Hspec.
    cbn zeta in Hspec.
    destruct (_write_csv (track :: rest) (name playlist) "/data" w) as [[r w'] evs].
    destruct Hspec as (Hfault & Hindex & Hpl & Hother & _ & Hevs & Hr).
    assert (Forall (fun ev => is_playlist_call ev = false) evs) as Hevs'.
    { eapply Forall_impl; [exact Hevs|]. by intros ev [? ?]. }
    destruct r as [[]|e|]; [| |done];
      (repeat (split; [done|])); (apply Forall_app; split; [done|by repeat constructor]).
Qed.

Lemma record_missing_spec playlist userInputs missing_tracks w :
  match record_missing playlist userInputs missing_tracks w with
  | (r, w', evs) =>
      r = Ret tt ∧ w_playlists w' = w_playlists w ∧
      Forall (fun ev => is_playlist_call ev = false) evs
  end.
Proof.
  pose proof (record_missing_frame playlist userInputs missing_tracks w) as H.
  destruct (record_missing playlist userInputs missing_tracks w) as [[r w'] evs].
  by destruct H as (? & _ & _ & ? & _ & ?).
Qed.

Lemma record_missing_cases playlist userInputs missing w :
  write_missing_as_csv userInputs = true →
  let file := csv_path "/data" (name playlist) in
  ∃ w' evs,
    record_missing playlist userInputs missing w = (Ret tt, w', evs) ∧
    (missing ≠ [] →
       ((∀ t, w_clock w ≤ t < w_clock w + (length missing + 4) → w_fault w t = None) →
          w_files w' = <[file := Track_annotations :: map csv_row missing]> (w_files w) ∧
          last evs = Some (EvLog "Missing tracks written to %s.csv" [name playlist])) ∧
       ((∃ t, w_clock w ≤ t < w_clock w + (length missing + 4) ∧ w_fault w t ≠ None) →
          last evs = Some (EvLog "Failed to write missing tracks for %s, likely permission issue"
                             [name playlist]) ∧
          (∀ other, other ≠ file → w_files w' !! other = w_files w !! other) ∧
          (w_fault w (w_clock w) ≠ None ∨ w_fault w (S (w_clock w)) ≠ None →
           w_files w' = w_files w))) ∧
    (missing = [] →
       (w_fault w (w_clock w) = None → is_Some (w_files w !! file) →
          w_files w' = delete file (w_files w) ∧
          last evs = Some (EvLog "Deleted old %s.csv" [name playlist])) ∧
       (w_fault w (w_clock w) ≠ None ∨ w_files w !! file = None →
          w_files w' = w_files w ∧
          last evs = Some (EvLog "Failed to delete %s.csv, likely permission issue"
                             [name playlist]))).
Proof.
  intros Hon file. destruct missing as [|track rest].
  - rewrite record_missing_delete by done.
    pose proof (delete_csv_run (name playlist) w) as Hrun. cbn zeta in Hrun.
    rewrite Hrun. fold file.
    destruct (w_fault w (w_clock w)) as [e|].
    { eexists _, _. split; [reflexivity|]. split; [done|]. intros _. split; [done|].
      intros _. by rewrite last_snoc. }
    destruct (w_files w !! file) as [rows|].
    + eexists _, _. split; [reflexivity|]. split; [done|]. intros _. split.
      * intros _ _. by rewrite last_snoc.
      * by intros [|].
    + eexists _, _. split; [reflexivity|]. split; [done|]. intros _. split.
      * by intros _ [? ?].
      * intros _. by rewrite last_snoc.
  - rewrite record_missing_write by done.
    pose proof (write_csv_spec (track :: rest) (name playlist) w) as Hspec.
    cbn zeta in Hspec. fold file in Hspec.
    destruct (_write_csv (track :: rest) (name playlist) "/data" w) as [[r w'] evs].
    destruct Hspec as (_ & _ & _ & Hother & _ & _ & Hr).
    destruct r as [[]|e|]; [| |done].
    + destruct Hr as (Hfree & -> & _).
      eexists _, _. split; [reflexivity|]. split; [|done]. intros _. split.
      * intros _. by rewrite last_snoc.
      * intros (t & Ht & Hft). by rewrite Hfree in Hft.
    + destruct Hr as ((t & Ht & Hft) & Hearly).
      eexists _, _. split; [reflexivity|]. split; [|done]. intros _. split.
      * intros Hfree. by rewrite Hfree in Hft.
      * intros _. by rewrite last_snoc.
Qed.

(** ** Updating the remote playlist *)

Lemma seen_spec k seen : existsb (N.eqb k) seen = true ↔ k ∈ seen.
Proof.
  rewrite existsb_exists. split.
  - intros (k' & Hin & Heq). apply N.eqb_eq in Heq as ->. by apply list_elem_of_In.
  - intros Hin. exists k. split; [by apply list_elem_of_In|apply N.eqb_refl].
Qed.

Lemma remove_first_unseen k pending entries :
  (∀ t, t ∈ pending → ratingKey t ≠ k) →
  remove_first k (pending ++ entries) = pending ++ remove_first k entries.
Proof.
  induction pending as [|t pending IH]; intros Hne; [done|]. cbn.
  destruct (N.eqb_spec (ratingKey t) k) as [Heq|_].
  - by destruct (Hne t (list_elem_of_here _ _)).
  - rewrite IH; [done|]. intros t' Ht'. apply Hne. by apply list_elem_of_further.
Qed.

Lemma has_key_middle pending t entries :
  has_key (ratingKey t) (pending ++ t :: entries) = true.
Proof.
  unfold has_key. apply existsb_exists. exists t.
  split; [apply list_elem_of_In; set_solver|apply N.eqb_refl].
Qed.

(** Removing the items of a playlist from the playlist leaves the entries
    that repeat an earlier key. *)
Lemma remove_each_repeats items seen pending :
  (∀ t, t ∈ pending → ratingKey t ∈ seen) →
  remove_each items seen (pending ++ items) = (Ret tt, pending ++ repeats seen items).
Proof.
  revert seen pending. induction items as [|t items IH]; intros seen pending Hpending.
  - done.
  - cbn [remove_each repeats].
    destruct (existsb (N.eqb (ratingKey t)) seen) eqn:Hseen.
    + rewrite (cons_middle t pending items), app_assoc. rewrite IH.
      * by rewrite <- app_assoc.
      * intros t' [Ht'| ->%list_elem_of_singleton]%elem_of_app; [by apply Hpending|].
        by apply seen_spec.
    + rewrite has_key_middle. rewrite remove_first_unseen.
      * cbn [remove_first]. rewrite N.eqb_refl. apply IH.
        intros t' Ht'. apply list_elem_of_further. by apply Hpending.
      * intros t' Ht' Heq. apply Hpending, seen_spec in Ht'. congruence.
Qed.

Lemma repeats_distinct seen entries :
  NoDup (ratingKey <$> entries) →
  (∀ t, t ∈ entries → ratingKey t ∉ seen) →
  repeats seen entries = [].
Proof.
  revert seen. induction entries as [|t entries IH]; intros seen Hnodup Hseen; [done|].
  cbn [repeats]. apply NoDup_cons in Hnodup as [Hnotin Hnodup].
  destruct (existsb (N.eqb (ratingKey t)) seen) eqn:Ht.
  - apply seen_spec in Ht. by destruct (Hseen t (list_elem_of_here _ _)).
  - apply IH; [done|]. intros t' Ht' [Heq|Hin]%elem_of_cons.
    + apply Hnotin. rewrite <- Heq. by apply list_elem_of_fmap_2.
    + apply (Hseen t'); [by apply list_elem_of_further|done].
Qed.

Lemma remove_items_run pp w pl :
  w_playlists w !! pp_title pp = Some pl →
  w_fault w (w_clock w) = None →
  Playlist_removeItems pp (pl_items pl) w =
  (Ret tt,
   set_playlists
     (<[pp_title pp := {| pl_items := repeats [] (pl_items pl);
                          pl_summary := pl_summary pl;
                          pl_poster := pl_poster pl |}]> (w_playlists w))
     (advance w),
   [EvRemoveItems pp (pl_items pl)]).
Proof.
  intros Hpl Hfault. unfold Playlist_removeItems. rewrite run_call_ok by done.
  cbn [w_playlists advance]. rewrite Hpl.
  pose proof (remove_each_repeats (pl_items pl) [] []) as Hrem. cbn [app] in Hrem.
  rewrite Hrem; [done|]. by intros t Ht%elem_of_nil.
Qed.

Lemma apply_playlist_empty plex playlist userInputs w :
  apply_playlist plex playlist userInputs [] w =
  (Ret tt, w,
   [EvLog "No songs for playlist %s were found on plex, skipping the playlist creation"
      [name playlist]]).
Proof. reflexivity. Qed.

Lemma update_sync_run plex available_tracks playlist w old :
  w_playlists w !! name playlist = Some old →
  (∀ t, w_clock w ≤ t < w_clock w + 4 → w_fault w t = None) →
  let pp := {| pp_server := plex; pp_title := name playlist |} in
  _update_plex_playlist plex available_tracks playlist false w =
  (Ret pp,
   set_playlists
     (<[name playlist := {| pl_items := repeats [] (pl_items old) ++ available_tracks;
                            pl_summary := pl_summary old;
                            pl_poster := pl_poster old |}]> (w_playlists w))
     (advance (advance (advance (advance w)))),
   [EvPlaylist plex (name playlist); EvItems pp;
    EvRemoveItems pp (pl_items old); EvAddItems pp available_tracks]).
Proof.
  intros Hold Hcalm pp. unfold _update_plex_playlist. cbn [negb].
  rewrite run_bind. unfold PlexServer_playlist.
  rewrite run_call_ok by (apply Hcalm; lia).
  cbn [w_playlists advance]. rewrite Hold. fold pp.
  rewrite run_bind, run_bind. unfold Playlist_items.
  rewrite run_call_ok by (apply Hcalm; cbn; lia).
  unfold on_playlist at 1. cbn [w_playlists advance pp_title pp]. rewrite Hold.
  rewrite (remove_items_run pp _ old);
    [|cbn; by rewrite lookup_insert_eq|cbn; apply Hcalm; lia].
  cbn [w_playlists advance set_playlists pp_title pp]. rewrite insert_insert_eq.
  rewrite run_bind. unfold Playlist_addItems.
  rewrite run_call_ok by (cbn; apply Hcalm; lia).
  unfold on_playlist at 1. cbn [w_playlists advance set_playlists pp_title pp].
  rewrite lookup_insert_eq. cbn [pl_items pl_summary pl_poster app].
  rewrite insert_insert_eq. reflexivity.
Qed.

Lemma update_append_run plex available_tracks playlist w old :
  w_playlists w !! name playlist = Some old →
  (∀ t, w_clock w ≤ t < w_clock w + 2 → w_fault w t = None) →
  let pp := {| pp_server := plex; pp_title := name playlist |} in
  _update_plex_playlist plex available_tracks playlist true w =
  (Ret pp,
   set_playlists
     (<[name playlist := {| pl_items := pl_items old ++ available_tracks;
                            pl_summary := pl_summary old;
                            pl_poster := pl_poster old |}]> (w_playlists w))
     (advance (advance w)),
   [EvPlaylist plex (name playlist); EvAddItems pp available_tracks]).
Proof.
  intros Hold Hcalm pp. unfold _update_plex_playlist. cbn [negb].
  rewrite run_bind. unfold PlexServer_playlist.
  rewrite run_call_ok by (apply Hcalm; lia).
  cbn [w_playlists advance]. rewrite Hold. fold pp.
  rewrite run_bind, run_ret, run_bind. unfold Playlist_addItems.
  rewrite run_call_ok by (cbn; apply Hcalm; lia).
  unfold on_playlist at 1. cbn [w_playlists advance set_playlists pp_title pp].
  rewrite Hold. reflexivity.
Qed.

Lemma guarded_call_keeps pp ev (f : RemotePlaylist → unit * RemotePlaylist)
    fmt args w pl :
  (∀ p, pl_items (f p).2 = pl_items p) →
  w_playlists w !! pp_title pp = Some pl →
  ∃ w' evs pl',
    try_except (call ev (on_playlist pp f)) (fun _ => log fmt args) w = (Ret tt, w', evs) ∧
    w_playlists w' !! pp_title pp = Some pl' ∧ pl_items pl' = pl_items pl.
Proof.
  intros Hf Hpl. rewrite run_try. unfold call.
  destruct (w_fault w (w_clock w)) as [e|].
  - eexists (advance w), _, pl. split; [reflexivity|done].
  - unfold on_playlist. cbn [w_playlists advance]. rewrite Hpl.
    specialize (Hf pl). destruct (f pl) as [[] pl'].
    eexists _, _, pl'. split; [reflexivity|].
    split; [apply lookup_insert_eq|done].
Qed.

(** The description and poster steps (lines 182-199) keep the items. *)
Lemma metadata_steps_keep playlist userInputs pp w pl :
  pp_title pp = name playlist →
  w_playlists w !! name playlist = Some pl →
  ∃ w' evs pl',
    ((if truthy (description playlist) && add_playlist_description userInputs then
        try_except
          (Playlist_edit pp (default "" (description playlist)))
          (fun _ => log "Failed to update description for playlist %s" [name playlist])
      else mret tt);;
     (if truthy (poster playlist) && add_playlist_poster userInputs then
        try_except
          (Playlist_uploadPoster pp (default "" (poster playlist)))
          (fun _ => log "Failed to update poster for playlist %s" [name playlist])
      else mret tt);;
     log "Updated playlist %s with summary and poster" [name playlist]) w
    = (Ret tt, w', evs) ∧
    w_playlists w' !! name playlist = Some pl' ∧ pl_items pl' = pl_items pl.
Proof.
  intros Htitle Hpl. rewrite <- Htitle in Hpl.
  assert (∃ w1 evs1 pl1,
    (if truthy (description playlist) && add_playlist_description userInputs then
        try_except
          (Playlist_edit pp (default "" (description playlist)))
          (fun _ => log "Failed to update description for playlist %s" [name playlist])
      else mret tt) w = (Ret tt, w1, evs1) ∧
    w_playlists w1 !! pp_title pp = Some pl1 ∧ pl_items pl1 = pl_items pl)
    as (w1 & evs1 & pl1 & Hrun1 & Hpl1 & Hitems1).
  { destruct (truthy (description playlist) && add_playlist_description userInputs).
    - by apply guarded_call_keeps.
    - eexists w, _, pl. split; [reflexivity|done]. }
  assert (∃ w2 evs2 pl2,
    (if truthy (poster playlist) && add_playlist_poster userInputs then
        try_except
          (Playlist_uploadPoster pp (default "" (poster playlist)))
          (fun _ => log "Failed to update poster for playlist %s" [name playlist])
      else mret tt) w1 = (Ret tt, w2, evs2) ∧
    w_playlists w2 !! pp_title pp = Some pl2 ∧ pl_items pl2 = pl_items pl1)
    as (w2 & evs2 & pl2 & Hrun2 & Hpl2 & Hitems2).
  { destruct (truthy (poster playlist) && add_playlist_poster userInputs).
    - by apply guarded_call_keeps.
    - eexists w1, _, pl1. split; [reflexivity|done]. }
  rewrite run_bind, Hrun1, run_bind, Hrun2.
  eexists _, _, pl2. split; [reflexivity|]. split; [by rewrite <- Htitle|]. congruence.
Qed.

Lemma apply_playlist_update plex playlist userInputs available_tracks w old :
  available_tracks ≠ [] →
  w_playlists w !! name playlist = Some old →
  (∀ t, w_clock w ≤ t < w_clock w + (if append_instead_of_sync userInputs then 2 else 4) →
        w_fault w t = None) →
  let pp := {| pp_server := plex; pp_title := name playlist |} in
  ∃ w' rest pl',
    apply_playlist plex playlist userInputs available_tracks w =
      (Ret tt, w',
       (if append_instead_of_sync userInputs
        then [EvPlaylist plex (name playlist); EvAddItems pp available_tracks]
        else [EvPlaylist plex (name playlist); EvItems pp;
              EvRemoveItems pp (pl_items old); EvAddItems pp available_tracks])
       ++ EvLog "Updated playlist %s" [name playlist] :: rest) ∧
    w_playlists w' !! name playlist = Some pl' ∧
    pl_items pl' = (if append_instead_of_sync userInputs
                    then pl_items old ++ available_tracks
                    else repeats [] (pl_items old) ++ available_tracks).
Proof.
  intros Hne Hold Hcalm pp. unfold apply_playlist.
  destruct available_tracks as [|s rest0]; [done|].
  set (available := s :: rest0) in *.
  rewrite run_bind, run_try, run_bind.
  destruct (append_instead_of_sync userInputs).
  - rewrite (update_append_run _ _ _ _ old) by done. fold pp.
    rewrite run_log, run_ret.
    edestruct (metadata_steps_keep playlist userInputs pp) as (w' & evs & pl' & -> & Hpl' & Hitems).
    { done. }
    { cbn [w_playlists set_playlists]. apply lookup_insert_eq. }
    eexists w', _, pl'. split; [reflexivity|]. split; [done|]. exact Hitems.
  - rewrite (update_sync_run _ _ _ _ old) by done. fold pp.
    rewrite run_log, run_ret.
    edestruct (metadata_steps_keep playlist userInputs pp) as (w' & evs & pl' & -> & Hpl' & Hitems).
    { done. }
    { cbn [w_playlists set_playlists]. apply lookup_insert_eq. }
    eexists w', _, pl'. split; [reflexivity|]. split; [done|]. exact Hitems.
Qed.

Lemma update_or_create_eq fuel plex playlist tracks userInputs w
    available missing w1 evs1 :
  _get_available_plex_tracks fuel plex tracks userInputs w
  = (Ret (available, missing), w1, evs1) →
  update_or_create_plex_playlist fuel plex playlist tracks userInputs w =
  match apply_playlist plex playlist userInputs available w1 with
  | (Ret _, w2, evs2) =>
      match record_missing playlist userInputs missing w2 with
      | (r, w3, evs3) => (r, w3, evs1 ++ evs2 ++ evs3)
      end
  | (Raise e, w2, evs2) => (Raise e, w2, evs1 ++ evs2)
  | (Diverge, w2, evs2) => (Diverge, w2, evs1 ++ evs2)
  end.
Proof.
  intros Hrun. unfold update_or_create_plex_playlist.
  rewrite run_bind, Hrun, run_bind.
  destruct (apply_playlist plex playlist userInputs available w1)
    as [[[[]|e|] w2] evs2]; [|done..].
  by destruct (record_missing playlist userInputs missing w2) as [[r w3] evs3].
Qed.

(** ** Which connection the playlist calls use *)

Lemma via_ret {A} plex (a : A) (Q : A → Prop) : Q a → run_via plex (mret a) Q.
Proof. intros HQ w. rewrite run_ret. split; [constructor|]. by intros ? [= <-]. Qed.

Lemma via_raise {A} plex e (Q : A → Prop) : run_via plex (raise e) Q.
Proof. intros w. split; [constructor|done]. Qed.

Lemma via_log plex fmt args (Q : unit → Prop) : Q tt → run_via plex (log fmt args) Q.
Proof. intros HQ w. split; [by repeat constructor|]. by intros [] _. Qed.

Lemma via_bind {A B} plex (m : M A) (k : A → M B) (Q : A → Prop) (R : B → Prop) :
  run_via plex m Q → (∀ a, Q a → run_via plex (k a) R) → run_via plex (m ≫= k) R.
Proof.
  intros Hm Hk w. rewrite run_bind. specialize (Hm w).
  destruct (m w) as [[[a|e|] w1] evs1]; destruct Hm as [Hvia HQ].
  - specialize (Hk a (HQ a eq_refl) w1).
    destruct (k a w1) as [[r w2] evs2]. destruct Hk as [Hvia2 HR].
    split; [by apply Forall_app|done].
  - done.
  - done.
Qed.

Lemma via_try {A} plex (m : M A) (h : exn → M A) (Q : A → Prop) :
  run_via plex m Q → (∀ e, run_via plex (h e) Q) → run_via plex (try_except m h) Q.
Proof.
  intros Hm Hh w. rewrite run_try. specialize (Hm w).
  destruct (m w) as [[[a|e|] w1] evs1]; destruct Hm as [Hvia HQ]; [done| |done].
  specialize (Hh e w1). destruct (h e w1) as [[r w2] evs2]. destruct Hh as [Hvia2 HR].
  split; [by apply Forall_app|done].
Qed.

Lemma via_call {A} plex ev (body : World → res A * World) (Q : A → Prop) :
  (is_playlist_call ev = true → connection_of ev = Some plex) →
  (∀ w a w', body w = (Ret a, w') → Q a) →
  run_via plex (call ev body) Q.
Proof.
  intros Hev Hbody w. unfold call.
  destruct (w_fault w (w_clock w)) as [e|]; [split; [by repeat constructor|done]|].
  destruct (body (advance w)) as [r w'] eqn:Hrun.
  split; [by repeat constructor|]. intros a ->. eauto.
Qed.

Lemma update_plex_playlist_via plex available_tracks playlist append :
  run_via plex (_update_plex_playlist plex available_tracks playlist append)
    (fun pp => pp_server pp = plex).
Proof.
  unfold _update_plex_playlist.
  apply (via_bind _ _ _ (fun pp => pp_server pp = plex)).
  { apply via_call; [done|]. intros w a w' Hbody.
    destruct (w_playlists w !! name playlist); by simplify_eq. }
  intros pp Hpp.
  apply (via_bind _ _ _ (fun _ => True)).
  { destruct (negb append); [|by apply via_ret].
    apply (via_bind _ _ _ (fun _ => True)).
    - apply via_call; [by intros _; cbn; rewrite Hpp|done].
    - intros items _. apply via_call; [by intros _; cbn; rewrite Hpp|done]. }
  intros _ _.
  apply (via_bind _ _ _ (fun _ => True)).
  { apply via_call; [by intros _; cbn; rewrite Hpp|done]. }
  intros _ _. by apply via_ret.
Qed.

Lemma apply_playlist_via plex playlist userInputs available_tracks :
  run_via plex (apply_playlist plex playlist userInputs available_tracks) (fun _ => True).
Proof.
  unfold apply_playlist. destruct available_tracks as [|s rest]; [by apply via_log|].
  apply (via_bind _ _ _ (fun pp => pp_server pp = plex)).
  { apply via_try.
    - apply (via_bind _ _ _ (fun pp => pp_server pp = plex));
        [apply update_plex_playlist_via|].
      intros pp Hpp. apply (via_bind _ _ _ (fun _ => True)); [by apply via_log|].
      intros _ _. by apply via_ret.
    - intros e. destruct (is_NotFound e); [|apply via_raise].
      apply (via_bind _ _ _ (fun _ => True)); [by apply via_call|].
      intros _ _. apply (via_bind _ _ _ (fun _ => True)); [by apply via_log|].
      intros _ _. apply via_call; [done|]. intros w a w' Hbody.
      destruct (w_playlists w !! name playlist); by simplify_eq. }
  intros pp Hpp.
  apply (via_bind _ _ _ (fun _ => True)).
  { destruct (truthy (description playlist) && add_playlist_description userInputs);
      [|by apply via_ret].
    apply via_try; [|intros e; by apply via_log].
    apply via_call; [by intros _; cbn; rewrite Hpp|done]. }
  intros _ _.
  apply (via_bind _ _ _ (fun _ => True)).
  { destruct (truthy (poster playlist) && add_playlist_poster userInputs);
      [|by apply via_ret].
    apply via_try; [|intros e; by apply via_log].
    apply via_call; [by intros _; cbn; rewrite Hpp|done]. }
  intros _ _. by apply via_log.
Qed.

Lemma quiet_via plex evs : quiet evs → playlist_calls_via plex evs.
Proof.
  intros H. eapply Forall_impl; [exact H|]. intros ev [Hp _] Hp'. congruence.
Qed.

(** Every playlist call of a pass goes through the connection the pass was
    given, whatever connections the searches of the resolution reopened. *)
Lemma playlist_calls_use_given_connection fuel plex playlist tracks userInputs w :
  playlist_calls_via plex
    (update_or_create_plex_playlist fuel plex playlist tracks userInputs w).2.
Proof.
  pose proof (get_available_spec fuel plex tracks userInputs w) as Hres.
  destruct (_get_available_plex_tracks fuel plex tracks userInputs w)
    as [[[[available missing]|e|] w1] evs1] eqn:Hrun.
  - rewrite (update_or_create_eq _ _ _ _ _ _ _ _ _ _ Hrun).
    destruct Hres as (_ & _ & Hquiet & _).
    pose proof (apply_playlist_via plex playlist userInputs available w1) as Happly.
    destruct (apply_playlist plex playlist userInputs available w1)
      as [[[[]|e|] w2] evs2]; destruct Happly as [Hvia _];
      [|cbn; apply Forall_app; split; [by apply quiet_via|done]..].
    pose proof (record_missing_spec playlist userInputs missing w2) as Hrec.
    destruct (record_missing playlist userInputs missing w2) as [[r w3] evs3].
    destruct Hrec as (_ & _ & Hev3). cbn.
    apply Forall_app. split; [by apply quiet_via|].
    apply Forall_app. split; [done|].
    eapply Forall_impl; [exact Hev3|]. intros ev Hp Hp'. congruence.
  - unfold update_or_create_plex_playlist. rewrite run_bind, Hrun. cbn.
    destruct Hres as (_ & _ & Hquiet & _). by apply quiet_via.
  - unfold update_or_create_plex_playlist. rewrite run_bind, Hrun. cbn.
    destruct Hres as (_ & _ & Hquiet & _). by apply quiet_via.
Qed.

(** ** A pass returns once the faults stop *)

Lemma saveSearch_from_index fuel userInputs plex q mt lim w plex' results w' evs :
  saveSearch fuel userInputs plex q mt lim w = (Ret (plex', Some results), w', evs) →
  ∃ t, results = w_index w t q mt lim.
Proof.
  revert plex w evs. induction fuel as [|fuel IH]; intros plex w evs; [done|].
  rewrite saveSearch_S.
  destruct (w_fault w (w_clock w)) as [e|]; [|intros [= <- <- <- <-]; eauto].
  destruct (is_BadRequest e); [done|].
  destruct (is_Exception e); [|done].
  pose proof (createPlexServer_spec fuel userInputs (advance w)) as Hc.
  destruct (createPlexServer fuel userInputs (advance w)) as [[[plex1|e'|] w1] evs1];
    [|done..].
  destruct Hc as ((_ & Hindex & _) & _).
  destruct (saveSearch fuel userInputs plex1 q mt lim w1) as [[r w2] evs2] eqn:Hrun.
  intros [= -> <- <-]. destruct (IH _ _ _ Hrun) as [t ->].
  exists t. by rewrite Hindex.
Qed.

Lemma index_readable_store w w' : same_store w w' → index_readable w → index_readable w'.
Proof. intros (_ & Hi & _) Hr t q mt lim. rewrite Hi. apply Hr. Qed.

Lemma match_candidates_readable track search plex_tracks w :
  Forall (fun c => meta_ok (track_artist c) = true ∧ meta_ok (track_album c) = true)
    search →
  ∃ plex_tracks' found evs,
    match_candidates track search plex_tracks w = (Ret (plex_tracks', found), w, evs).
Proof.
  intros Hok.
  pose proof (match_candidates_spec track search plex_tracks w) as H.
  destruct (match_candidates track search plex_tracks w) as [[r w'] evs].
  destruct H as (-> & _ & Hr).
  destruct r as [[plex_tracks' found]|e|]; [eauto| |done].
  destruct Hr as (He & c & Hin & Hc).
  rewrite Forall_forall in Hok. destruct (Hok c Hin) as [Hoka Hokal].
  destruct Hc as [Hc|Hc]; rewrite Hc in *; cbn in *; congruence.
Qed.

Lemma search_track_returns T fuel userInputs plex track w :
  calm_from T w → ordinary_faults w → index_readable w →
  T < fuel + w_clock w → 0 < fuel →
  ∃ plex' search w' evs,
    search_track fuel userInputs plex track w = (Ret (plex', search), w', evs) ∧
    Forall (fun c => meta_ok (track_artist c) = true ∧ meta_ok (track_album c) = true)
      (default [] search).
Proof.
  intros Hcalm Hord Hread HT Hfuel. rewrite search_track_eq.
  destruct (saveSearch_returns T fuel userInputs plex (title track) "track" 5 w)
    as (plex1 & first & w1 & evs1 & Hrun1); [done..|].
  pose proof (saveSearch_spec fuel userInputs plex (title track) "track" 5 w) as H1.
  rewrite Hrun1 in H1 |- *. destruct H1 as (Hs1 & Hc1 & _).
  assert (Forall (fun c => meta_ok (track_artist c) = true ∧ meta_ok (track_album c) = true)
            (default [] first)) as Hfirst.
  { destruct first as [results|]; [|constructor].
    destruct (saveSearch_from_index _ _ _ _ _ _ _ _ _ _ _ Hrun1) as [t ->]. apply Hread. }
  destruct (wants_retry first (title track)); [|by eexists _, _, _, _].
  cbn zeta.
  destruct (saveSearch_returns T fuel userInputs plex1
              (Str.item0 (Str.split "(" (title track))) "track" 5 w1)
    as (plex2 & second & w2 & evs2 & Hrun2);
    [by eapply calm_from_store|by eapply ordinary_faults_store|lia|done|].
  rewrite Hrun2. eexists _, _, _, _. split; [reflexivity|].
  destruct second as [more|]; [|done]. cbn. apply Forall_app. split; [done|].
  destruct (saveSearch_from_index _ _ _ _ _ _ _ _ _ _ _ Hrun2) as [t ->].
  by apply (index_readable_store w w1).
Qed.

Lemma resolve_tracks_returns T fuel userInputs tracks plex plex_tracks missing_tracks w :
  calm_from T w → ordinary_faults w → index_readable w →
  T < fuel + w_clock w → 0 < fuel →
  ∃ st w' evs,
    resolve_tracks fuel userInputs tracks (plex, plex_tracks, missing_tracks) w
    = (Ret st, w', evs).
Proof.
  revert plex plex_tracks missing_tracks w.
  induction tracks as [|track tracks IH];
    intros plex plex_tracks missing_tracks w Hcalm Hord Hread HT Hfuel.
  { by eexists _, _, _. }
  cbn [resolve_tracks]. rewrite run_bind.
  pose proof (resolve_track_spec fuel userInputs track plex plex_tracks missing_tracks w)
    as Hspec.
  assert (∃ st1 w1 evs1,
            resolve_track fuel userInputs track (plex, plex_tracks, missing_tracks) w
            = (Ret st1, w1, evs1)) as (st1 & w1 & evs1 & Hrun1).
  { unfold resolve_track. rewrite run_bind.
    destruct (search_track_returns T fuel userInputs plex track w)
      as (plex1 & search & w1 & evs1 & -> & Hok); [done..|].
    rewrite run_bind.
    destruct search as [[|s rest]|].
    - rewrite run_ret, run_ret. by eexists _, _, _.
    - destruct (match_candidates_readable track (s :: rest) plex_tracks w1 Hok)
        as (plex_tracks' & found & evs2 & ->).
      destruct found; rewrite run_ret; by eexists _, _, _.
    - rewrite run_ret, run_ret. by eexists _, _, _. }
  rewrite Hrun1 in Hspec |- *. destruct Hspec as (Hs1 & Hc1 & _).
  destruct st1 as [[plex1 plex_tracks1] missing1].
  destruct (IH plex1 plex_tracks1 missing1 w1) as (st & w' & evs & ->).
  - by eapply calm_from_store.
  - by eapply ordinary_faults_store.
  - by eapply index_readable_store.
  - lia.
  - done.
  - by eexists _, _, _.
Qed.

(** Once the faults stop, when the exceptions raised before are of classes
    derived from [Exception] and the metadata of the search results raise
    nothing but [IndexError], a resolution pass with enough recursion depth
    left returns. *)
Lemma get_available_returns T fuel plex tracks userInputs w :
  calm_from T w → ordinary_faults w → index_readable w →
  T < fuel + w_clock w → 0 < fuel →
  ∃ resolved missing w' evs,
    _get_available_plex_tracks fuel plex tracks userInputs w
    = (Ret (resolved, missing), w', evs).
Proof.
  intros Hcalm Hord Hread HT Hfuel. unfold _get_available_plex_tracks. rewrite run_bind.
  destruct (resolve_tracks_returns T fuel userInputs tracks plex [] [] w)
    as ([[plex' resolved] missing] & w' & evs & ->); [done..|].
  rewrite run_ret. by eexists _, _, _, _.
Qed.

(** * The claims *)




(** C2. A candidate whose artist can be read is accepted when the similarity
    of its artist to the track's artist (both lower-cased) is at least 0.9,
    whatever its album; when that similarity is below 0.9 it is accepted
    exactly when the similarity of its album to the track's album is at least
    0.9; when both are below 0.9 it is rejected and the loop goes on with the
    next candidate. Over candidates whose metadata can be read the loop stops
    at the first accepted one, in the order returned. *)
Theorem threshold_property track s rest plex_tracks w :
  (∀ a, track_artist s = inr a →
     (9 # 10 <= Difflib.quick_ratio (Str.lower a) (Str.lower (artist track)))%Q →
     match_candidates track (s :: rest) plex_tracks w
     = (Ret (plex_tracks ++ [s], true), w, [])) ∧
  (∀ a al, track_artist s = inr a → track_album s = inr al →
     (Difflib.quick_ratio (Str.lower a) (Str.lower (artist track)) < 9 # 10)%Q →
     ((9 # 10 <= Difflib.quick_ratio (Str.lower al) (Str.lower (album track)))%Q →
      match_candidates track (s :: rest) plex_tracks w
      = (Ret (plex_tracks ++ [s], true), w, [])) ∧
     ((Difflib.quick_ratio (Str.lower al) (Str.lower (album track)) < 9 # 10)%Q →
      match_candidates track (s :: rest) plex_tracks w
      = match_candidates track rest plex_tracks w)) ∧
  (∀ search,
     Forall (fun c => ∃ a al, track_artist c = inr a ∧ track_album c = inr al) search →
     match_candidates track search plex_tracks w
     = (Ret (match List.find (accepts track) search with
             | Some c => (plex_tracks ++ [c], true)
             | None => (plex_tracks, false)
             end), w, [])).
Proof.
  split; [|split].
  - intros a Ha Hsim%similar_ge. by rewrite match_candidates_cons, Ha, Hsim.
  - intros a al Ha Hal Hlow%similar_lt. split.
    + intros Hsim%similar_ge. by rewrite match_candidates_cons, Ha, Hlow, Hal, Hsim.
    + intros Hlow'%similar_lt. by rewrite match_candidates_cons, Ha, Hlow, Hal, Hlow'.
  - intros search Hread. induction Hread as [|c search (a & al & Ha & Hal) _ IH]; [done|].
    rewrite match_candidates_cons, Ha, Hal. cbn [List.find]. unfold accepts at 1.
    rewrite Ha, Hal.
    destruct (similar a (artist track)); [done|].
    destruct (similar al (album track)); [done|]. exact IH.
Qed.

Lemma threshold_property_witness :
  match_candidates Demo.t_song [Demo.c_jazz; Demo.c_queen] [] (Demo.w_up [])
  = (Ret ([Demo.c_jazz], true), Demo.w_up [], []).
Proof.
  assert (Difflib.quick_ratio (Str.lower "Various") (Str.lower "Queen") < 9 # 10)%Q
    as Hartist by (vm_compute; reflexivity).
  assert (9 # 10 <= Difflib.quick_ratio (Str.lower "JAZZ") (Str.lower "Jazz"))%Q
    as Halbum by (vm_compute; discriminate).
  exact (proj1 (proj1 (proj2 (threshold_property Demo.t_song Demo.c_jazz [Demo.c_queen]
                                [] (Demo.w_up [])))
                  "Various" "JAZZ" eq_refl eq_refl Hartist) Halbum).
Defined.

(** C7, as the code has it. An [IndexError] raised while reading a
    candidate's artist or album is caught: the candidate is skipped with a log
    line and the loop goes on with the next candidate, so candidates whose
    reads raise nothing but [IndexError] never abort the resolution. An
    exception of any other class raised by such a read is not caught: it
    leaves the loop and is raised to the caller. *)
Theorem index_error_skips_candidate track s rest plex_tracks w :
  (∀ e, is_IndexError e = true →
     track_artist s = inl e ∨
     (∃ a, track_artist s = inr a ∧ similar a (artist track) = false ∧
           track_album s = inl e) →
     match_candidates track (s :: rest) plex_tracks w =
     match match_candidates track rest plex_tracks w with
     | (r, w', evs) => (r, w', mismatch_log track :: evs)
     end) ∧
  (∀ search,
     Forall (fun c => meta_ok (track_artist c) = true ∧ meta_ok (track_album c) = true)
       search →
     ∃ plex_tracks' found evs,
       match_candidates track search plex_tracks w = (Ret (plex_tracks', found), w, evs)) ∧
  (∀ e, is_IndexError e = false →
     track_artist s = inl e ∨
     (∃ a, track_artist s = inr a ∧ similar a (artist track) = false ∧
           track_album s = inl e) →
     match_candidates track (s :: rest) plex_tracks w = (Raise e, w, [])).
Proof.
  split; [|split].
  - intros e He [Ha|(a & Ha & Hlow & Hal)]; rewrite match_candidates_cons.
    + by rewrite Ha, He.
    + by rewrite Ha, Hlow, Hal, He.
  - intros search Hok.
    pose proof (match_candidates_spec track search plex_tracks w) as H.
    destruct (match_candidates track search plex_tracks w) as [[r w'] evs].
    destruct H as (-> & _ & Hr).
    destruct r as [[plex_tracks' found]|e|]; [eauto| |done].
    destruct Hr as (He & c & Hin & Hc).
    rewrite Forall_forall in Hok. destruct (Hok c Hin) as [Hoka Hokal].
    destruct Hc as [Hc|Hc]; rewrite Hc in *; cbn in *; congruence.
  - intros e He [Ha|(a & Ha & Hlow & Hal)]; rewrite match_candidates_cons.
    + by rewrite Ha, He.
    + by rewrite Ha, Hlow, Hal, He.
Qed.

Lemma index_error_skips_candidate_witness :
  match_candidates Demo.t_song [Demo.c_broken; Demo.c_queen] [] (Demo.w_up [])
  = (Ret ([Demo.c_queen], true), Demo.w_up [], [mismatch_log Demo.t_song]).
Proof.
  rewrite (proj1 (index_error_skips_candidate Demo.t_song Demo.c_broken [Demo.c_queen]
                    [] (Demo.w_up []))
             IndexError eq_refl (or_introl eq_refl)).
  vm_compute. reflexivity.
Defined.

(** C7 as stated fails: reading the artist of the first candidate raises
    [NotFound]; the candidate is not skipped, the second candidate (which
    matches) is never examined, and the resolution of the track list is
    aborted by that exception. *)
Lemma metadata_failure_counterexample :
  (_get_available_plex_tracks 1 Demo.plex0 [Demo.t_song] Demo.ui
     (Demo.w_up [Demo.c_gone; Demo.c_queen])).1.1 = Raise NotFound
  ∧ accepts Demo.t_song Demo.c_queen = true.
Proof. split; vm_compute; reflexivity. Qed.

(** C3, as the code has it. For one track, [saveSearch] is called a second
    time, with the part of the title before the first "(" and the same media
    type and limit, exactly when the first query did not fail permanently and
    either yielded no candidate or the title contains a "(". After a first
    query that failed permanently there is no second query and the track has
    no candidates. For a title without "(" and a non-empty first answer there
    is one query only. When the second query does not fail permanently its
    results come after those of the first. *)
Theorem retry_rule fuel userInputs plex track w plex' search w' evs :
  search_track fuel userInputs plex track w = (Ret (plex', search), w', evs) →
  ∃ first,
    (answered evs = [(title track, "track", 5, first)] ∧ search = first ∧
     (first = None ∨
      ∃ results, first = Some results ∧ results ≠ [] ∧
                 Str.contains "(" (title track) = false))
    ∨
    (∃ results second,
       first = Some results ∧
       (results = [] ∨ Str.contains "(" (title track) = true) ∧
       answered evs = [(title track, "track", 5, Some results);
                       (Str.before "(" (title track), "track", 5, second)] ∧
       search = Some (results ++ default [] second)).
Proof. apply search_track_queries. Qed.

Lemma retry_rule_witness :
  ∃ first,
    (answered (search_track 1 Demo.ui Demo.plex0 Demo.t_song
                 (Demo.w_up [Demo.c_queen])).2
     = [("Song (feat. X)", "track", 5, first)] ∧ Some [Demo.c_queen] = first ∧
     (first = None ∨
      ∃ results, first = Some results ∧ results ≠ [] ∧
                 Str.contains "(" "Song (feat. X)" = false))
    ∨
    (∃ results second,
       first = Some results ∧
       (results = [] ∨ Str.contains "(" "Song (feat. X)" = true) ∧
       answered (search_track 1 Demo.ui Demo.plex0 Demo.t_song
                   (Demo.w_up [Demo.c_queen])).2
       = [("Song (feat. X)", "track", 5, Some results);
          (Str.before "(" "Song (feat. X)", "track", 5, second)] ∧
       Some [Demo.c_queen] = Some (results ++ default [] second)).
Proof.
  exact (retry_rule 1 Demo.ui Demo.plex0 Demo.t_song (Demo.w_up [Demo.c_queen])
           {| srv_id := 100 |} (Some [Demo.c_queen]) _ _ eq_refl).
Defined.

(** C3 as stated fails: the first query of a track whose title contains "("
    fails permanently; the specification counts that as zero candidates and
    asks for a second query, but the resolution makes the one search call
    only and ends without candidates. *)
Lemma retry_rule_counterexample :
  spec_retry None (title Demo.t_song) = true ∧
  search_track 3 Demo.ui Demo.plex0 Demo.t_song (Demo.w_fail BadRequest [Demo.c_queen])
  = (Ret (Demo.plex0, None), advance (Demo.w_fail BadRequest [Demo.c_queen]),
     [EvSearch Demo.plex0 "Song (feat. X)" "track" 5 (inl BadRequest);
      EvLog "failed to search %s on plex" ["Song (feat. X)"]]).
Proof. split; vm_compute; reflexivity. Qed.

(** C10. For a track whose title begins with "(", once the first query has
    come back with results (it did not fail permanently), the relaxed query
    is issued all the same, and its search string is the empty string: the
    next call after the first query's events and the retry log line is a
    search for "" with media type "track" and limit 5, on the connection the
    first query handed back. *)
Theorem leading_parenthesis_retry fuel userInputs plex track rest w
    plex1 results w1 evs1 :
  title track = String "(" rest →
  saveSearch fuel userInputs plex (title track) "track" 5 w
  = (Ret (plex1, Some results), w1, evs1) →
  ∃ r evs',
    (search_track fuel userInputs plex track w).2
    = evs1 ++ [EvLog "retrying search for %s" [title track];
               EvSearch plex1 "" "track" 5 r] ++ evs'.
Proof.
  intros Htitle Hfirst. rewrite search_track_eq, Hfirst.
  assert (wants_retry (Some results) (title track) = true) as ->.
  { unfold wants_retry. rewrite split_length, Htitle, contains_leading.
    apply orb_true_r. }
  cbn zeta. rewrite split_item0, Htitle, before_leading.
  destruct fuel as [|fuel]; [done|].
  destruct (saveSearch_first_call fuel userInputs plex1 "" "track" 5 w1)
    as (r & evs' & Hcall).
  destruct (saveSearch (S fuel) userInputs plex1 "" "track" 5 w1)
    as [[[[plex2 searchNew]|e|] w2] evs2]; cbn in Hcall; subst evs2;
    by exists r, evs'.
Qed.

Lemma leading_parenthesis_retry_witness :
  ∃ r evs',
    (search_track 1 Demo.ui Demo.plex0 Demo.t_intro (Demo.w_up [Demo.c_queen])).2
    = [EvSearch Demo.plex0 "(Intro) Song" "track" 5 (inr [])]
      ++ [EvLog "retrying search for %s" ["(Intro) Song"];
          EvSearch Demo.plex0 "" "track" 5 r] ++ evs'.
Proof.
  exact (leading_parenthesis_retry 1 Demo.ui Demo.plex0 Demo.t_intro "Intro) Song"
           (Demo.w_up [Demo.c_queen]) Demo.plex0 [] _ _ eq_refl eq_refl).
Defined.

(** C1. When a resolution pass over a track list returns, every input
    descriptor has been classified once: there is one outcome per input
    track, in order, which is either the accepted candidate or none; the
    resolved sequence is exactly the accepted candidates, one entry each, and
    the missing sequence is exactly the descriptors with no accepted
    candidate. So a descriptor never counts in both, and the two lengths add
    up to the number of input tracks. *)
Theorem resolution_partition fuel plex tracks userInputs w resolved missing w' evs :
  _get_available_plex_tracks fuel plex tracks userInputs w
  = (Ret (resolved, missing), w', evs) →
  ∃ cls : list (Track * option PlexTrack),
    cls.*1 = tracks ∧
    resolved = omap snd cls ∧
    missing = omap (fun c => match c.2 with None => Some c.1 | Some _ => None end) cls ∧
    length resolved + length missing = length tracks.
Proof.
  intros Hrun.
  pose proof (get_available_spec fuel plex tracks userInputs w) as H.
  rewrite Hrun in H. destruct H as (_ & _ & _ & cls & Hcls & -> & ->).
  exists cls. split; [done|]. split; [done|]. split; [done|].
  by rewrite classified_length, <- Hcls, length_fmap.
Qed.

Lemma resolution_partition_witness :
  ∃ cls : list (Track * option PlexTrack),
    cls.*1 = [Demo.t_song; Demo.t_plain] ∧
    [Demo.c_queen] = omap snd cls ∧
    [Demo.t_plain]
    = omap (fun c => match c.2 with None => Some c.1 | Some _ => None end) cls ∧
    length [Demo.c_queen] + length [Demo.t_plain]
    = length [Demo.t_song; Demo.t_plain].
Proof.
  exact (resolution_partition 1 Demo.plex0 [Demo.t_song; Demo.t_plain] Demo.ui
           (Demo.w_up [Demo.c_other; Demo.c_queen])
           [Demo.c_queen] [Demo.t_plain] _ _ eq_refl).
Defined.

(** C5. When the resolution of a playlist's tracks yields no resolved track,
    the pass makes no playlist call at all (no lookup, creation, removeItems,
    addItems, edit or uploadPoster), returns normally, and leaves the remote
    playlists as they were. *)
Theorem empty_resolution_no_mutation fuel plex playlist tracks userInputs w
    missing w1 evs1 :
  _get_available_plex_tracks fuel plex tracks userInputs w
  = (Ret ([], missing), w1, evs1) →
  ∃ w' evs,
    update_or_create_plex_playlist fuel plex playlist tracks userInputs w
    = (Ret tt, w', evs) ∧
    w_playlists w' = w_playlists w ∧
    Forall (fun ev => is_playlist_call ev = false) evs.
Proof.
  intros Hrun. rewrite (update_or_create_eq _ _ _ _ _ _ _ _ _ _ Hrun).
  rewrite apply_playlist_empty.
  pose proof (get_available_spec fuel plex tracks userInputs w) as Hres.
  rewrite Hrun in Hres. destruct Hres as ((_ & _ & Hpl & _) & _ & Hquiet & _).
  pose proof (record_missing_spec playlist userInputs missing w1) as Hrec.
  destruct (record_missing playlist userInputs missing w1) as [[r w3] evs3].
  destruct Hrec as (-> & Hpl3 & Hev3).
  eexists _, _. split; [reflexivity|]. split; [congruence|].
  apply Forall_app. split.
  - eapply Forall_impl; [exact Hquiet|]. by intros ev [? _].
  - by constructor.
Qed.

Lemma empty_resolution_no_mutation_witness :
  ∃ w' evs,
    update_or_create_plex_playlist 1 Demo.plex0 Demo.p_mix [Demo.t_song] Demo.ui
      (Demo.w_up [Demo.c_other])
    = (Ret tt, w', evs) ∧
    w_playlists w' = w_playlists (Demo.w_up [Demo.c_other]) ∧
    Forall (fun ev => is_playlist_call ev = false) evs.
Proof.
  exact (empty_resolution_no_mutation 1 Demo.plex0 Demo.p_mix [Demo.t_song] Demo.ui
           (Demo.w_up [Demo.c_other]) [Demo.t_song] _ _ eq_refl).
Defined.




(** C6. With [write_missing_as_csv] on, once the pass has resolved the tracks
    and dealt with the remote playlist, it ends normally, whatever the file
    system does. If there are missing tracks, the record of the playlist's
    name is written: when none of the calls of the write raises (creating the
    folder, opening the file, writing the header row and one row per missing
    track, closing the file), the file holds the header row (title, artist,
    album, url) followed by one row per missing track with these fields; when
    one of them raises, the failure is logged, no other file has changed, and
    if it was the creation of the folder or the opening of the file the files
    are as they were. If no track is missing, the record of the playlist's
    name is deleted when it exists and the call does not raise; otherwise the
    files are left as they were and the failure is logged. *)
Theorem missing_record_lifecycle fuel plex playlist tracks userInputs w
    available missing w1 evs1 w2 evs2 :
  _get_available_plex_tracks fuel plex tracks userInputs w
  = (Ret (available, missing), w1, evs1) →
  apply_playlist plex playlist userInputs available w1 = (Ret tt, w2, evs2) →
  write_missing_as_csv userInputs = true →
  let file := csv_path "/data" (name playlist) in
  ∃ w3 evs3,
    update_or_create_plex_playlist fuel plex playlist tracks userInputs w
    = (Ret tt, w3, evs1 ++ evs2 ++ evs3) ∧
    (missing ≠ [] →
       ((∀ t, w_clock w2 ≤ t < w_clock w2 + (length missing + 4) → w_fault w2 t = None) →
          w_files w3 = <[file := Track_annotations :: map csv_row missing]> (w_files w2) ∧
          last evs3 = Some (EvLog "Missing tracks written to %s.csv" [name playlist])) ∧
       ((∃ t, w_clock w2 ≤ t < w_clock w2 + (length missing + 4) ∧ w_fault w2 t ≠ None) →
          last evs3 = Some (EvLog "Failed to write missing tracks for %s, likely permission issue"
                              [name playlist]) ∧
          (∀ other, other ≠ file → w_files w3 !! other = w_files w2 !! other) ∧
          (w_fault w2 (w_clock w2) ≠ None ∨ w_fault w2 (S (w_clock w2)) ≠ None →
           w_files w3 = w_files w2))) ∧
    (missing = [] →
       (w_fault w2 (w_clock w2) = None → is_Some (w_files w2 !! file) →
          w_files w3 = delete file (w_files w2) ∧
          last evs3 = Some (EvLog "Deleted old %s.csv" [name playlist])) ∧
       (w_fault w2 (w_clock w2) ≠ None ∨ w_files w2 !! file = None →
          w_files w3 = w_files w2 ∧
          last evs3 = Some (EvLog "Failed to delete %s.csv, likely permission issue"
                              [name playlist]))).
Proof.
  intros Hrun Happly Hon file.
  rewrite (update_or_create_eq _ _ _ _ _ _ _ _ _ _ Hrun), Happly.
  destruct (record_missing_cases playlist userInputs missing w2 Hon)
    as (w3 & evs3 & -> & Hcases).
  by exists w3, evs3.
Qed.

Lemma missing_record_lifecycle_witness :
  (∃ w3 evs,
     update_or_create_plex_playlist 1 Demo.plex0 Demo.p_mix [Demo.t_plain] Demo.ui
       (Demo.w_up [Demo.c_queen]) = (Ret tt, w3, evs) ∧
     w_files w3 !! "/data/Mix.csv" = Some [Track_annotations; csv_row Demo.t_plain])
  ∧
  (∃ w3 evs,
     update_or_create_plex_playlist 1 Demo.plex0 Demo.p_mix [Demo.t_song] Demo.ui
       (Demo.w_recorded [Demo.c_queen]) = (Ret tt, w3, evs) ∧
     w_files w3 !! "/data/Mix.csv" = None).
Proof.
  split.
  - destruct (missing_record_lifecycle 1 Demo.plex0 Demo.p_mix [Demo.t_plain] Demo.ui
                (Demo.w_up [Demo.c_queen]) [] [Demo.t_plain] _ _ _ _
                eq_refl eq_refl eq_refl) as (w3 & evs3 & Hrun & Hwrite & _).
    destruct (proj1 (Hwrite ltac:(discriminate)) (fun t _ => eq_refl)) as [Hfiles _].
    eexists w3, _. split; [exact Hrun|]. rewrite Hfiles. apply lookup_insert_eq.
  - destruct (missing_record_lifecycle 1 Demo.plex0 Demo.p_mix [Demo.t_song] Demo.ui
                (Demo.w_recorded [Demo.c_queen]) [Demo.c_queen] [] _ _ _ _
                eq_refl eq_refl eq_refl) as (w3 & evs3 & Hrun & _ & Hdelete).
    destruct (proj1 (Hdelete eq_refl) eq_refl) as [Hfiles _].
    { vm_compute. eauto. }
    eexists w3, _. split; [exact Hrun|]. rewrite Hfiles. apply lookup_delete_eq.
Defined.

(** C9, evaluated where the code departs from it. The first search of the
    pass raises a connection error; [saveSearch] reconnects and the searches
    go on through the new connection (id 1), which is the one the last search
    hands back. The playlist lookup, the item calls and the description edit
    that follow all go through the connection the pass started with (id 100). *)
Lemma stale_connection_after_reconnect :
  let w := Demo.w_fail (OtherException "ConnectionError") [Demo.c_queen] in
  let run := update_or_create_plex_playlist 2 Demo.plex0 Demo.p_mix [Demo.t_song]
               Demo.ui w in
  run.1.1 = Ret tt ∧
  last_search_connection run.2 = Some {| srv_id := 1 |} ∧
  omap connection_of (List.filter is_playlist_call run.2)
  = [Demo.plex0; Demo.plex0; Demo.plex0; Demo.plex0; Demo.plex0] ∧
  Demo.plex0 ≠ {| srv_id := 1 |}.
Proof. repeat split; try (vm_compute; reflexivity). discriminate. Qed.


(** * Further properties of the engine *)

(** ** The similarity test *)

Lemma occ_remove_one_eq c b : occ c (remove_one c b) = pred (occ c b).
Proof.
  induction b as [|x b IH]; [done|]. cbn.
  destruct (Ascii.eqb x c) eqn:Hx; [done|]. cbn. by rewrite Hx.
Qed.

Lemma occ_remove_one_ne c d b : c ≠ d → occ c (remove_one d b) = occ c b.
Proof.
  intros Hne. induction b as [|x b IH]; [done|]. cbn.
  destruct (Ascii.eqb x d) eqn:Hd.
  - apply Ascii.eqb_eq in Hd as ->.
    destruct (Ascii.eqb d c) eqn:Hc; [|done].
    apply Ascii.eqb_eq in Hc. congruence.
  - cbn. by rewrite IH.
Qed.

Lemma length_remove_one c b : length (remove_one c b) = length b - min 1 (occ c b).
Proof.
  induction b as [|x b IH]; [done|]. cbn.
  destruct (Ascii.eqb x c); cbn; [lia|]. rewrite IH.
  destruct (occ c b) eqn:Ho; cbn; [lia|].
  assert (0 < length b); [|lia]. destruct b; [done|cbn; lia].
Qed.

Lemma occ_le_length c b : occ c b ≤ length b.
Proof. induction b as [|x b IH]; cbn; [done|]. destruct (Ascii.eqb x c); lia. Qed.

Lemma common_le_left a b : common a b ≤ length a.
Proof.
  revert b. induction a as [|x a IH]; intros b; cbn; [done|].
  destruct (occ x b); [specialize (IH b)|specialize (IH (remove_one x b))]; lia.
Qed.

Lemma common_le_right a b : common a b ≤ length b.
Proof.
  revert b. induction a as [|x a IH]; intros b; cbn; [lia|].
  destruct (occ x b) eqn:Ho; [apply IH|].
  specialize (IH (remove_one x b)). rewrite length_remove_one, Ho in IH.
  pose proof (occ_le_length x b). cbn in IH. lia.
Qed.

Lemma common_same a : common a a = length a.
Proof.
  induction a as [|x a IH]; [done|]. cbn. by rewrite Ascii.eqb_refl, IH.
Qed.

Lemma common_nil_r a : common a [] = 0.
Proof. by induction a. Qed.

Lemma fullbcount_occ b c :
  default 0%Z (Difflib.fullbcount b !! c) = Z.of_nat (occ c b).
Proof.
  unfold Difflib.fullbcount.
  assert (∀ m : gmap ascii Z,
            default 0%Z
              (foldl (fun m elt => <[elt := (default 0 (m !! elt) + 1)%Z]> m) m b !! c)
            = (default 0 (m !! c) + Z.of_nat (occ c b))%Z) as H.
  { induction b as [|x b IH]; intros m; cbn [foldl occ]; [lia|].
    rewrite IH. destruct (Ascii.eqb x c) eqn:Hx.
    - apply Ascii.eqb_eq in Hx as ->. rewrite lookup_insert_eq. cbn. lia.
    - apply Ascii.eqb_neq in Hx. rewrite lookup_insert_ne by done. cbn. lia. }
  rewrite H, lookup_empty. cbn. lia.
Qed.

Lemma count_matches_common full avail a b matches :
  (∀ c, Z.max (left_of full avail c) 0 = Z.of_nat (occ c b)) →
  Difflib.count_matches full avail a matches = matches + common a b.
Proof.
  revert avail b matches. induction a as [|x a IH]; intros avail b matches Hinv.
  - cbn. lia.
  - cbn [Difflib.count_matches common]. fold (left_of full avail x).
    pose proof (Hinv x) as Hx.
    destruct (0 <? left_of full avail x)%Z eqn:Hpos.
    + apply Z.ltb_lt in Hpos.
      destruct (occ x b) as [|n] eqn:Ho; [lia|].
      rewrite (IH _ (remove_one x b)); [lia|].
      intros c. unfold left_of in *. destruct (decide (c = x)) as [->|Hne].
      * rewrite lookup_insert_eq, occ_remove_one_eq, Ho. cbn [pred]. lia.
      * rewrite lookup_insert_ne by done. rewrite occ_remove_one_ne by done.
        apply Hinv.
    + apply Z.ltb_ge in Hpos.
      destruct (occ x b) as [|n] eqn:Ho; [|lia].
      rewrite (IH _ b); [done|].
      intros c. unfold left_of in *. destruct (decide (c = x)) as [->|Hne].
      * rewrite lookup_insert_eq, Ho. lia.
      * rewrite lookup_insert_ne by done. apply Hinv.
Qed.

Lemma quick_ratio_common a b :
  Difflib.quick_ratio a b
  = Difflib._calculate_ratio (common (Str.chars a) (Str.chars b))
      (length (Str.chars a) + length (Str.chars b)).
Proof.
  unfold Difflib.quick_ratio. cbn zeta. f_equal.
  rewrite (count_matches_common _ _ _ (Str.chars b)); [done|].
  intros c. unfold left_of. rewrite lookup_empty, fullbcount_occ. lia.
Qed.

Lemma chars_nil s : Str.chars s = [] → s = "".
Proof. by destruct s. Qed.

Lemma lower_nil s : Str.lower s = "" → s = "".
Proof. by destruct s. Qed.

Lemma pos_of_nat_Z n : Z.pos (Pos.of_nat (S n)) = Z.of_nat (S n).
Proof. rewrite <- Pos.of_nat_succ, Zpos_P_of_succ_nat. lia. Qed.

Lemma similar_common a b :
  similar a b = true ↔
  9 * (length (Str.chars (Str.lower a)) + length (Str.chars (Str.lower b)))
  ≤ 20 * common (Str.chars (Str.lower a)) (Str.chars (Str.lower b)).
Proof.
  rewrite similar_ge, quick_ratio_common. unfold Difflib._calculate_ratio.
  destruct (length (Str.chars (Str.lower a)) + length (Str.chars (Str.lower b)))
    as [|n] eqn:Hlen.
  - split; [lia|]. intros _. unfold Qle. cbn. lia.
  - unfold Qle. cbn [Qnum Qden]. rewrite pos_of_nat_Z. lia.
Qed.

(** X1. A candidate whose artist is the track's artist up to the case of
    ASCII letters is accepted at once: its similarity is 1.0, whatever the
    album and whatever candidates follow. *)
Theorem same_artist_accepted track s rest plex_tracks w a :
  track_artist s = inr a →
  Str.lower a = Str.lower (artist track) →
  match_candidates track (s :: rest) plex_tracks w
  = (Ret (plex_tracks ++ [s], true), w, []).
Proof.
  intros Ha Hsame. rewrite match_candidates_cons, Ha.
  assert (similar a (artist track) = true) as ->; [|done].
  apply similar_common. rewrite Hsame, common_same. lia.
Qed.

Lemma same_artist_accepted_witness :
  match_candidates Demo.t_song [Demo.c_queen; Demo.c_other] [] (Demo.w_up [])
  = (Ret ([Demo.c_queen], true), Demo.w_up [], []).
Proof.
  exact (same_artist_accepted Demo.t_song Demo.c_queen [Demo.c_other] []
           (Demo.w_up []) "queen" eq_refl eq_refl).
Defined.

(** X2. The similarity ratio the engine compares with 0.9 lies between 0 and
    1: it is twice the number of characters the two texts share (with
    multiplicity) over their combined length, and 1 when both are empty. *)
Theorem quick_ratio_range a b :
  (0 <= Difflib.quick_ratio a b)%Q ∧ (Difflib.quick_ratio a b <= 1)%Q ∧
  Difflib.quick_ratio a b
  = match length (Str.chars a) + length (Str.chars b) with
    | O => 1%Q
    | S n => Qmake (2 * Z.of_nat (common (Str.chars a) (Str.chars b)))
               (Pos.of_nat (S n))
    end.
Proof.
  rewrite quick_ratio_common. unfold Difflib._calculate_ratio.
  pose proof (common_le_left (Str.chars a) (Str.chars b)).
  pose proof (common_le_right (Str.chars a) (Str.chars b)).
  destruct (length (Str.chars a) + length (Str.chars b)) as [|n] eqn:Hlen.
  - repeat split; unfold Qle; cbn; lia.
  - repeat split; unfold Qle; cbn [Qnum Qden]; rewrite ?pos_of_nat_Z; lia.
Qed.

(** X3. An empty text is similar to the empty text only: when the track's
    artist (or album) is empty, a candidate passes that test exactly when its
    own artist (or album) title is empty, and the other way round. *)
Theorem similar_empty a :
  (similar a "" = true ↔ a = "") ∧ (similar "" a = true ↔ a = "").
Proof.
  split; rewrite similar_common; cbn [Str.lower Str.chars list_ascii_of_string length common].
  - rewrite common_nil_r. split.
    + intros H. apply lower_nil, chars_nil.
      destruct (Str.chars (Str.lower a)); [done|cbn in H; lia].
    + intros ->. cbn. lia.
  - split.
    + intros H. apply lower_nil, chars_nil.
      destruct (Str.chars (Str.lower a)); [done|cbn in H; lia].
    + intros ->. cbn. lia.
Qed.

(** ** The relaxed query *)

Lemma before_no_sep c s : Str.contains c (Str.before c s) = false.
Proof.
  induction s as [|x s IH]; [done|]. cbn.
  destruct (Ascii.eqb x c) eqn:Hx; [done|]. cbn. by rewrite Hx.
Qed.

Lemma before_prefix c s :
  ∃ rest, s = Str.before c s +:+ rest ∧
          (Str.contains c s = true → ∃ rest', rest = String c rest').
Proof.
  induction s as [|x s (rest & IH & Hrest)]; [by exists ""|]. cbn.
  destruct (Ascii.eqb x c) eqn:Hx.
  - apply Ascii.eqb_eq in Hx as ->. exists (String c s). split; [done|eauto].
  - exists rest. split; [|done].
    change (String x s = String x (Str.before c s +:+ rest)). by rewrite <- IH.
Qed.

Lemma before_id c s : Str.before c s = s ↔ Str.contains c s = false.
Proof.
  induction s as [|x s IH]; [done|]. cbn.
  destruct (Ascii.eqb x c); cbn; [done|]. rewrite <- IH. split; congruence.
Qed.

(** X4. The search string of the relaxed query is the part of the title
    before its first "(": it contains no "(", the title is that string
    followed by a rest which begins with "(" when the title has one, and the
    relaxed string is the whole title exactly when the title has no "(". *)
Theorem relaxed_query_prefix title :
  Str.contains "(" (relaxed title) = false ∧
  (∃ rest, title = relaxed title +:+ rest ∧
           (Str.contains "(" title = true → ∃ rest', rest = String "(" rest')) ∧
  (relaxed title = title ↔ Str.contains "(" title = false).
Proof.
  unfold relaxed. rewrite split_item0.
  split; [apply before_no_sep|]. split; [apply before_prefix|apply before_id].
Qed.

(** X5. For a track whose title has no "(", a run of the two searches that
    returns either made the one query (which failed permanently or gave
    candidates), or found nothing and made the very same query a second
    time: same search string, media type and limit. *)
Theorem plain_title_retry_repeats fuel userInputs plex track w plex' search w' evs :
  Str.contains "(" (title track) = false →
  search_track fuel userInputs plex track w = (Ret (plex', search), w', evs) →
  (∃ first, answered evs = [(title track, "track", 5, first)] ∧
            first ≠ Some [] ∧ search = first)
  ∨
  (∃ second, answered evs = [(title track, "track", 5, Some []);
                             (title track, "track", 5, second)] ∧
             search = Some (default [] second)).
Proof.
  intros Hplain Hrun.
  destruct (search_track_queries _ _ _ _ _ _ _ _ _ Hrun)
    as (first & [(Hans & -> & Hfirst)|(results & second & -> & Hwhy & Hans & ->)]).
  - left. exists first. split; [done|]. split; [|done].
    destruct Hfirst as [->|(results & -> & Hne & _)]; congruence.
  - right. exists second. destruct Hwhy as [->|Hparen]; [|congruence].
    rewrite (proj2 (before_id _ _) Hplain) in Hans. done.
Qed.

Lemma plain_title_retry_repeats_witness :
  (∃ first,
     answered (search_track 1 Demo.ui Demo.plex0 Demo.t_plain (Demo.w_up [])).2
     = [("Plain", "track", 5, first)] ∧ first ≠ Some [] ∧ Some [] = first)
  ∨
  (∃ second,
     answered (search_track 1 Demo.ui Demo.plex0 Demo.t_plain (Demo.w_up [])).2
     = [("Plain", "track", 5, Some []); ("Plain", "track", 5, second)] ∧
     Some [] = Some (default [] second)).
Proof.
  exact (plain_title_retry_repeats 1 Demo.ui Demo.plex0 Demo.t_plain (Demo.w_up [])
           Demo.plex0 (Some []) _ _ eq_refl eq_refl).
Defined.

(** ** What a track resolves to *)

Lemma only_logs_no_answer evs : only_logs evs → answered evs = [].
Proof. induction 1 as [|ev evs Hev _ IH]; [done|]. by destruct ev. Qed.

Lemma only_logs_no_search evs : only_logs evs → search_calls evs = [].
Proof. induction 1 as [|ev evs Hev _ IH]; [done|]. by destruct ev. Qed.

Lemma match_candidates_find track search plex_tracks w plex_tracks' found w' evs :
  match_candidates track search plex_tracks w = (Ret (plex_tracks', found), w', evs) →
  match List.find (accepts track) search with
  | Some s => found = true ∧ plex_tracks' = plex_tracks ++ [s]
  | None => found = false ∧ plex_tracks' = plex_tracks
  end.
Proof.
  revert evs. induction search as [|s rest IH]; intros evs.
  { by intros [= <- <- _ _]. }
  rewrite match_candidates_cons. cbn zeta. cbn [List.find]. unfold accepts at 1.
  assert (∀ evs0,
            match match_candidates track rest plex_tracks w with
            | (r, w0, evs1) => (r, w0, mismatch_log track :: evs1)
            end = (Ret (plex_tracks', found), w', evs0) →
            match List.find (accepts track) rest with
            | Some s0 => found = true ∧ plex_tracks' = plex_tracks ++ [s0]
            | None => found = false ∧ plex_tracks' = plex_tracks
            end) as Hskip.
  { intros evs0.
    destruct (match_candidates track rest plex_tracks w) as [[r w0] evs1].
    intros [= -> -> _]. by apply (IH evs1). }
  destruct (track_artist s) as [e|a].
  - destruct (is_IndexError e); [apply Hskip|done].
  - destruct (similar a (artist track)); [by intros [= <- <- _ _]|]. cbn [orb].
    destruct (track_album s) as [e|al].
    + destruct (is_IndexError e); [apply Hskip|done].
    + destruct (similar al (album track)); [by intros [= <- <- _ _]|]. apply IH.
Qed.

Lemma search_track_full fuel userInputs plex track w plex' search w' evs :
  search_track fuel userInputs plex track w = (Ret (plex', search), w', evs) →
  Forall (asks_for track) (search_calls evs) ∧
  1 ≤ length (answered evs) ≤ 2 ∧
  default [] search = candidates_of evs.
Proof.
  intros Hrun. split; [|split].
  - rewrite search_track_eq in Hrun.
    pose proof (saveSearch_spec fuel userInputs plex (title track) "track" 5 w) as H1.
    destruct (saveSearch fuel userInputs plex (title track) "track" 5 w)
      as [[[[plex1 first]|e|] w1] evs1]; [|done..].
    destruct H1 as (_ & _ & _ & Hasks1 & _).
    assert (Forall (asks_for track) (search_calls evs1)) as Hfor1.
    { eapply Forall_impl; [exact Hasks1|]. intros c (Hq & Hmt & Hlim).
      split; [by left|done]. }
    destruct (wants_retry first (title track)); [|by injection Hrun as <- <- <- <-].
    cbn zeta in Hrun.
    pose proof (saveSearch_spec fuel userInputs plex1
                  (Str.item0 (Str.split "(" (title track))) "track" 5 w1) as H2.
    destruct (saveSearch fuel userInputs plex1 _ "track" 5 w1)
      as [[[[plex2 second]|e|] w2] evs2]; [|done..].
    destruct H2 as (_ & _ & _ & Hasks2 & _).
    injection Hrun as <- <- <- <-.
    rewrite search_calls_app. apply Forall_app. split; [done|].
    change (search_calls (EvLog ?f ?a :: evs2)) with (search_calls evs2).
    eapply Forall_impl; [exact Hasks2|]. intros c (Hq & Hmt & Hlim).
    split; [by right|done].
  - destruct (search_track_queries _ _ _ _ _ _ _ _ _ Hrun)
      as (first & [(-> & _)|(results & second & _ & _ & -> & _)]); cbn; lia.
  - unfold candidates_of.
    destruct (search_track_queries _ _ _ _ _ _ _ _ _ Hrun)
      as (first & [(-> & -> & _)|(results & second & _ & _ & -> & ->)]); cbn.
    + by rewrite app_nil_r.
    + by rewrite app_nil_r.
Qed.

Lemma resolve_track_full fuel userInputs track plex plex_tracks missing_tracks w
    plex' plex_tracks' missing_tracks' w' evs :
  resolve_track fuel userInputs track (plex, plex_tracks, missing_tracks) w
  = (Ret (plex', plex_tracks', missing_tracks'), w', evs) →
  Forall (asks_for track) (search_calls evs) ∧
  1 ≤ length (answered evs) ≤ 2 ∧
  match List.find (accepts track) (candidates_of evs) with
  | Some s => plex_tracks' = plex_tracks ++ [s] ∧ missing_tracks' = missing_tracks
  | None => plex_tracks' = plex_tracks ∧ missing_tracks' = missing_tracks ++ [track]
  end.
Proof.
  unfold resolve_track. rewrite run_bind.
  destruct (search_track fuel userInputs plex track w)
    as [[[[plex1 search]|e|] w1] evs1] eqn:Hsearch; [|done..].
  destruct (search_track_full _ _ _ _ _ _ _ _ _ Hsearch) as (Hasks & Hcount & Hcands).
  rewrite run_bind.
  destruct search as [[|s rest]|].
  - rewrite !run_ret. intros [= <- <- <- <- <-]. rewrite !app_nil_r.
    rewrite <- Hcands. done.
  - destruct (match_candidates track (s :: rest) plex_tracks w1)
      as [[[[plex_tracks1 found]|e|] w2] evs2] eqn:Hmatch; [|done..].
    pose proof (match_candidates_spec track (s :: rest) plex_tracks w1) as Hspec.
    rewrite Hmatch in Hspec. destruct Hspec as (_ & Hlogs & _).
    pose proof (match_candidates_find _ _ _ _ _ _ _ _ Hmatch) as Hfind.
    assert (search_calls (evs1 ++ evs2 ++ []) = search_calls evs1) as Hsc.
    { by rewrite !search_calls_app, (only_logs_no_search _ Hlogs), !app_nil_r. }
    assert (answered (evs1 ++ evs2 ++ []) = answered evs1) as Han.
    { by rewrite !answered_app, (only_logs_no_answer _ Hlogs), !app_nil_r. }
    assert (candidates_of (evs1 ++ evs2 ++ []) = s :: rest) as Hca.
    { unfold candidates_of. rewrite Han. fold (candidates_of evs1). by rewrite <- Hcands. }
    destruct found; rewrite run_ret; intros [= <- <- <- <- <-];
      rewrite Hsc, Han, Hca; (split; [done|]); (split; [done|]);
      cbn [default from_option] in Hcands;
      destruct (List.find (accepts track) (s :: rest)); by destruct Hfind.
  - rewrite !run_ret. intros [= <- <- <- <- <-]. rewrite !app_nil_r.
    rewrite <- Hcands. done.
Qed.

Lemma candidates_of_app evs1 evs2 :
  candidates_of (evs1 ++ evs2) = candidates_of evs1 ++ candidates_of evs2.
Proof. unfold candidates_of. by rewrite answered_app, map_app, concat_app. Qed.

Lemma resolve_tracks_full fuel userInputs tracks plex plex_tracks missing_tracks w
    plex' plex_tracks' missing_tracks' w' evs :
  resolve_tracks fuel userInputs tracks (plex, plex_tracks, missing_tracks) w
  = (Ret (plex', plex_tracks', missing_tracks'), w', evs) →
  ∃ cls : list (Track * option PlexTrack),
    cls.*1 = tracks ∧
    plex_tracks' = plex_tracks ++ resolved_of cls ∧
    missing_tracks' = missing_tracks ++ missing_of cls ∧
    Forall (fun c => ∀ s, c.2 = Some s →
                          accepts c.1 s = true ∧ s ∈ candidates_of evs) cls ∧
    length tracks ≤ length (answered evs) ≤ 2 * length tracks ∧
    Forall (fun c => ∃ track, track ∈ tracks ∧ asks_for track c) (search_calls evs).
Proof.
  revert plex plex_tracks missing_tracks w evs.
  induction tracks as [|track tracks IH];
    intros plex plex_tracks missing_tracks w evs.
  { intros [= <- <- <- <- <-]. exists []. rewrite !app_nil_r.
    repeat split; try done; try constructor; cbn; lia. }
  cbn [resolve_tracks]. rewrite run_bind.
  destruct (resolve_track fuel userInputs track (plex, plex_tracks, missing_tracks) w)
    as [[[[[plex1 plex_tracks1] missing1]|e|] w1] evs1] eqn:Hstep; [|done..].
  destruct (resolve_track_full _ _ _ _ _ _ _ _ _ _ _ _ Hstep) as (Hasks & Hcount & Hfind).
  destruct (resolve_tracks fuel userInputs tracks (plex1, plex_tracks1, missing1) w1)
    as [[r w2] evs2] eqn:Hrest.
  intros [= -> <- <-].
  destruct (IH _ _ _ _ _ Hrest)
    as (cls & Hcls & -> & -> & Hsound & Hcount2 & Hasks2).
  set (o := List.find (accepts track) (candidates_of evs1)) in *.
  exists ((track, o) :: cls).
  assert (plex_tracks1 = plex_tracks ++ resolved_of [(track, o)] ∧
          missing1 = missing_tracks ++ missing_of [(track, o)]) as [-> ->].
  { destruct o; destruct Hfind as [-> ->]; by rewrite ?app_nil_r. }
  split; [by rewrite <- Hcls|].
  change ((track, o) :: cls) with ([(track, o)] ++ cls).
  rewrite resolved_of_app, missing_of_app, !app_assoc.
  split; [done|]. split; [done|]. split; [|split].
  - apply Forall_app. split.
    + constructor; [|constructor]. cbn. intros s Hs.
      subst o. apply List.find_some in Hs as [Hin Hacc].
      split; [done|]. rewrite candidates_of_app. apply elem_of_app. left.
      by apply list_elem_of_In.
    + eapply Forall_impl; [exact Hsound|]. intros c Hc s Hs.
      destruct (Hc s Hs) as [Hacc Hin]. split; [done|].
      rewrite candidates_of_app. apply elem_of_app. by right.
  - rewrite answered_app, length_app. cbn [length]. lia.
  - rewrite search_calls_app. apply Forall_app. split.
    + eapply Forall_impl; [exact Hasks|]. intros c Hc. exists track.
      split; [apply list_elem_of_here|done].
    + eapply Forall_impl; [exact Hasks2|]. intros c (t & Hin & Hc). exists t.
      split; [by apply list_elem_of_further|done].
Qed.

Lemma get_available_full fuel plex tracks userInputs w resolved missing w' evs :
  _get_available_plex_tracks fuel plex tracks userInputs w
  = (Ret (resolved, missing), w', evs) →
  ∃ cls : list (Track * option PlexTrack),
    cls.*1 = tracks ∧ resolved = resolved_of cls ∧ missing = missing_of cls ∧
    Forall (fun c => ∀ s, c.2 = Some s →
                          accepts c.1 s = true ∧ s ∈ candidates_of evs) cls ∧
    length tracks ≤ length (answered evs) ≤ 2 * length tracks ∧
    Forall (fun c => ∃ track, track ∈ tracks ∧ asks_for track c) (search_calls evs).
Proof.
  unfold _get_available_plex_tracks. rewrite run_bind.
  destruct (resolve_tracks fuel userInputs tracks (plex, [], []) w)
    as [[[[[plex' plex_tracks] missing_tracks]|e|] w1] evs1] eqn:Hrun; [|done..].
  rewrite run_ret, app_nil_r. intros [= <- <- <- <-].
  destruct (resolve_tracks_full _ _ _ _ _ _ _ _ _ _ _ _ Hrun) as (cls & H).
  by exists cls.
Qed.

Lemma missing_of_sublist (cls : list (Track * option PlexTrack)) :
  missing_of cls `sublist_of` cls.*1.
Proof.
  unfold missing_of, omap.
  induction cls as [|[track [s|]] cls IH]; cbn; by constructor.
Qed.

(** X6. One round of the loop over the tracks resolves the track to the
    first candidate, in the order the answered searches gave them, that is
    acceptable (artist readable and similar, or artist and album readable
    and album similar), and adds the track to the missing ones when there is
    none; it makes one or two answered searches, each for the title or its
    relaxed form with media type "track" and limit 5. *)
Theorem track_outcome fuel userInputs track plex plex_tracks missing_tracks w
    plex' plex_tracks' missing_tracks' w' evs :
  resolve_track fuel userInputs track (plex, plex_tracks, missing_tracks) w
  = (Ret (plex', plex_tracks', missing_tracks'), w', evs) →
  Forall (asks_for track) (search_calls evs) ∧
  1 ≤ length (answered evs) ≤ 2 ∧
  match List.find (accepts track) (candidates_of evs) with
  | Some s => plex_tracks' = plex_tracks ++ [s] ∧ missing_tracks' = missing_tracks
  | None => plex_tracks' = plex_tracks ∧ missing_tracks' = missing_tracks ++ [track]
  end.
Proof. apply resolve_track_full. Qed.

Lemma track_outcome_witness :
  let evs := (resolve_track 1 Demo.ui Demo.t_song (Demo.plex0, [], [])
                (Demo.w_up [Demo.c_broken; Demo.c_other; Demo.c_jazz; Demo.c_queen])).2 in
  Forall (asks_for Demo.t_song) (search_calls evs) ∧
  1 ≤ length (answered evs) ≤ 2 ∧
  match List.find (accepts Demo.t_song) (candidates_of evs) with
  | Some s => [Demo.c_jazz] = [] ++ [s] ∧ @nil Track = []
  | None => [Demo.c_jazz] = [] ∧ [] = [] ++ [Demo.t_song]
  end.
Proof.
  exact (track_outcome 1 Demo.ui Demo.t_song Demo.plex0 [] []
           (Demo.w_up [Demo.c_broken; Demo.c_other; Demo.c_jazz; Demo.c_queen])
           Demo.plex0 [Demo.c_jazz] [] _ _ eq_refl).
Defined.

(** X7. Every track a resolution pass returns as resolved was acceptable for
    the descriptor it stands for (artist or album similarity at least 0.9)
    and was among the candidates an answered search of the pass gave: the
    pass invents no track and accepts none below the threshold. *)
Theorem resolution_sound fuel plex tracks userInputs w resolved missing w' evs :
  _get_available_plex_tracks fuel plex tracks userInputs w
  = (Ret (resolved, missing), w', evs) →
  ∃ cls : list (Track * option PlexTrack),
    cls.*1 = tracks ∧ resolved = omap snd cls ∧
    Forall (fun c => ∀ s, c.2 = Some s →
                          accepts c.1 s = true ∧ s ∈ candidates_of evs) cls.
Proof.
  intros Hrun.
  destruct (get_available_full _ _ _ _ _ _ _ _ _ Hrun)
    as (cls & Hcls & Hres & _ & Hsound & _).
  by exists cls.
Qed.

Lemma resolution_sound_witness :
  ∃ cls : list (Track * option PlexTrack),
    cls.*1 = [Demo.t_song; Demo.t_plain] ∧ [Demo.c_queen] = omap snd cls ∧
    Forall (fun c => ∀ s, c.2 = Some s →
              accepts c.1 s = true ∧
              s ∈ candidates_of
                    (_get_available_plex_tracks 1 Demo.plex0
                       [Demo.t_song; Demo.t_plain] Demo.ui
                       (Demo.w_up [Demo.c_other; Demo.c_queen])).2) cls.
Proof.
  exact (resolution_sound 1 Demo.plex0 [Demo.t_song; Demo.t_plain] Demo.ui
           (Demo.w_up [Demo.c_other; Demo.c_queen])
           [Demo.c_queen] [Demo.t_plain] _ _ eq_refl).
Defined.

(** X8. A resolution pass that returns has made at least one and at most two
    answered searches per input track, and every search call it made, retries
    after a reconnection included, asked for media type "track" with limit 5
    and for the title or the relaxed title of one of the input tracks. *)
Theorem search_budget fuel plex tracks userInputs w resolved missing w' evs :
  _get_available_plex_tracks fuel plex tracks userInputs w
  = (Ret (resolved, missing), w', evs) →
  length tracks ≤ length (answered evs) ≤ 2 * length tracks ∧
  Forall (fun c => ∃ track, track ∈ tracks ∧ asks_for track c) (search_calls evs).
Proof.
  intros Hrun.
  destruct (get_available_full _ _ _ _ _ _ _ _ _ Hrun)
    as (cls & _ & _ & _ & _ & Hcount & Hasks).
  done.
Qed.

Lemma search_budget_witness :
  let evs := (_get_available_plex_tracks 2 Demo.plex0 [Demo.t_song; Demo.t_plain]
                Demo.ui (Demo.w_fail (OtherException "ConnectionError")
                           [Demo.c_queen])).2 in
  length [Demo.t_song; Demo.t_plain] ≤ length (answered evs)
  ≤ 2 * length [Demo.t_song; Demo.t_plain] ∧
  Forall (fun c => ∃ track, track ∈ [Demo.t_song; Demo.t_plain] ∧ asks_for track c)
    (search_calls evs).
Proof.
  exact (search_budget 2 Demo.plex0 [Demo.t_song; Demo.t_plain] Demo.ui
           (Demo.w_fail (OtherException "ConnectionError") [Demo.c_queen])
           [Demo.c_queen] [Demo.t_plain] _ _ eq_refl).
Defined.

(** X9. The missing tracks a resolution pass returns are input tracks in
    their source order: the missing sequence is a subsequence of the track
    list. *)
Theorem missing_in_source_order fuel plex tracks userInputs w resolved missing w' evs :
  _get_available_plex_tracks fuel plex tracks userInputs w
  = (Ret (resolved, missing), w', evs) →
  missing `sublist_of` tracks.
Proof.
  intros Hrun.
  destruct (get_available_full _ _ _ _ _ _ _ _ _ Hrun) as (cls & <- & _ & -> & _).
  apply missing_of_sublist.
Qed.

Lemma missing_in_source_order_witness :
  [Demo.t_plain; Demo.t_intro] `sublist_of` [Demo.t_plain; Demo.t_song; Demo.t_intro].
Proof.
  exact (missing_in_source_order 1 Demo.plex0 [Demo.t_plain; Demo.t_song; Demo.t_intro]
           Demo.ui (Demo.w_up [Demo.c_queen])
           [Demo.c_queen] [Demo.t_plain; Demo.t_intro] _ _ eq_refl).
Defined.

(** X10. Resolution only reads: however a resolution pass ends (it returns,
    raises or never stops reconnecting), it makes no playlist call and no
    file-system call, and leaves the remote playlists and the csv files as
    they were. *)
Theorem resolution_reads_only fuel plex tracks userInputs w :
  let run := _get_available_plex_tracks fuel plex tracks userInputs w in
  w_playlists run.1.2 = w_playlists w ∧ w_files run.1.2 = w_files w ∧
  Forall (fun ev => is_playlist_call ev = false ∧ is_file_call ev = false) run.2.
Proof.
  cbn zeta.
  pose proof (get_available_spec fuel plex tracks userInputs w) as H.
  destruct (_get_available_plex_tracks fuel plex tracks userInputs w) as [[r w'] evs].
  by destruct H as ((_ & _ & Hp & Hf) & _ & Hq & _).
Qed.

(** ** What the playlist calls of a pass may be *)

Lemma all_ret {A} P (a : A) (Q : A → Prop) : Q a → run_all P (mret a) Q.
Proof. intros HQ w. rewrite run_ret. split; [constructor|]. by intros ? [= <-]. Qed.

Lemma all_raise {A} P e (Q : A → Prop) : run_all P (raise e) Q.
Proof. intros w. split; [constructor|done]. Qed.

Lemma all_log (P : event → Prop) fmt args (Q : unit → Prop) :
  P (EvLog fmt args) → Q tt → run_all P (log fmt args) Q.
Proof. intros HP HQ w. split; [by repeat constructor|]. by intros [] _. Qed.

Lemma all_bind {A B} P (m : M A) (k : A → M B) (Q : A → Prop) (R : B → Prop) :
  run_all P m Q → (∀ a, Q a → run_all P (k a) R) → run_all P (m ≫= k) R.
Proof.
  intros Hm Hk w. rewrite run_bind. specialize (Hm w).
  destruct (m w) as [[[a|e|] w1] evs1]; destruct Hm as [Hall HQ]; [|done..].
  specialize (Hk a (HQ a eq_refl) w1).
  destruct (k a w1) as [[r w2] evs2]. destruct Hk as [Hall2 HR].
  split; [by apply Forall_app|done].
Qed.

Lemma all_try {A} P (m : M A) (h : exn → M A) (Q : A → Prop) :
  run_all P m Q → (∀ e, run_all P (h e) Q) → run_all P (try_except m h) Q.
Proof.
  intros Hm Hh w. rewrite run_try. specialize (Hm w).
  destruct (m w) as [[[a|e|] w1] evs1]; destruct Hm as [Hall HQ]; [done| |done].
  specialize (Hh e w1). destruct (h e w1) as [[r w2] evs2]. destruct Hh as [Hall2 HR].
  split; [by apply Forall_app|done].
Qed.

Lemma all_call {A} (P : event → Prop) ev (body : World → res A * World) (Q : A → Prop) :
  P ev → (∀ w a w', body w = (Ret a, w') → Q a) → run_all P (call ev body) Q.
Proof.
  intros Hev Hbody w. unfold call.
  destruct (w_fault w (w_clock w)) as [e|]; [split; [by repeat constructor|done]|].
  destruct (body (advance w)) as [r w'] eqn:Hrun.
  split; [by repeat constructor|]. intros a ->. eauto.
Qed.

Lemma update_plex_playlist_calls plex available playlist userInputs :
  run_all (fun ev => playlist_call_ok playlist userInputs available ev ∧
                     is_file_call ev = false)
    (_update_plex_playlist plex available playlist (append_instead_of_sync userInputs))
    (fun pp => pp_title pp = name playlist).
Proof.
  unfold _update_plex_playlist.
  apply (all_bind _ _ _ (fun pp => pp_title pp = name playlist)).
  { apply all_call; [done|]. intros w a w' Hbody.
    destruct (w_playlists w !! name playlist); by simplify_eq. }
  intros pp Hpp.
  apply (all_bind _ _ _ (fun _ => True)).
  { destruct (append_instead_of_sync userInputs) eqn:Happend; cbn [negb];
      [by apply all_ret|].
    apply (all_bind _ _ _ (fun _ => True)); [by apply all_call|].
    intros items _. by apply all_call. }
  intros _ _.
  apply (all_bind _ _ _ (fun _ => True)); [by apply all_call|].
  intros _ _. by apply all_ret.
Qed.

Lemma truthy_some s : truthy s = true → ∃ text, s = Some text ∧ default "" s = text.
Proof. destruct s as [[|c text]|]; [done| |done]. intros _. by eexists. Qed.

Lemma apply_playlist_calls plex playlist userInputs available :
  run_all (fun ev => playlist_call_ok playlist userInputs available ev ∧
                     is_file_call ev = false)
    (apply_playlist plex playlist userInputs available) (fun _ => True).
Proof.
  unfold apply_playlist. destruct available as [|s rest]; [by apply all_log|].
  set (available := s :: rest).
  apply (all_bind _ _ _ (fun pp => pp_title pp = name playlist)).
  { apply all_try.
    - apply (all_bind _ _ _ (fun pp => pp_title pp = name playlist));
        [apply update_plex_playlist_calls|].
      intros pp Hpp. apply (all_bind _ _ _ (fun _ => True)); [by apply all_log|].
      intros _ _. by apply all_ret.
    - intros e. destruct (is_NotFound e); [|apply all_raise].
      apply (all_bind _ _ _ (fun _ => True)); [by apply all_call|].
      intros _ _. apply (all_bind _ _ _ (fun _ => True)); [by apply all_log|].
      intros _ _. apply all_call; [done|]. intros w a w' Hbody.
      destruct (w_playlists w !! name playlist); by simplify_eq. }
  intros pp Hpp.
  apply (all_bind _ _ _ (fun _ => True)).
  { destruct (truthy (description playlist) && add_playlist_description userInputs)
      eqn:Hon; [|by apply all_ret].
    apply andb_true_iff in Hon as [(text & Hdesc & ->)%truthy_some Hflag].
    apply all_try; [|intros e; by apply all_log]. by apply all_call. }
  intros _ _.
  apply (all_bind _ _ _ (fun _ => True)).
  { destruct (truthy (poster playlist) && add_playlist_poster userInputs)
      eqn:Hon; [|by apply all_ret].
    apply andb_true_iff in Hon as [(text & Hposter & ->)%truthy_some Hflag].
    apply all_try; [|intros e; by apply all_log]. by apply all_call. }
  intros _ _. by apply all_log.
Qed.

Lemma quiet_call_ok playlist userInputs available ev :
  is_playlist_call ev = false → playlist_call_ok playlist userInputs available ev.
Proof. by destruct ev. Qed.

(** X11. Every playlist call of a pass is about the playlist named by the
    playlist descriptor, and nothing else is ever touched: the items listed
    and removed are removed under the sync policy only, the items added or
    used to create the playlist are exactly the resolved tracks, the summary
    is edited only to the playlist's description and only when
    [add_playlist_description] is on, and the poster is uploaded only from
    the playlist's poster and only when [add_playlist_poster] is on. *)
Theorem playlist_calls_allowed fuel plex playlist tracks userInputs w
    resolved missing w1 evs1 :
  _get_available_plex_tracks fuel plex tracks userInputs w
  = (Ret (resolved, missing), w1, evs1) →
  Forall (playlist_call_ok playlist userInputs resolved)
    (update_or_create_plex_playlist fuel plex playlist tracks userInputs w).2.
Proof.
  intros Hrun. rewrite (update_or_create_eq _ _ _ _ _ _ _ _ _ _ Hrun).
  pose proof (get_available_spec fuel plex tracks userInputs w) as Hres.
  rewrite Hrun in Hres. destruct Hres as (_ & _ & Hquiet & _).
  assert (Forall (playlist_call_ok playlist userInputs resolved) evs1) as Hevs1.
  { eapply Forall_impl; [exact Hquiet|]. intros ev [Hp _]. by apply quiet_call_ok. }
  pose proof (apply_playlist_calls plex playlist userInputs resolved w1) as Happly.
  destruct (apply_playlist plex playlist userInputs resolved w1)
    as [[r2 w2] evs2]. destruct Happly as [Hall _].
  assert (Forall (playlist_call_ok playlist userInputs resolved) evs2) as Hevs2.
  { eapply Forall_impl; [exact Hall|]. by intros ev [? _]. }
  destruct r2 as [[]|e|]; [|by apply Forall_app..].
  pose proof (record_missing_spec playlist userInputs missing w2) as Hrec.
  destruct (record_missing playlist userInputs missing w2) as [[r3 w3] evs3].
  destruct Hrec as (_ & _ & Hevs3). cbn.
  apply Forall_app. split; [done|]. apply Forall_app. split; [done|].
  eapply Forall_impl; [exact Hevs3|]. intros ev. apply quiet_call_ok.
Qed.

Lemma playlist_calls_allowed_witness :
  Forall (playlist_call_ok Demo.p_mix Demo.ui_append [Demo.c_queen])
    (update_or_create_plex_playlist 1 Demo.plex0 Demo.p_mix [Demo.t_song]
       Demo.ui_append (Demo.w_up [Demo.c_queen])).2.
Proof.
  exact (playlist_calls_allowed 1 Demo.plex0 Demo.p_mix [Demo.t_song] Demo.ui_append
           (Demo.w_up [Demo.c_queen]) [Demo.c_queen] [] _ _ eq_refl).
Defined.

(** ** The csv files when the policy is off *)

Lemma kf_ret {A X} (f : World → X) (a : A) : keeps f (mret a : M A).
Proof. by intros w. Qed.

Lemma kf_raise {A X} (f : World → X) e : keeps f (raise e : M A).
Proof. by intros w. Qed.

Lemma kf_log {X} (f : World → X) fmt args : keeps f (log fmt args).
Proof. by intros w. Qed.

Lemma kf_bind {A B X} (f : World → X) (m : M A) (k : A → M B) :
  keeps f m → (∀ a, keeps f (k a)) → keeps f (m ≫= k).
Proof.
  intros Hm Hk w. rewrite run_bind. specialize (Hm w).
  destruct (m w) as [[[a|e|] w1] evs1]; [|done..].
  specialize (Hk a w1). destruct (k a w1) as [[r w2] evs2]. cbn in *. congruence.
Qed.

Lemma kf_try {A X} (f : World → X) (m : M A) (h : exn → M A) :
  keeps f m → (∀ e, keeps f (h e)) → keeps f (try_except m h).
Proof.
  intros Hm Hh w. rewrite run_try. specialize (Hm w).
  destruct (m w) as [[[a|e|] w1] evs1]; [done| |done].
  specialize (Hh e w1). destruct (h e w1) as [[r w2] evs2]. cbn in *. congruence.
Qed.

Lemma kf_call {A X} (f : World → X) ev (body : World → res A * World) :
  timeless f → (∀ w, f (body w).2 = f w) → keeps f (call ev body).
Proof.
  intros Hadv Hbody w. unfold call.
  destruct (w_fault w (w_clock w)) as [e|]; [apply Hadv|].
  specialize (Hbody (advance w)). destruct (body (advance w)) as [r w'].
  cbn in *. rewrite Hbody. apply Hadv.
Qed.

Lemma on_playlist_keeps {A X} (f : World → X) pp
    (g : RemotePlaylist → A * RemotePlaylist) w :
  (∀ ps w0, f (set_playlists ps w0) = f w0) →
  f (on_playlist pp g w).2 = f w.
Proof.
  intros Hset. unfold on_playlist.
  destruct (w_playlists w !! pp_title pp) as [pl|]; [|done].
  destruct (g pl). apply Hset.
Qed.

Lemma playlist_lookup_keeps {X} (f : World → X) plex title :
  timeless f → keeps f (PlexServer_playlist plex title).
Proof.
  intros Hadv. apply kf_call; [done|]. intros w. by destruct (w_playlists w !! title).
Qed.

(** The playlist branch changes nothing but the playlists and the clock. *)
Lemma apply_playlist_keeps {X} (f : World → X) plex playlist userInputs available :
  timeless f → (∀ ps w0, f (set_playlists ps w0) = f w0) →
  keeps f (apply_playlist plex playlist userInputs available).
Proof.
  intros Hadv Hset.
  assert (∀ A ev pp (g : RemotePlaylist → A * RemotePlaylist),
            keeps f (call ev (on_playlist pp g))) as Hon.
  { intros A ev pp g. apply kf_call; [done|]. intros w. by apply on_playlist_keeps. }
  unfold apply_playlist. destruct available as [|s rest]; [apply kf_log|].
  apply kf_bind.
  { apply kf_try.
    - apply kf_bind.
      + unfold _update_plex_playlist. apply kf_bind; [by apply playlist_lookup_keeps|].
        intros pp. apply kf_bind.
        * destruct (negb (append_instead_of_sync userInputs)); [|apply kf_ret].
          apply kf_bind; [apply Hon|]. intros items.
          apply kf_call; [done|]. intros w.
          destruct (w_playlists w !! pp_title pp) as [pl|]; [|done].
          destruct (remove_each items [] (pl_items pl)). apply Hset.
        * intros _. apply kf_bind; [apply Hon|]. intros _. apply kf_ret.
      + intros pp. apply kf_bind; [apply kf_log|]. intros _. apply kf_ret.
    - intros e. destruct (is_NotFound e); [|apply kf_raise].
      apply kf_bind; [apply kf_call; [done|intros w; apply Hset]|]. intros _.
      apply kf_bind; [apply kf_log|]. intros _. by apply playlist_lookup_keeps. }
  intros pp. apply kf_bind.
  { destruct (truthy (description playlist) && add_playlist_description userInputs);
      [|apply kf_ret].
    apply kf_try; [apply Hon|intros e; apply kf_log]. }
  intros _. apply kf_bind.
  { destruct (truthy (poster playlist) && add_playlist_poster userInputs);
      [|apply kf_ret].
    apply kf_try; [apply Hon|intros e; apply kf_log]. }
  intros _. apply kf_log.
Qed.

Lemma apply_playlist_files plex playlist userInputs available w :
  w_files (apply_playlist plex playlist userInputs available w).1.2 = w_files w.
Proof. by apply (apply_playlist_keeps w_files). Qed.

(** X12. With [write_missing_as_csv] off a pass never touches the file
    system: however it ends, it makes no file-system call (no folder
    creation, no file opened, written or deleted) and the csv files are as
    before. *)
Theorem no_record_when_policy_off fuel plex playlist tracks userInputs w :
  write_missing_as_csv userInputs = false →
  let run := update_or_create_plex_playlist fuel plex playlist tracks userInputs w in
  Forall (fun ev => is_file_call ev = false) run.2 ∧ w_files run.1.2 = w_files w.
Proof.
  intros Hoff. cbn zeta.
  pose proof (get_available_spec fuel plex tracks userInputs w) as Hres.
  destruct (_get_available_plex_tracks fuel plex tracks userInputs w)
    as [[[[available missing]|e|] w1] evs1] eqn:Hrun.
  - rewrite (update_or_create_eq _ _ _ _ _ _ _ _ _ _ Hrun).
    destruct Hres as ((_ & _ & _ & Hfiles1) & _ & Hquiet & _).
    assert (Forall (fun ev => is_file_call ev = false) evs1) as Hevs1.
    { eapply Forall_impl; [exact Hquiet|]. by intros ev [_ ?]. }
    pose proof (apply_playlist_calls plex playlist userInputs available w1) as Hcalls.
    pose proof (apply_playlist_files plex playlist userInputs available w1) as Hfiles2.
    destruct (apply_playlist plex playlist userInputs available w1)
      as [[r2 w2] evs2]. destruct Hcalls as [Hall _]. cbn in Hfiles2.
    assert (Forall (fun ev => is_file_call ev = false) evs2) as Hevs2.
    { eapply Forall_impl; [exact Hall|]. by intros ev [_ ?]. }
    destruct r2 as [[]|e|]; [|split; [by apply Forall_app|cbn; congruence]..].
    rewrite record_missing_off by done. cbn. rewrite app_nil_r.
    split; [by apply Forall_app|congruence].
  - unfold update_or_create_plex_playlist. rewrite run_bind, Hrun. cbn.
    destruct Hres as ((_ & _ & _ & Hfiles1) & _ & Hquiet & _). split; [|done].
    eapply Forall_impl; [exact Hquiet|]. by intros ev [_ ?].
  - unfold update_or_create_plex_playlist. rewrite run_bind, Hrun. cbn.
    destruct Hres as ((_ & _ & _ & Hfiles1) & _ & Hquiet & _). split; [|done].
    eapply Forall_impl; [exact Hquiet|]. by intros ev [_ ?].
Qed.

Lemma no_record_when_policy_off_witness :
  let run := update_or_create_plex_playlist 1 Demo.plex0 Demo.p_mix [Demo.t_plain]
               Probe.ui_off (Demo.w_up []) in
  Forall (fun ev => is_file_call ev = false) run.2 ∧
  w_files run.1.2 = w_files (Demo.w_up []).
Proof.
  exact (no_record_when_policy_off 1 Demo.plex0 Demo.p_mix [Demo.t_plain]
           Probe.ui_off (Demo.w_up []) eq_refl).
Defined.

(** ** Creating the playlist, and failures of the update *)

Lemma apply_playlist_create plex playlist userInputs available w :
  available ≠ [] →
  w_playlists w !! name playlist = None →
  (∀ t, w_clock w ≤ t < w_clock w + 3 → w_fault w t = None) →
  ∃ w' rest pl',
    apply_playlist plex playlist userInputs available w =
      (Ret tt, w',
       [EvPlaylist plex (name playlist);
        EvCreatePlaylist plex (name playlist) available;
        EvLog "Created playlist %s" [name playlist];
        EvPlaylist plex (name playlist)] ++ rest) ∧
    w_playlists w' !! name playlist = Some pl' ∧ pl_items pl' = available.
Proof.
  intros Hne Hnone Hcalm. unfold apply_playlist.
  destruct available as [|s rest0]; [done|].
  set (available := s :: rest0) in *.
  rewrite run_bind, run_try, run_bind.
  unfold _update_plex_playlist at 1. rewrite run_bind.
  unfold PlexServer_playlist at 1.
  rewrite run_call_ok by (apply Hcalm; lia).
  cbn [w_playlists advance]. rewrite Hnone. cbn [is_NotFound].
  rewrite run_bind. unfold PlexServer_createPlaylist.
  rewrite run_call_ok by (cbn; apply Hcalm; lia).
  rewrite run_log. unfold PlexServer_playlist.
  rewrite run_call_ok by (cbn; apply Hcalm; lia).
  cbn [w_playlists advance set_playlists]. rewrite lookup_insert_eq.
  edestruct (metadata_steps_keep playlist userInputs
               {| pp_server := plex; pp_title := name playlist |})
    as (w' & evs & pl' & -> & Hpl' & Hitems).
  { done. }
  { cbn [w_playlists set_playlists advance]. apply lookup_insert_eq. }
  eexists w', _, pl'. split; [reflexivity|]. split; [done|]. exact Hitems.
Qed.

(** X13. When the resolved sequence is not empty, the server has no playlist
    of the given name and the calls involved raise nothing, the pass, under
    either policy, looks the playlist up, creates it with exactly the
    resolved tracks, looks it up again for the description and poster steps,
    and returns; the new playlist holds exactly the resolved tracks. *)
Theorem creates_missing_playlist fuel plex playlist tracks userInputs w
    resolved missing w1 evs1 :
  _get_available_plex_tracks fuel plex tracks userInputs w
  = (Ret (resolved, missing), w1, evs1) →
  resolved ≠ [] →
  w_playlists w1 !! name playlist = None →
  (∀ t, w_clock w1 ≤ t < w_clock w1 + 3 → w_fault w1 t = None) →
  ∃ w' rest pl',
    update_or_create_plex_playlist fuel plex playlist tracks userInputs w
    = (Ret tt, w',
       evs1 ++
       [EvPlaylist plex (name playlist);
        EvCreatePlaylist plex (name playlist) resolved;
        EvLog "Created playlist %s" [name playlist];
        EvPlaylist plex (name playlist)] ++ rest) ∧
    w_playlists w' !! name playlist = Some pl' ∧ pl_items pl' = resolved.
Proof.
  intros Hrun Hne Hnone Hcalm.
  rewrite (update_or_create_eq _ _ _ _ _ _ _ _ _ _ Hrun).
  destruct (apply_playlist_create plex playlist userInputs resolved w1 Hne Hnone Hcalm)
    as (w2 & rest & pl' & -> & Hpl' & Hitems).
  pose proof (record_missing_spec playlist userInputs missing w2) as Hrec.
  destruct (record_missing playlist userInputs missing w2) as [[r w3] evs3].
  destruct Hrec as (-> & Hpl3 & _).
  exists w3, (rest ++ evs3), pl'. split; [|split; [by rewrite Hpl3|done]].
  reflexivity.
Qed.

Lemma creates_missing_playlist_witness :
  ∃ w' rest pl',
    update_or_create_plex_playlist 1 Demo.plex0 Probe.p_new [Demo.t_song] Demo.ui_append
      (Demo.w_up [Demo.c_queen])
    = (Ret tt, w',
       [EvSearch Demo.plex0 "Song (feat. X)" "track" 5 (inr []);
        EvLog "retrying search for %s" ["Song (feat. X)"];
        EvSearch Demo.plex0 "Song " "track" 5 (inr [Demo.c_queen])] ++
       [EvPlaylist Demo.plex0 "Fresh";
        EvCreatePlaylist Demo.plex0 "Fresh" [Demo.c_queen];
        EvLog "Created playlist %s" ["Fresh"];
        EvPlaylist Demo.plex0 "Fresh"] ++ rest) ∧
    w_playlists w' !! "Fresh" = Some pl' ∧ pl_items pl' = [Demo.c_queen].
Proof.
  refine (creates_missing_playlist 1 Demo.plex0 Probe.p_new [Demo.t_song] Demo.ui_append
            (Demo.w_up [Demo.c_queen]) [Demo.c_queen] [] _ _ eq_refl _ _ _).
  - discriminate.
  - vm_compute. reflexivity.
  - intros t _. reflexivity.
Defined.

(** X14. When the resolved sequence is not empty and the playlist lookup
    raises an exception that is not [NotFound], the pass stops there with
    that exception: it creates nothing, changes no playlist, and does not
    reach the missing-tracks record, which is neither written nor deleted. *)
Theorem update_failure_aborts fuel plex playlist tracks userInputs w
    resolved missing w1 evs1 e :
  _get_available_plex_tracks fuel plex tracks userInputs w
  = (Ret (resolved, missing), w1, evs1) →
  resolved ≠ [] →
  w_fault w1 (w_clock w1) = Some e →
  is_NotFound e = false →
  update_or_create_plex_playlist fuel plex playlist tracks userInputs w
  = (Raise e, advance w1, evs1 ++ [EvPlaylist plex (name playlist)]) ∧
  w_playlists (advance w1) = w_playlists w ∧ w_files (advance w1) = w_files w.
Proof.
  intros Hrun Hne Hfault Hnot.
  pose proof (get_available_spec fuel plex tracks userInputs w) as Hres.
  rewrite Hrun in Hres. destruct Hres as ((_ & _ & Hp & Hf) & _).
  split; [|done].
  rewrite (update_or_create_eq _ _ _ _ _ _ _ _ _ _ Hrun).
  unfold apply_playlist. destruct resolved as [|s rest]; [done|].
  rewrite run_bind, run_try, run_bind.
  unfold _update_plex_playlist at 1. rewrite run_bind.
  unfold PlexServer_playlist at 1.
  rewrite (run_call_fault _ _ _ e) by done. rewrite Hnot. reflexivity.
Qed.

Lemma update_failure_aborts_witness :
  let w := Probe.w_fail_at 4 (OtherException "ConnectionError") [Demo.c_queen] in
  update_or_create_plex_playlist 1 Demo.plex0 Demo.p_mix [Demo.t_song; Demo.t_plain]
    Demo.ui w
  = (Raise (OtherException "ConnectionError"), later 5 w,
     (_get_available_plex_tracks 1 Demo.plex0 [Demo.t_song; Demo.t_plain] Demo.ui w).2
     ++ [EvPlaylist Demo.plex0 "Mix"]) ∧
  w_playlists (later 5 w) = w_playlists w ∧ w_files (later 5 w) = w_files w.
Proof.
  intros w.
  refine (update_failure_aborts 1 Demo.plex0 Demo.p_mix [Demo.t_song; Demo.t_plain]
            Demo.ui w [Demo.c_queen] [Demo.t_plain] (later 4 w) _
            (OtherException "ConnectionError") eq_refl _ eq_refl eq_refl).
  discriminate.
Defined.

(** ** The connection loop *)








(** ** The record files *)

Lemma append_length s t : String.length (s +:+ t) = String.length s + String.length t.
Proof.
  induction s as [|c s IH]; [done|].
  change (String c s +:+ t) with (String c (s +:+ t)).
  cbn [String.length]. by rewrite IH.
Qed.

Lemma append_cancel_r s1 s2 t : s1 +:+ t = s2 +:+ t → s1 = s2.
Proof.
  revert s2. induction s1 as [|c s1 IH]; intros [|d s2] Heq; [done| | |].
  - apply (f_equal String.length) in Heq.
    change ("" +:+ t) with t in Heq. rewrite append_length in Heq.
    cbn [String.length] in Heq. lia.
  - apply (f_equal String.length) in Heq.
    change ("" +:+ t) with t in Heq. rewrite append_length in Heq.
    cbn [String.length] in Heq. lia.
  - change (String c (s1 +:+ t) = String d (s2 +:+ t)) in Heq.
    injection Heq as -> Heq. f_equal. by apply IH.
Qed.

Lemma split_no_slash s : Str.contains "/" s = false → Str.split "/" s = [s].
Proof.
  induction s as [|c s IH]; [done|]. cbn.
  intros [Hc Hs]%orb_false_elim. rewrite Hc. by rewrite IH.
Qed.

Lemma contains_append c s t :
  Str.contains c (s +:+ t) = Str.contains c s || Str.contains c t.
Proof.
  induction s as [|d s IH]; [done|].
  change (String d s +:+ t) with (String d (s +:+ t)). cbn.
  by rewrite IH, orb_assoc.
Qed.

Lemma path_root_plain s : Str.contains "/" s = false → path_root s = "".
Proof.
  destruct s as [|c s]; [done|]. cbn [Str.contains].
  intros [Hc _]%orb_false_elim.
  by destruct c as [[] [] [] [] [] [] [] []].
Qed.

(** A name without "/" has its record in the data folder itself, under the
    name followed by ".csv". *)
Lemma csv_path_plain name :
  Str.contains "/" name = false → csv_path "/data" name = "/data/" +:+ name +:+ ".csv".
Proof.
  intros Hplain. unfold csv_path. cbn zeta.
  assert (Str.contains "/" (name +:+ ".csv") = false) as Hfile.
  { by rewrite contains_append, Hplain. }
  rewrite (path_root_plain _ Hfile).
  unfold path_parts at 2. rewrite (split_no_slash _ Hfile). cbn [List.filter].
  assert (String.length (name +:+ ".csv") ≠ String.length "" ∧
          String.length (name +:+ ".csv") ≠ String.length ".") as [Hlen0 Hlen1].
  { rewrite append_length. cbn. lia. }
  destruct (String.eqb_spec (name +:+ ".csv") "") as [Heq|_]; [by rewrite Heq in Hlen0|].
  destruct (String.eqb_spec (name +:+ ".csv") ".") as [Heq|_]; [by rewrite Heq in Hlen1|].
  reflexivity.
Qed.

Lemma csv_path_inj name1 name2 :
  Str.contains "/" name1 = false → Str.contains "/" name2 = false →
  csv_path "/data" name1 = csv_path "/data" name2 → name1 = name2.
Proof.
  intros H1 H2. rewrite !csv_path_plain by done. intros Heq.
  apply String.app_inj in Heq. by apply append_cancel_r in Heq.
Qed.

(** The path of a record is normalised as [pathlib] does: "." parts and
    doubled slashes go, and an absolute name replaces the data folder. *)
Example csv_path_normalised :
  csv_path "/data" "Mix" = "/data/Mix.csv" ∧
  csv_path "/data" "./Mix" = "/data/Mix.csv" ∧
  csv_path "/data" "a//b" = "/data/a/b.csv" ∧
  csv_path "/data" "../Mix" = "/data/../Mix.csv" ∧
  csv_path "/data" "/tmp/Mix" = "/tmp/Mix.csv" ∧
  csv_path "/data" "//tmp/Mix" = "//tmp/Mix.csv".
Proof. repeat split; reflexivity. Qed.

(** X17. Writing a record replaces it as a whole, when it succeeds: the write
    succeeds exactly when none of its calls raises (creating the folder,
    opening the file, writing the header row and one row per track, closing
    the file), and the file of that name then holds the header row followed
    by one row per track, whatever it held before. A write that raises hands
    on an exception of one of these calls; when it was the creation of the
    folder or the opening of the file that raised, no file has changed. A
    write always ends, and it never changes another file or a playlist. *)
Theorem write_csv_replaces tracks name w :
  let file := csv_path "/data" name in
  let run := _write_csv tracks name "/data" w in
  (∀ other, other ≠ file → w_files run.1.2 !! other = w_files w !! other) ∧
  w_playlists run.1.2 = w_playlists w ∧
  match run.1.1 with
  | Ret _ => w_files run.1.2 !! file = Some (Track_annotations :: map csv_row tracks)
  | Raise e =>
      (∃ t, w_clock w ≤ t < w_clock w + (length tracks + 4) ∧ w_fault w t = Some e) ∧
      (w_fault w (w_clock w) ≠ None ∨ w_fault w (S (w_clock w)) ≠ None →
       w_files run.1.2 = w_files w)
  | Diverge => False
  end ∧
  (run.1.1 = Ret tt ↔
   ∀ t, w_clock w ≤ t < w_clock w + (length tracks + 4) → w_fault w t = None).
Proof.
  cbn zeta. pose proof (write_csv_spec tracks name w) as Hspec. cbn zeta in Hspec.
  destruct (_write_csv tracks name "/data" w) as [[r w'] evs].
  destruct Hspec as (_ & _ & Hpl & Hother & _ & _ & Hr). cbn [fst snd].
  split; [done|]. split; [done|].
  destruct r as [[]|e|]; [| |done].
  - destruct Hr as (Hfree & -> & _). split; [apply lookup_insert_eq|done].
  - split; [done|]. split; [done|].
    intros Hfree. destruct Hr as [(t & Ht & Hft) _]. by rewrite Hfree in Hft.
Qed.

(** X18. A record written and then deleted is gone again: when none of the
    file-system calls involved raises (those of the write, and the deletion),
    writing the record of a name and deleting it afterwards returns normally
    and leaves the csv files as they were without that record; if there was
    none before, exactly as they were. *)
Theorem write_then_delete tracks name w :
  (∀ t, w_clock w ≤ t < w_clock w + (length tracks + 5) → w_fault w t = None) →
  let file := csv_path "/data" name in
  ∃ w' evs,
    (_write_csv tracks name "/data";; _delete_csv name "/data") w = (Ret tt, w', evs) ∧
    w_files w' = delete file (w_files w) ∧
    (w_files w !! file = None → w_files w' = w_files w).
Proof.
  intros Hcalm file. rewrite run_bind.
  pose proof (write_csv_spec tracks name w) as Hspec. cbn zeta in Hspec.
  destruct (_write_csv tracks name "/data" w) as [[r w1] evs1].
  destruct Hspec as (_ & _ & _ & _ & _ & _ & Hr).
  destruct r as [[]|e|]; [| |done]; cycle 1.
  { destruct Hr as [(t & Ht & Hft) _]. rewrite Hcalm in Hft by lia. done. }
  destruct Hr as (_ & -> & _). fold file.
  pose proof (delete_csv_run name
                (set_files (<[file := Track_annotations :: map csv_row tracks]> (w_files w))
                   (later (length tracks + 4) w))) as Hdelete.
  cbn zeta in Hdelete. rewrite Hdelete. fold file.
  cbn [w_fault w_clock w_files set_files]. rewrite later_fault, later_clock.
  rewrite Hcalm by lia. rewrite lookup_insert_eq.
  eexists _, _. split; [reflexivity|]. cbn [w_files set_files].
  rewrite delete_insert_eq. split; [done|]. intros Hnone. by apply delete_id.
Qed.

Lemma write_then_delete_witness :
  ∃ w' evs,
    (_write_csv [Demo.t_plain] "Mix" "/data";; _delete_csv "Mix" "/data") (Demo.w_up [])
    = (Ret tt, w', evs) ∧
    w_files w' = delete (csv_path "/data" "Mix") (w_files (Demo.w_up [])) ∧
    (w_files (Demo.w_up []) !! csv_path "/data" "Mix" = None →
     w_files w' = w_files (Demo.w_up [])).
Proof.
  exact (write_then_delete [Demo.t_plain] "Mix" (Demo.w_up [])
           (fun t _ => eq_refl)).
Defined.

Lemma record_missing_other playlist userInputs missing w other :
  other ≠ csv_path "/data" (name playlist) →
  w_files (record_missing playlist userInputs missing w).1.2 !! other
  = w_files w !! other.
Proof.
  intros Hother.
  pose proof (record_missing_frame playlist userInputs missing w) as H.
  destruct (record_missing playlist userInputs missing w) as [[r w'] evs].
  destruct H as (_ & _ & _ & _ & H & _). by apply H.
Qed.

(** X19. A pass leaves the records of other playlists alone: for playlist
    names without "/", the record file of any other such name holds after the
    pass, however the pass ends, what it held before. *)
Theorem other_records_untouched fuel plex playlist tracks userInputs w other :
  Str.contains "/" (name playlist) = false → Str.contains "/" other = false →
  other ≠ name playlist →
  w_files (update_or_create_plex_playlist fuel plex playlist tracks userInputs w).1.2
    !! csv_path "/data" other
  = w_files w !! csv_path "/data" other.
Proof.
  intros Hrel1 Hrel2 Hne.
  assert (csv_path "/data" other ≠ csv_path "/data" (name playlist)) as Hfile.
  { intros Heq. by apply csv_path_inj in Heq. }
  pose proof (get_available_spec fuel plex tracks userInputs w) as Hres.
  destruct (_get_available_plex_tracks fuel plex tracks userInputs w)
    as [[[[available missing]|e|] w1] evs1] eqn:Hrun.
  - rewrite (update_or_create_eq _ _ _ _ _ _ _ _ _ _ Hrun).
    destruct Hres as ((_ & _ & _ & Hfiles1) & _).
    pose proof (apply_playlist_files plex playlist userInputs available w1) as Hfiles2.
    destruct (apply_playlist plex playlist userInputs available w1)
      as [[[[]|e|] w2] evs2]; cbn in Hfiles2; [|cbn; congruence..].
    pose proof (record_missing_other playlist userInputs missing w2 _ Hfile) as Hrec.
    destruct (record_missing playlist userInputs missing w2) as [[r3 w3] evs3].
    cbn in *. congruence.
  - unfold update_or_create_plex_playlist. rewrite run_bind, Hrun. cbn.
    destruct Hres as ((_ & _ & _ & ->) & _). done.
  - unfold update_or_create_plex_playlist. rewrite run_bind, Hrun. cbn.
    destruct Hres as ((_ & _ & _ & ->) & _). done.
Qed.

Lemma other_records_untouched_witness :
  w_files (update_or_create_plex_playlist 1 Demo.plex0 Probe.p_new [Demo.t_plain]
             Demo.ui (Demo.w_recorded [])).1.2
    !! csv_path "/data" "Mix"
  = w_files (Demo.w_recorded []) !! csv_path "/data" "Mix".
Proof.
  refine (other_records_untouched 1 Demo.plex0 Probe.p_new [Demo.t_plain] Demo.ui
            (Demo.w_recorded []) "Mix" eq_refl eq_refl _).
  discriminate.
Defined.

(** X20. Deleting a record succeeds exactly when the call does not raise and
    the record exists; it then removes that file and no other. When the
    record does not exist the deletion raises [FileNotFoundError], and a
    deletion that raises leaves every file as it was. *)
Theorem delete_csv_exact name w :
  let file := csv_path "/data" name in
  let run := _delete_csv name "/data" w in
  (run.1.1 = Ret tt ↔ w_fault w (w_clock w) = None ∧ is_Some (w_files w !! file)) ∧
  (w_fault w (w_clock w) = None → w_files w !! file = None →
   run.1.1 = Raise (OtherException "FileNotFoundError")) ∧
  match run.1.1 with
  | Ret _ => w_files run.1.2 = delete file (w_files w)
  | Raise _ => w_files run.1.2 = w_files w
  | Diverge => False
  end.
Proof.
  cbn zeta. pose proof (delete_csv_run name w) as Hrun. cbn zeta in Hrun.
  rewrite Hrun.
  destruct (w_fault w (w_clock w)) as [e|].
  { cbn. split; [split; [done|by intros [? ?]]|done]. }
  destruct (w_files w !! csv_path "/data" name) as [rows|].
  - cbn. split; [split; [eauto|done]|done].
  - cbn. split; [split; [done|by intros [_ [? ?]]]|done].
Qed.

(** ** Exceptions of the resolution *)





(** ** Running a pass twice *)

Lemma steady_store w v : w_fault v = w_fault w → w_index v = w_index w →
  steady w → steady v.
Proof.
  intros Hf Hi [Hcalm Hstable]. split.
  - intros t Ht. rewrite Hf. by apply Hcalm.
  - intros t t' q mt lim. rewrite Hi. apply Hstable.
Qed.

Lemma saveSearch_steady fuel userInputs plex q mt lim w :
  steady w →
  saveSearch (S fuel) userInputs plex q mt lim w
  = (Ret (plex, Some (w_index w 0 q mt lim)), advance w,
     [EvSearch plex q mt lim (inr (w_index w 0 q mt lim))]).
Proof.
  intros [Hcalm Hstable]. rewrite saveSearch_S, Hcalm by lia. cbn zeta.
  by rewrite (Hstable (w_clock w) 0).
Qed.

Lemma search_track_steady fuel userInputs plex track w :
  steady w →
  ∃ w' evs,
    search_track (S fuel) userInputs plex track w
    = (Ret (plex, steady_search (fun q => w_index w 0 q "track" 5) (title track)),
       w', evs).
Proof.
  intros Hsteady. rewrite search_track_eq, saveSearch_steady by done.
  unfold steady_search.
  destruct (wants_retry _ (title track)); [|by eexists _, _].
  cbn zeta. rewrite saveSearch_steady.
  - cbn [w_index advance default from_option]. by eexists _, _.
  - by apply (steady_store w).
Qed.

Lemma match_candidates_world track search plex_tracks w v :
  (match_candidates track search plex_tracks w).1.1
  = (match_candidates track search plex_tracks v).1.1.
Proof.
  induction search as [|s rest IH]; [done|].
  rewrite !match_candidates_cons. cbn zeta.
  destruct (match_candidates track rest plex_tracks w) as [[r1 w1] evs1].
  destruct (match_candidates track rest plex_tracks v) as [[r2 v1] evs2].
  cbn in IH. subst r2.
  destruct (track_artist s) as [e|a].
  - by destruct (is_IndexError e).
  - destruct (similar a (artist track)); [done|].
    destruct (track_album s) as [e|al].
    + by destruct (is_IndexError e).
    + by destruct (similar al (album track)).
Qed.

Lemma resolve_track_steady fuel userInputs track st w v :
  steady w → w_fault v = w_fault w → w_index v = w_index w →
  (resolve_track (S fuel) userInputs track st w).1.1
  = (resolve_track (S fuel) userInputs track st v).1.1.
Proof.
  intros Hsteady Hf Hi. destruct st as [[plex plex_tracks] missing_tracks].
  unfold resolve_track. rewrite !run_bind.
  destruct (search_track_steady fuel userInputs plex track w Hsteady)
    as (w1 & evs1 & ->).
  destruct (search_track_steady fuel userInputs plex track v) as (v1 & evs2 & ->).
  { by apply (steady_store w). }
  rewrite Hi. rewrite !run_bind.
  destruct (steady_search _ (title track)) as [[|s rest]|]; [by rewrite !run_ret| |].
  - pose proof (match_candidates_world track (s :: rest) plex_tracks w1 v1) as Hm.
    destruct (match_candidates track (s :: rest) plex_tracks w1) as [[r1 w2] evs3].
    destruct (match_candidates track (s :: rest) plex_tracks v1) as [[r2 v2] evs4].
    cbn in Hm. subst r2.
    destruct r1 as [[plex_tracks1 found]|e|]; [|done..].
    by destruct found; rewrite !run_ret.
  - by rewrite !run_ret.
Qed.

Lemma resolve_tracks_steady fuel userInputs tracks st w v :
  steady w → w_fault v = w_fault w → w_index v = w_index w →
  (resolve_tracks (S fuel) userInputs tracks st w).1.1
  = (resolve_tracks (S fuel) userInputs tracks st v).1.1.
Proof.
  revert st w v. induction tracks as [|track tracks IH]; intros st w v Hsteady Hf Hi;
    [done|].
  cbn [resolve_tracks]. rewrite !run_bind.
  pose proof (resolve_track_steady fuel userInputs track st w v Hsteady Hf Hi) as Hstep.
  destruct st as [[plex plex_tracks] missing_tracks].
  pose proof (resolve_track_spec (S fuel) userInputs track plex plex_tracks
                missing_tracks w) as Hw.
  pose proof (resolve_track_spec (S fuel) userInputs track plex plex_tracks
                missing_tracks v) as Hv.
  destruct (resolve_track (S fuel) userInputs track (plex, plex_tracks, missing_tracks) w)
    as [[r1 w1] evs1].
  destruct (resolve_track (S fuel) userInputs track (plex, plex_tracks, missing_tracks) v)
    as [[r2 v1] evs2].
  cbn in Hstep. subst r2.
  destruct r1 as [st1|e|]; [|done..].
  destruct Hw as ((Hfw & Hiw & _) & _). destruct Hv as ((Hfv & Hiv & _) & _).
  specialize (IH st1 w1 v1).
  destruct (resolve_tracks (S fuel) userInputs tracks st1 w1) as [[r3 w2] evs3].
  destruct (resolve_tracks (S fuel) userInputs tracks st1 v1) as [[r4 v2] evs4].
  cbn in *. apply IH.
  - by apply (steady_store w).
  - congruence.
  - congruence.
Qed.

Lemma get_available_steady fuel plex tracks userInputs w v :
  steady w → w_fault v = w_fault w → w_index v = w_index w →
  (_get_available_plex_tracks (S fuel) plex tracks userInputs w).1.1
  = (_get_available_plex_tracks (S fuel) plex tracks userInputs v).1.1.
Proof.
  intros Hsteady Hf Hi. unfold _get_available_plex_tracks. rewrite !run_bind.
  pose proof (resolve_tracks_steady fuel userInputs tracks (plex, [], []) w v
                Hsteady Hf Hi) as H.
  destruct (resolve_tracks (S fuel) userInputs tracks (plex, [], []) w) as [[r1 w1] evs1].
  destruct (resolve_tracks (S fuel) userInputs tracks (plex, [], []) v) as [[r2 v1] evs2].
  cbn in H. subst r2. by destruct r1 as [[[plex' plex_tracks] missing_tracks]|e|].
Qed.

Lemma record_missing_oracles playlist userInputs missing w :
  w_fault (record_missing playlist userInputs missing w).1.2 = w_fault w ∧
  w_index (record_missing playlist userInputs missing w).1.2 = w_index w.
Proof.
  pose proof (record_missing_frame playlist userInputs missing w) as H.
  destruct (record_missing playlist userInputs missing w) as [[r w'] evs].
  by destruct H as (_ & ? & ? & _).
Qed.

Lemma pass_steady fuel plex playlist tracks userInputs w :
  steady w →
  match update_or_create_plex_playlist (S fuel) plex playlist tracks userInputs w with
  | (r, w', evs) =>
      w_fault w' = w_fault w ∧ w_index w' = w_index w ∧
      match (_get_available_plex_tracks (S fuel) plex tracks userInputs w).1.1 with
      | Ret (resolved, missing) =>
          r = Ret tt ∧
          match resolved with
          | [] => w_playlists w' = w_playlists w
          | _ :: _ =>
              ∃ pl', w_playlists w' !! name playlist = Some pl' ∧
                     pl_items pl' =
                       match w_playlists w !! name playlist with
                       | Some old =>
                           if append_instead_of_sync userInputs
                           then pl_items old ++ resolved
                           else repeats [] (pl_items old) ++ resolved
                       | None => resolved
                       end
          end
      | Raise e => r = Raise e ∧ w_playlists w' = w_playlists w
      | Diverge => r = Diverge ∧ w_playlists w' = w_playlists w
      end
  end.
Proof.
  intros Hsteady.
  pose proof (get_available_spec (S fuel) plex tracks userInputs w) as Hres.
  destruct (_get_available_plex_tracks (S fuel) plex tracks userInputs w)
    as [[[[resolved missing]|e|] w1] evs1] eqn:Hrun;
    destruct Hres as ((Hf1 & Hi1 & Hp1 & _) & _).
  - rewrite (update_or_create_eq _ _ _ _ _ _ _ _ _ _ Hrun). cbn [fst].
    assert (steady w1) as [Hcalm1 _] by by apply (steady_store w).
    assert (∃ w2 evs2,
              apply_playlist plex playlist userInputs resolved w1 = (Ret tt, w2, evs2) ∧
              match resolved with
              | [] => w_playlists w2 = w_playlists w
              | _ :: _ =>
                  ∃ pl', w_playlists w2 !! name playlist = Some pl' ∧
                         pl_items pl' =
                           match w_playlists w !! name playlist with
                           | Some old =>
                               if append_instead_of_sync userInputs
                               then pl_items old ++ resolved
                               else repeats [] (pl_items old) ++ resolved
                           | None => resolved
                           end
              end) as (w2 & evs2 & Happly & Hitems).
    { destruct resolved as [|s rest] eqn:Hres.
      { rewrite apply_playlist_empty. by eexists _, _. }
      rewrite <- Hres in *. rewrite <- Hp1.
      assert (resolved ≠ []) as Hne by by rewrite Hres.
      destruct (w_playlists w1 !! name playlist) as [old|] eqn:Hold.
      - destruct (apply_playlist_update plex playlist userInputs resolved w1 old)
          as (w2 & rest' & pl' & -> & Hpl & Hit); [done..| |].
        { intros t _. apply Hcalm1. lia. }
        eexists _, _. split; [done|]. by exists pl'.
      - destruct (apply_playlist_create plex playlist userInputs resolved w1)
          as (w2 & rest' & pl' & -> & Hpl & Hit); [done..| |].
        { intros t _. apply Hcalm1. lia. }
        eexists _, _. split; [done|]. by exists pl'. }
    pose proof (apply_playlist_keeps w_fault plex playlist userInputs resolved) as Hkf.
    pose proof (apply_playlist_keeps w_index plex playlist userInputs resolved) as Hki.
    specialize (Hkf ltac:(done) ltac:(done) w1).
    specialize (Hki ltac:(done) ltac:(done) w1).
    rewrite Happly in Hkf, Hki |- *. cbn in Hkf, Hki.
    pose proof (record_missing_spec playlist userInputs missing w2) as Hrec.
    pose proof (record_missing_oracles playlist userInputs missing w2) as [Hf3 Hi3].
    destruct (record_missing playlist userInputs missing w2) as [[r3 w3] evs3].
    destruct Hrec as (-> & Hp3 & _). cbn in Hf3, Hi3.
    split; [congruence|]. split; [congruence|]. split; [done|].
    destruct resolved; [congruence|].
    destruct Hitems as (pl' & Hpl & Hit). exists pl'. by rewrite Hp3.
  - unfold update_or_create_plex_playlist. rewrite run_bind, Hrun. by cbn.
  - unfold update_or_create_plex_playlist. rewrite run_bind, Hrun. by cbn.
Qed.

(** X22. Running a pass twice in a row gives the same remote playlist, when
    no rating key occurs twice: on a server that is up throughout and whose
    search index does not change, under the sync policy, when no two entries
    of the existing playlist have the same rating key and neither have two of
    the resolved tracks, the second pass ends as the first did (it returns,
    or stops with the same metadata exception) and the playlist of the given
    name holds after the second pass the same items as after the first. *)
Theorem sync_pass_idempotent fuel plex playlist tracks userInputs w :
  steady w → 0 < fuel →
  append_instead_of_sync userInputs = false →
  (∀ old, w_playlists w !! name playlist = Some old →
          NoDup (ratingKey <$> pl_items old)) →
  (∀ resolved missing,
     (_get_available_plex_tracks fuel plex tracks userInputs w).1.1
     = Ret (resolved, missing) →
     NoDup (ratingKey <$> resolved)) →
  let run1 := update_or_create_plex_playlist fuel plex playlist tracks userInputs w in
  let run2 := update_or_create_plex_playlist fuel plex playlist tracks userInputs
                run1.1.2 in
  run2.1.1 = run1.1.1 ∧
  pl_items <$> (w_playlists run2.1.2 !! name playlist)
  = pl_items <$> (w_playlists run1.1.2 !! name playlist).
Proof.
  intros Hsteady Hfuel Hsync Hold Hresolved. destruct fuel as [|fuel]; [lia|]. cbn zeta.
  pose proof (pass_steady fuel plex playlist tracks userInputs w Hsteady) as H1.
  destruct (update_or_create_plex_playlist (S fuel) plex playlist tracks userInputs w)
    as [[r1 w1] evs1]. destruct H1 as (Hf1 & Hi1 & H1). cbn [fst snd].
  assert (steady w1) as Hsteady1 by by apply (steady_store w).
  pose proof (pass_steady fuel plex playlist tracks userInputs w1 Hsteady1) as H2.
  destruct (update_or_create_plex_playlist (S fuel) plex playlist tracks userInputs w1)
    as [[r2 w2] evs2]. destruct H2 as (_ & _ & H2). cbn [fst snd].
  rewrite <- (get_available_steady fuel plex tracks userInputs w w1) in H2 by done.
  destruct (_get_available_plex_tracks (S fuel) plex tracks userInputs w).1.1
    as [[resolved missing]|e|].
  - destruct H1 as (-> & H1). destruct H2 as (-> & H2). split; [done|].
    specialize (Hresolved resolved missing eq_refl).
    destruct resolved as [|s rest]; [by rewrite H2|].
    destruct H1 as (pl1 & Hpl1 & Hit1). destruct H2 as (pl2 & Hpl2 & Hit2).
    rewrite Hpl1 in Hit2. rewrite Hsync in Hit1, Hit2.
    rewrite Hpl1, Hpl2. cbn. f_equal.
    assert (∀ l, NoDup (ratingKey <$> l) → repeats [] l = []) as Hnone.
    { intros l Hl. apply repeats_distinct; [done|]. by intros t _ Hin%elem_of_nil. }
    assert (pl_items pl1 = s :: rest) as Heq1.
    { rewrite Hit1. destruct (w_playlists w !! name playlist) as [old|]; [|done].
      by rewrite (Hnone _ (Hold old eq_refl)). }
    rewrite Hit2, Heq1. by rewrite (Hnone _ Hresolved).
  - destruct H1 as (-> & H1). destruct H2 as (-> & H2). by rewrite H2.
  - destruct H1 as (-> & H1). destruct H2 as (-> & H2). by rewrite H2.
Qed.

(** X23. Under the append policy a second pass adds the resolved tracks once
    more: on a server that is up throughout and whose search index does not
    change, when the resolution yields a non-empty resolved sequence, the
    playlist holds after the second pass its items of after the first pass
    followed by the resolved tracks again. *)
Theorem append_pass_duplicates fuel plex playlist tracks userInputs w
    resolved missing w0 evs0 :
  steady w → append_instead_of_sync userInputs = true →
  _get_available_plex_tracks (S fuel) plex tracks userInputs w
  = (Ret (resolved, missing), w0, evs0) →
  resolved ≠ [] →
  let run1 := update_or_create_plex_playlist (S fuel) plex playlist tracks userInputs
                w in
  let run2 := update_or_create_plex_playlist (S fuel) plex playlist tracks userInputs
                run1.1.2 in
  ∃ pl1 pl2,
    w_playlists run1.1.2 !! name playlist = Some pl1 ∧
    w_playlists run2.1.2 !! name playlist = Some pl2 ∧
    pl_items pl2 = pl_items pl1 ++ resolved.
Proof.
  intros Hsteady Happend Hrun Hne. cbn zeta.
  pose proof (pass_steady fuel plex playlist tracks userInputs w Hsteady) as H1.
  destruct (update_or_create_plex_playlist (S fuel) plex playlist tracks userInputs w)
    as [[r1 w1] evs1]. destruct H1 as (Hf1 & Hi1 & H1). cbn [fst snd].
  assert (steady w1) as Hsteady1 by by apply (steady_store w).
  pose proof (pass_steady fuel plex playlist tracks userInputs w1 Hsteady1) as H2.
  destruct (update_or_create_plex_playlist (S fuel) plex playlist tracks userInputs w1)
    as [[r2 w2] evs2]. destruct H2 as (_ & _ & H2). cbn [fst snd].
  rewrite <- (get_available_steady fuel plex tracks userInputs w w1) in H2 by done.
  rewrite Hrun in H1, H2. cbn [fst] in H1, H2.
  destruct H1 as (_ & H1). destruct H2 as (_ & H2).
  destruct resolved as [|s rest]; [done|].
  destruct H1 as (pl1 & Hpl1 & Hit1). destruct H2 as (pl2 & Hpl2 & Hit2).
  exists pl1, pl2. split; [done|]. split; [done|].
  by rewrite Hit2, Hpl1, Happend.
Qed.

Lemma sync_pass_idempotent_witness :
  let run1 := update_or_create_plex_playlist 1 Demo.plex0 Demo.p_mix [Demo.t_song]
                Demo.ui (Demo.w_up [Demo.c_queen]) in
  let run2 := update_or_create_plex_playlist 1 Demo.plex0 Demo.p_mix [Demo.t_song]
                Demo.ui run1.1.2 in
  run2.1.1 = run1.1.1 ∧
  pl_items <$> (w_playlists run2.1.2 !! name Demo.p_mix)
  = pl_items <$> (w_playlists run1.1.2 !! name Demo.p_mix).
Proof.
  refine (sync_pass_idempotent 1 Demo.plex0 Demo.p_mix [Demo.t_song] Demo.ui
            (Demo.w_up [Demo.c_queen])
            (conj (fun t _ => eq_refl) (fun t t' q mt lim => eq_refl)) _ eq_refl _ _).
  - lia.
  - intros old Hold. vm_compute in Hold. injection Hold as <-. apply NoDup_singleton.
  - intros resolved missing Hrun. vm_compute in Hrun. injection Hrun as <- _.
    apply NoDup_singleton.
Defined.

Lemma append_pass_duplicates_witness :
  let run1 := update_or_create_plex_playlist 1 Demo.plex0 Demo.p_mix [Demo.t_song]
                Demo.ui_append (Demo.w_up [Demo.c_queen]) in
  let run2 := update_or_create_plex_playlist 1 Demo.plex0 Demo.p_mix [Demo.t_song]
                Demo.ui_append run1.1.2 in
  ∃ pl1 pl2,
    w_playlists run1.1.2 !! name Demo.p_mix = Some pl1 ∧
    w_playlists run2.1.2 !! name Demo.p_mix = Some pl2 ∧
    pl_items pl2 = pl_items pl1 ++ [Demo.c_queen].
Proof.
  refine (append_pass_duplicates 0 Demo.plex0 Demo.p_mix [Demo.t_song] Demo.ui_append
            (Demo.w_up [Demo.c_queen]) [Demo.c_queen] [] _ _
            (conj (fun t _ => eq_refl) (fun t t' q mt lim => eq_refl))
            eq_refl eq_refl _).
  discriminate.
Defined.
